(** * DictX: common-substring dictionary search (com_substr_search.h)

    A shallow embedding of [dictx::ComSubstrSearch]: the searcher
    ([search], [compre_search], [bf_traversal], [df_traversal],
    [retrieve_dword], [lower_bound]), the builder ([build]) and the
    loader ([read]), with the properties the specification states about
    them.

    Conventions.
    - [uint32_t] values are [Z]; where the source computes in a 32-bit
      type the wrap-around is written [wrap32].  [size_t] values are [Z]
      and [wrap64] is written where the source subtracts.
    - Pointers into an array are the index in that array.
    - An array read outside its bounds is undefined behaviour in C++; the
      model returns [Undefined] there.
    - Loops whose termination depends on data carry a fuel; running out of
      it is [OutOfFuel], and the functions that call them pass a fuel
      proved sufficient below. *)

From Stdlib Require Import ZArith QArith List Ascii String Bool Lia Permutation Sorted.
Import ListNotations.
Open Scope Z_scope.
Set Warnings "-register-all".

(** ** Outcomes *)

Inductive outcome (A : Type) : Type :=
| Ok (a : A)
| OutOfFuel
| Undefined.

Arguments Ok {A} a.
Arguments OutOfFuel {A}.
Arguments Undefined {A}.

Definition bind {A B : Type} (m : outcome A) (f : A -> outcome B) : outcome B :=
  match m with
  | Ok a => f a
  | OutOfFuel => OutOfFuel
  | Undefined => Undefined
  end.

Notation "x <- m ;; k" := (bind m (fun x => k))
  (at level 61, m at next level, right associativity).
Notation "' pat <- m ;; k" := (bind m (fun x => match x with pat => k end))
  (at level 61, pat pattern, m at next level, right associativity).

(** ** Machine integers *)

Definition wrap32 (x : Z) : Z := x mod 2 ^ 32.
Definition wrap64 (x : Z) : Z := x mod 2 ^ 64.

(** Conversion of a 32-bit pattern to [int32_t]. *)
Definition to_int32 (x : Z) : Z :=
  let u := wrap32 x in if u <? 2 ^ 31 then u else u - 2 ^ 32.

Definition len {A : Type} (l : list A) : Z := Z.of_nat (List.length l).

(** [a[i]] on a C array. *)
Definition read_at {A : Type} (a : list A) (i : Z) : outcome A :=
  if i <? 0 then Undefined
  else match nth_error a (Z.to_nat i) with
       | Some x => Ok x
       | None => Undefined
       end.

(** ** Bytes and C strings *)

Definition NUL : ascii := Ascii.zero.

Definition byte_val (c : ascii) : Z := Z.of_N (N_of_ascii c).

(** The NUL-terminated string that starts at [p] in [mem]; the end of the
    buffer also ends it. *)
Fixpoint c_str_from (mem : list ascii) : list ascii :=
  match mem with
  | [] => []
  | c :: mem' => if Ascii.eqb c NUL then [] else c :: c_str_from mem'
  end.

Definition c_str (mem : list ascii) (p : Z) : list ascii :=
  c_str_from (skipn (Z.to_nat p) mem).

(** ** Data of the engine *)

Record dword_type := {
  dword_offset : Z;
  dword_size : Z
}.

Record dword_list_type := {
  list_offset : Z;
  list_size : Z
}.

Record Query := {
  word : list ascii;
  min_common_len : Z;
  min_dword_len : Z;
  max_dword_len : Z;
  limit : Z;
  depth_first_search : bool;
  com_prefix_only : bool;
  average_limit : bool
}.

(** [dword] and [value] point into [m_dwords_pool]. *)
Record Result := {
  dword : Z;
  value : Z;
  start_pos : Z;
  common_len : Z
}.

(** ** The double-array trie *)

(** Modelled from the spec: dastrie.h is not among the sources.  The
    double array is the tree it encodes: a node whose base is negative is
    a terminal and points at offset [- base] of the tail, any other node
    has the children [descend] finds.  A node index is the path of bytes
    from the root; [None] is INVALID_INDEX and the empty path is
    INITIAL_INDEX. *)
Inductive trie_node : Type :=
| Terminal (tail_offset : Z)
| Interior (children : list (ascii * trie_node)).

Record suffix_trie_type := {
  m_da : trie_node;
  m_tail : list ascii
}.

Definition size_type := option (list ascii).

Definition INVALID_INDEX : size_type := None.
Definition INITIAL_INDEX : size_type := Some [].

Fixpoint find_child (c : ascii) (children : list (ascii * trie_node)) : option trie_node :=
  match children with
  | [] => None
  | (c', t) :: rest => if Ascii.eqb c c' then Some t else find_child c rest
  end.

Fixpoint node_at (t : trie_node) (path : list ascii) : option trie_node :=
  match path with
  | [] => Some t
  | c :: path' =>
      match t with
      | Terminal _ => None
      | Interior children =>
          match find_child c children with
          | Some t' => node_at t' path'
          | None => None
          end
      end
  end.

Definition node_of (trie : suffix_trie_type) (cur : size_type) : option trie_node :=
  match cur with
  | Some path => node_at (m_da trie) path
  | None => None
  end.

(** Modelled from the spec: [get_base(node)]; only its sign is looked at. *)
Definition get_base (trie : suffix_trie_type) (cur : size_type) : Z :=
  match node_of trie cur with
  | Some (Terminal off) => - off
  | Some (Interior _) => 1
  | None => 0
  end.

(** Modelled from the spec: [descend(node, byte)], the child reached by
    one byte or INVALID_INDEX. *)
Definition descend (trie : suffix_trie_type) (cur : size_type) (c : ascii) : size_type :=
  match cur with
  | Some path =>
      match node_at (m_da trie) path with
      | Some (Interior children) =>
          match find_child c children with
          | Some _ => Some (path ++ [c])
          | None => INVALID_INDEX
          end
      | _ => INVALID_INDEX
      end
  | None => INVALID_INDEX
  end.

Definition index_eqb (a b : size_type) : bool :=
  match a, b with
  | None, None => true
  | Some p, Some q => if list_eq_dec ascii_dec p q then true else false
  | _, _ => false
  end.

(** Modelled from the spec: the tail buffer at the position [seekg] set.
    [tail_strlen] counts the bytes up to the NUL, [match_string_prefix]
    the bytes of the tail string that agree with the start of [s], and
    [tail_read_value] decodes the four little-endian bytes of a value. *)
Definition tail_strlen (trie : suffix_trie_type) (pos : Z) : Z :=
  len (c_str (m_tail trie) pos).

Fixpoint common_prefix_len (a b : list ascii) : Z :=
  match a, b with
  | x :: a', y :: b' => if Ascii.eqb x y then 1 + common_prefix_len a' b' else 0
  | _, _ => 0
  end.

Definition match_string_prefix (trie : suffix_trie_type) (pos : Z) (s : list ascii) : Z :=
  common_prefix_len (c_str (m_tail trie) pos) (c_str_from s).

Definition tail_byte (trie : suffix_trie_type) (pos : Z) : Z :=
  byte_val (nth (Z.to_nat pos) (m_tail trie) NUL).

Definition tail_read_value (trie : suffix_trie_type) (pos : Z) : Z :=
  tail_byte trie pos + 2 ^ 8 * tail_byte trie (pos + 1)
  + 2 ^ 16 * tail_byte trie (pos + 2) + 2 ^ 24 * tail_byte trie (pos + 3).

(** ** The engine *)

(** The base-class part is [trie].  A pointer member is the array it
    points to, NULL being the empty array; the size members are kept
    because [build] and [read] set them differently. *)
Record ComSubstrSearch := {
  trie : suffix_trie_type;
  m_suffix_ratio : Q;
  m_min_suffix : Z;
  m_char_table : list ascii;
  m_dwords_pool : list ascii;
  m_dwords_pool_size : Z;
  m_dwords_array : list dword_type;
  m_dwords_array_size : Z;
  m_dwordid_pool : list Z;
  m_dwordid_pool_size : Z;
  m_suffix_iindex : list dword_list_type;
  m_suffix_iindex_size : Z
}.

(** What a query changes: the caller's vector and the read position of
    [m_tail]. *)
Record memory := {
  results : list Result;
  tail_pos : Z
}.

Definition seekg (pos : Z) (st : memory) : memory :=
  {| results := results st; tail_pos := pos |}.

Definition push_back (r : Result) (st : memory) : memory :=
  {| results := results st ++ [r]; tail_pos := tail_pos st |}.

(** [m_tail >> suffixid]: the value at the read position, which moves
    past it. *)
Definition read_suffixid (e : ComSubstrSearch) (st : memory) : Z * memory :=
  (tail_read_value (trie e) (tail_pos st), seekg (tail_pos st + 4) st).

Section Search.

Variable e : ComSubstrSearch.

(** [m_dwords_array[m_dwordid_pool[i]]]. *)
Definition dword_at (i : Z) : outcome dword_type :=
  dwordid <- read_at (m_dwordid_pool e) i ;;
  read_at (m_dwords_array e) dwordid.

(** *** lower_bound *)

(** [first] and [count] of the source's loop; [it] is [first + step].
    [count] shrinks at every turn, so [Z.to_nat count] turns are enough. *)
Fixpoint lower_bound_loop (fuel : nat) (first count dwordlen : Z) : outcome Z :=
  if count >? 0 then
    match fuel with
    | O => OutOfFuel
    | S fuel' =>
        let step := Z.quot count 2 in
        let it := first + step in
        dw <- dword_at it ;;
        if dword_size dw <? dwordlen
        then lower_bound_loop fuel' (it + 1) (count - (step + 1)) dwordlen
        else lower_bound_loop fuel' first step dwordlen
    end
  else Ok first.

Definition lower_bound (first last dwordlen : Z) : outcome Z :=
  let count := to_int32 (last - first) in
  lower_bound_loop (Z.to_nat count) first count dwordlen.

(** *** retrieve_dword *)

Definition make_result (dw : dword_type) (match_len suffix_len : Z) : Result :=
  {| dword := dword_offset dw;
     value := dword_offset dw + dword_size dw + 1;
     start_pos := wrap32 (dword_size dw - suffix_len);
     common_len := wrap32 match_len |}.

(** The [for] loop of [retrieve_dword]; [n] is [dword_list_end - i]. *)
Fixpoint retrieve_loop (query : Query) (match_len suffix_len : Z)
    (n : nat) (i : Z) (result_num : Z) (st : memory) : outcome (Z * memory) :=
  match n with
  | O => Ok (result_num, st)
  | S n' =>
      dw <- dword_at i ;;
      if dword_size dw >? max_dword_len query then Ok (result_num, st)
      else
        let st' := push_back (make_result dw match_len suffix_len) st in
        if len (results st') >=? limit query then Ok (result_num + 1, st')
        else retrieve_loop query match_len suffix_len n' (i + 1) (result_num + 1) st'
  end.

Definition retrieve_dword (query : Query) (match_len suffixid suffix_len : Z)
    (st : memory) : outcome (Z * memory) :=
  if (suffixid <? m_suffix_iindex_size e) && (len (results st) <? limit query) then
    l <- read_at (m_suffix_iindex e) suffixid ;;
    let dword_list := list_offset l in
    let dword_list_end := dword_list + list_size l in
    i <- lower_bound dword_list dword_list_end (min_dword_len query) ;;
    retrieve_loop query match_len suffix_len (Z.to_nat (dword_list_end - i)) i 0 st
  else Ok (0, st).

(** *** Subtree enumeration *)

Record node_info_type := {
  cur : size_type;
  suffix_len : Z
}.

(** The body of the [for] over the char table, for one byte [c]. *)
Definition child_of (cur_node : node_info_type) (except : size_type) (c : ascii)
    : option node_info_type :=
  let cur' := descend (trie e) (cur cur_node) c in
  if index_eqb cur' except then None
  else if index_eqb cur' INVALID_INDEX then None
  else Some {| cur := cur';
               suffix_len := if Ascii.eqb c NUL then suffix_len cur_node
                             else wrap32 (suffix_len cur_node + 1) |}.

(** What the terminal branch of both traversals does with a popped node. *)
Definition visit_terminal (query : Query) (match_len base : Z)
    (cur_node : node_info_type) (st : memory) : outcome (Z * memory) :=
  let offset := - base in
  let st := seekg offset st in
  let tail_len := tail_strlen (trie e) (tail_pos st) in
  let suffix_len := suffix_len cur_node + tail_len in
  if suffix_len <=? max_dword_len query then
    let offset := offset + (tail_len + 1) in
    let st := seekg offset st in
    let '(suffixid, st) := read_suffixid e st in
    retrieve_dword query match_len suffixid suffix_len st
  else Ok (0, st).

(** The queue of [bf_traversal]: the head is [front()], [push] appends. *)
Definition bf_push_children (query : Query) (cur_node : node_info_type)
    (except : size_type) (node_queue : list node_info_type) : list node_info_type :=
  let table :=
    if suffix_len cur_node =? max_dword_len query
    then firstn 1 (m_char_table e) else m_char_table e in
  fold_left (fun q c => match child_of cur_node except c with
                        | Some child_node => q ++ [child_node]
                        | None => q
                        end) table node_queue.

Fixpoint bf_loop (query : Query) (match_len : Z) (except : size_type)
    (fuel : nat) (node_queue : list node_info_type) (result_num : Z) (st : memory)
    : outcome (Z * memory) :=
  match node_queue with
  | [] => Ok (result_num, st)
  | cur_node :: node_queue' =>
      if len (results st) <? limit query then
        match fuel with
        | O => OutOfFuel
        | S fuel' =>
            let base := get_base (trie e) (cur cur_node) in
            if base <? 0 then
              '(n, st') <- visit_terminal query match_len base cur_node st ;;
              bf_loop query match_len except fuel' node_queue' (result_num + n) st'
            else if suffix_len cur_node <=? max_dword_len query then
              bf_loop query match_len except fuel'
                (bf_push_children query cur_node except node_queue') result_num st
            else bf_loop query match_len except fuel' node_queue' result_num st
        end
      else Ok (result_num, st)
  end.

(** The stack of [df_traversal]: the head is [top()]. *)
Definition df_push_children (cur_node : node_info_type)
    (except : size_type) (node_stack : list node_info_type) : list node_info_type :=
  fold_left (fun s c => match child_of cur_node except c with
                        | Some child_node => child_node :: s
                        | None => s
                        end) (rev (m_char_table e)) node_stack.

Fixpoint df_loop (query : Query) (match_len : Z) (except : size_type)
    (fuel : nat) (node_stack : list node_info_type) (result_num : Z) (st : memory)
    : outcome (Z * memory) :=
  match node_stack with
  | [] => Ok (result_num, st)
  | cur_node :: node_stack' =>
      if len (results st) <? limit query then
        match fuel with
        | O => OutOfFuel
        | S fuel' =>
            let base := get_base (trie e) (cur cur_node) in
            if base <? 0 then
              '(n, st') <- visit_terminal query match_len base cur_node st ;;
              df_loop query match_len except fuel' node_stack' (result_num + n) st'
            else if suffix_len cur_node <=? max_dword_len query then
              df_loop query match_len except fuel'
                (df_push_children cur_node except node_stack') result_num st
            else df_loop query match_len except fuel' node_stack' result_num st
        end
      else Ok (result_num, st)
  end.

(** An upper bound on the nodes a traversal can pop below a node: every
    child counts once for each time its byte occurs in the char table. *)
Fixpoint weight (t : trie_node) : nat :=
  match t with
  | Terminal _ => 1
  | Interior children =>
      S ((fix sum (l : list (ascii * trie_node)) : nat :=
            match l with
            | [] => 0%nat
            | (c, t') :: l' =>
                (count_occ ascii_dec (m_char_table e) c * weight t' + sum l')%nat
            end) children)
  end.

Definition traversal_fuel (start_cur : size_type) : nat :=
  match node_of (trie e) start_cur with
  | Some t => weight t
  | None => 1%nat
  end.

Definition bf_traversal (query : Query) (start_cur : size_type) (match_len : Z)
    (except : size_type) (st : memory) : outcome (Z * memory) :=
  if (match_len >? max_dword_len query) || (len (results st) >=? limit query)
  then Ok (0, st)
  else bf_loop query match_len except (traversal_fuel start_cur)
         [{| cur := start_cur; suffix_len := match_len |}] 0 st.

Definition df_traversal (query : Query) (start_cur : size_type) (match_len : Z)
    (except : size_type) (st : memory) : outcome (Z * memory) :=
  if (match_len >? max_dword_len query) || (len (results st) >=? limit query)
  then Ok (0, st)
  else df_loop query match_len except (traversal_fuel start_cur)
         [{| cur := start_cur; suffix_len := match_len |}] 0 st.

(** *** compre_search *)

(** How the forward walk of [compre_search] ends. *)
Record walk_end := {
  we_result_num : Z;
  we_match_len : Z;
  we_stack : list size_type;
  we_memory : memory
}.

(** The first loop of [compre_search].  [trie_index_stack] has its top at
    the head.  [match_len] grows at every turn that does not leave the
    loop, so [|word|] turns are enough. *)
Fixpoint walk (query : Query) (fuel : nat) (cur : size_type) (match_len : Z)
    (trie_index_stack : list size_type) (result_num : Z) (st : memory)
    : outcome walk_end :=
  let stop := {| we_result_num := result_num; we_match_len := match_len;
                 we_stack := trie_index_stack; we_memory := st |} in
  if (match_len <? len (word query)) && (match_len <=? max_dword_len query) then
    match fuel with
    | O => OutOfFuel
    | S fuel' =>
        let cur := descend (trie e) cur (nth (Z.to_nat match_len) (word query) NUL) in
        if index_eqb INVALID_INDEX cur then Ok stop
        else
          let match_len := match_len + 1 in
          let base := get_base (trie e) cur in
          if base <? 0 then
            let offset := - base in
            let match_len_save := wrap32 match_len in
            let st := seekg offset st in
            let tail_len := wrap32 (tail_strlen (trie e) (tail_pos st)) in
            let suffix_len := wrap32 (match_len + tail_len) in
            let word_remain := skipn (Z.to_nat match_len) (word query) in
            let match_len :=
              match_len + match_string_prefix (trie e) (tail_pos st) word_remain in
            '(n, st) <-
              (if match_len >=? min_common_len query then
                 let offset := offset + (tail_len + 1) in
                 let st := seekg offset st in
                 let '(suffixid, st) := read_suffixid e st in
                 retrieve_dword query match_len suffixid suffix_len st
               else Ok (0, st)) ;;
            Ok {| we_result_num := result_num + n;
                  we_match_len := wrap32 (match_len_save - 1);
                  we_stack := trie_index_stack;
                  we_memory := st |}
          else
            walk query fuel' cur match_len
              (if match_len >=? min_common_len query
               then cur :: trie_index_stack else trie_index_stack)
              result_num st
    end
  else Ok stop.

(** The second loop of [compre_search]. *)
Fixpoint backtrack (query : Query) (trie_index_stack : list size_type)
    (match_len : Z) (except : size_type) (result_num : Z) (st : memory)
    : outcome (Z * memory) :=
  match trie_index_stack with
  | [] => Ok (result_num, st)
  | cur :: rest =>
      '(n, st') <-
        (if depth_first_search query
         then df_traversal query cur (wrap32 match_len) except st
         else bf_traversal query cur (wrap32 match_len) except st) ;;
      backtrack query rest (wrap64 (match_len - 1)) cur (result_num + n) st'
  end.

Definition compre_search (query : Query) (st : memory) : outcome (Z * memory) :=
  if (min_common_len query >? len (word query))
     || (min_common_len query >? max_dword_len query)
  then Ok (0, st)
  else
    let cur := INITIAL_INDEX in
    let base := get_base (trie e) cur in
    if base <? 0 then Ok (0, st)
    else
      w <- walk query (List.length (word query)) cur 0 [] 0 st ;;
      backtrack query (we_stack w) (we_match_len w) INVALID_INDEX
        (we_result_num w) (we_memory w).

(** *** search *)

Definition with_word (query : Query) (w : list ascii) : Query :=
  {| word := w;
     min_common_len := min_common_len query;
     min_dword_len := min_dword_len query;
     max_dword_len := max_dword_len query;
     limit := limit query;
     depth_first_search := depth_first_search query;
     com_prefix_only := com_prefix_only query;
     average_limit := average_limit query |}.

Definition with_limit (query : Query) (l : Z) : Query :=
  {| word := word query;
     min_common_len := min_common_len query;
     min_dword_len := min_dword_len query;
     max_dword_len := max_dword_len query;
     limit := l;
     depth_first_search := depth_first_search query;
     com_prefix_only := com_prefix_only query;
     average_limit := average_limit query |}.

(** The [for] over the starting offsets; [n] is the number of offsets
    left, [suffixq] carries the limit of the turn before. *)
Fixpoint search_loop (query suffixq : Query) (n : nat) (i : Z) (result_num : Z)
    (st : memory) : outcome (Z * memory) :=
  match n with
  | O => Ok (result_num, st)
  | S n' =>
      let suffixq := with_word suffixq (skipn (Z.to_nat i) (word query)) in
      let suffixq :=
        if average_limit query
        then with_limit suffixq (wrap32 (result_num + limit query))
        else suffixq in
      '(k, st') <- compre_search suffixq st ;;
      search_loop query suffixq n' (i + 1) (wrap32 (result_num + k)) st'
  end.

(** [results] is the caller's pointer: [None] is NULL, [Some v] a vector
    holding [v].  The second component of the answer is the vector after
    the call. *)
Definition search (query : Query) (results_ptr : option (list Result)) (tpos : Z)
    : outcome (Z * option (list Result) * Z) :=
  match results_ptr with
  | None => Ok (0, None, tpos)
  | Some v =>
      if (len (word query) <? min_common_len query) || (limit query =? 0)
      then Ok (0, Some v, tpos)
      else
        let st := {| results := []; tail_pos := tpos |} in
        if com_prefix_only query then
          '(_, st') <- compre_search query st ;;
          Ok (0, Some (results st'), tail_pos st')
        else
          '(result_num, st') <-
            search_loop query query
              (Z.to_nat (len (word query) - min_common_len query + 1)) 0 0 st ;;
          Ok (result_num, Some (results st'), tail_pos st')
  end.

End Search.

(** ** The builder *)

Module dastrie.

(** [builder<char *, uint32_t>::record_type]; [key] points into the word
    pool. *)
Record record_type := {
  key : Z;
  value : Z
}.

Definition NUMCHARS : Z := 256.

End dastrie.

Definition trie_record_type := dastrie.record_type.

Definition LF : ascii := ascii_of_nat 10.
Definition TAB : ascii := ascii_of_nat 9.

(** [std::getline] over the whole file: the lines between line feeds; a
    last line needs no line feed, and nothing follows a final one. *)
Fixpoint getlines (line : list ascii) (input : list ascii) : list (list ascii) :=
  match input with
  | [] => match line with [] => [] | _ => [rev line] end
  | c :: input' =>
      if Ascii.eqb c LF then rev line :: getlines [] input'
      else getlines (c :: line) input'
  end.

(** [line.find('\t')]; [None] is [npos]. *)
Fixpoint find_tab (line : list ascii) : option Z :=
  match line with
  | [] => None
  | c :: line' =>
      if Ascii.eqb c TAB then Some 0
      else match find_tab line' with
           | Some k => Some (k + 1)
           | None => None
           end
  end.

(** A store into an array.  A store outside the array is dropped: the
    array keeps its size.  The source makes one such store, the NUL it
    writes at [offset + len + 1] after the last record of a file that
    ends with that record or with its line feed; in C++ that store is
    undefined.  [stores_in_pool] tells the files that have none, and
    the theorems on what [build] makes of every dictionary are stated
    for those. *)
Fixpoint poke_nat {A : Type} (a : list A) (i : nat) (x : A) : list A :=
  match a, i with
  | [], _ => []
  | _ :: a', O => x :: a'
  | y :: a', S i' => y :: poke_nat a' i' x
  end.

Definition poke {A : Type} (a : list A) (i : Z) (x : A) : list A :=
  if i <? 0 then a else poke_nat a (Z.to_nat i) x.

Fixpoint store_bytes (a : list ascii) (i : Z) (bytes : list ascii) : list ascii :=
  match bytes with
  | [] => a
  | b :: bytes' => store_bytes (poke a i b) (i + 1) bytes'
  end.

(** A store that must be in range. *)
Definition write_at {A : Type} (a : list A) (i : Z) (x : A) : outcome (list A) :=
  if (0 <=? i) && (i <? len a) then Ok (poke a i x) else Undefined.

(** [strcmp] on two NUL-terminated strings, given without their NUL. *)
Fixpoint strcmp (a b : list ascii) : Z :=
  match a, b with
  | [], [] => 0
  | [], _ :: _ => -1
  | _ :: _, [] => 1
  | x :: a', y :: b' =>
      if byte_val x =? byte_val y then strcmp a' b' else byte_val x - byte_val y
  end.

(** Modelled from the spec: [builder::build(first, last)] on the records
    of [first .. last), sorted by key with unique keys.  [arrange] makes a
    terminal of a range of one record, whose remaining key bytes, a NUL and
    the value go to the end of the tail; a longer range gets one child for
    each byte at the current depth, the NUL byte for the key that ends
    there.  Offset 0 of the tail is reserved, since a terminal is known by
    [base < 0]. *)
Definition le32 (v : Z) : list ascii :=
  map (fun k => ascii_of_N (Z.to_N ((wrap32 v / 2 ^ (8 * k)) mod 2 ^ 8))) [0; 1; 2; 3].

Definition head_byte (k : list ascii) : ascii :=
  match k with
  | [] => NUL
  | c :: _ => c
  end.

(** The records that start with the byte [c], without that byte, and the
    records after them. *)
Fixpoint take_group (c : ascii) (recs : list (list ascii * Z))
    : list (list ascii * Z) * list (list ascii * Z) :=
  match recs with
  | [] => ([], [])
  | (k, v) :: recs' =>
      if Ascii.eqb (head_byte k) c then
        let '(g, rest) := take_group c recs' in ((tl k, v) :: g, rest)
      else ([], recs)
  end.

Fixpoint group_by_head (fuel : nat) (recs : list (list ascii * Z))
    : list (ascii * list (list ascii * Z)) :=
  match fuel, recs with
  | S fuel', (k, v) :: _ =>
      let c := head_byte k in
      let '(g, rest) := take_group c recs in
      (c, g) :: group_by_head fuel' rest
  | _, _ => []
  end.

Fixpoint arrange (depth : nat) (recs : list (list ascii * Z)) (tail : list ascii)
    : trie_node * list ascii :=
  match recs with
  | [(k, v)] => (Terminal (len tail), tail ++ k ++ [NUL] ++ le32 v)
  | _ =>
      match depth with
      | O => (Interior [], tail)
      | S depth' =>
          let '(children, tail') :=
            fold_left
              (fun acc cg =>
                 let '(children, tail) := acc in
                 let '(c, g) := cg in
                 let '(t, tail') := arrange depth' g tail in
                 (children ++ [(c, t)], tail'))
              (group_by_head (List.length recs) recs) ([], tail) in
          (Interior children, tail')
      end
  end.

Definition max_key_len (recs : list (list ascii * Z)) : nat :=
  fold_right (fun r m => Nat.max (List.length (fst r)) m) 0%nat recs.

Definition dat_build (pool : list ascii) (records : list trie_record_type)
    : suffix_trie_type :=
  let recs := map (fun r => (c_str pool (dastrie.key r), dastrie.value r)) records in
  let '(root, tail) := arrange (S (S (max_key_len recs))) recs [NUL] in
  {| m_da := root; m_tail := tail |}.

(** Memory that [new] hands out is not initialised; these are the bytes
    and words found in it. *)
Record uninitialised := {
  junk_char : Z -> ascii;
  junk_id : Z -> Z;
  junk_list : Z -> dword_list_type
}.

Definition fresh_array {A : Type} (junk : Z -> A) (n : Z) : list A :=
  map (fun k => junk (Z.of_nat k)) (seq 0 (Z.to_nat n)).

(** The database file.  The DAT payload is opaque: it is kept as what
    [suffix_trie_type::read] makes of it, the trie and the number of bytes
    read, or [None] when that read fails.  The blocks after it are raw
    bytes. *)
Record db_file := {
  db_dat : option (suffix_trie_type * Z);
  db_blocks : list ascii
}.

Section Build.

(** [std::sort]: the order it leaves equivalent elements in is not
    specified, so it is a parameter. *)
Variable std_sort : forall A : Type, (A -> A -> bool) -> list A -> list A.

Variable junk : uninitialised.

(** Modelled from the spec: the size of the payload [builder::write]
    emits, which the DAT's [read] reports back. *)
Variable dat_size : suffix_trie_type -> Z.

(** [operator <] of [dword_type]. *)
Definition dword_lt (a b : dword_type) : bool := dword_size a <? dword_size b.

Definition suffix_cmp (pool : list ascii) (r1 r2 : trie_record_type) : bool :=
  strcmp (c_str pool (dastrie.key r1)) (c_str pool (dastrie.key r2)) <? 0.

(** The [while (std::getline(is, line))] loop. *)
Fixpoint read_lines (lines : list (list ascii)) (pool : list ascii) (offset : Z)
    (dwords_array : list dword_type) : list ascii * Z * list dword_type :=
  match lines with
  | [] => (pool, offset, dwords_array)
  | line :: lines' =>
      let l := len line in
      let pool := store_bytes pool offset line in
      match find_tab line with
      | Some key_len =>
          let pool := poke pool (offset + key_len) NUL in
          let pool := poke pool (offset + l + 1) NUL in
          let dw := {| dword_offset := wrap32 offset; dword_size := wrap32 key_len |} in
          read_lines lines' pool (offset + l + 1) (dwords_array ++ [dw])
      | None => read_lines lines' pool offset dwords_array
      end
  end.

(** [int min_suffix = size * m_suffix_ratio], then the larger of it and
    [m_min_suffix]; the comparison and the choice are made in [unsigned].
    The ratio is an exact fraction: the product is the one the source
    computes when it is exact in a [double], as it is for the ratio 0.5
    and for every ratio that [exact_ratio] accepts; for other ratios the
    source rounds the product before it truncates. *)
Definition min_suffix_of (this : ComSubstrSearch) (size : Z) : Z :=
  let min_suffix :=
    Z.quot (size * Qnum (m_suffix_ratio this)) (Zpos (Qden (m_suffix_ratio this))) in
  to_int32 (if wrap32 min_suffix >? m_min_suffix this then min_suffix
            else m_min_suffix this).

(** The suffix records of word [i]. *)
Definition suffixes_of (this : ComSubstrSearch) (i : Z) (dw : dword_type)
    : list trie_record_type :=
  let min_suffix := min_suffix_of this (dword_size dw) in
  map (fun j => {| dastrie.key := dword_offset dw + Z.of_nat j; dastrie.value := i |})
      (seq 0 (Z.to_nat (to_int32 (dword_size dw) - min_suffix + 1))).

Fixpoint all_suffixes (this : ComSubstrSearch) (i : Z) (dwords_array : list dword_type)
    : list trie_record_type :=
  match dwords_array with
  | [] => []
  | dw :: rest => suffixes_of this i dw ++ all_suffixes this (i + 1) rest
  end.

(** The variables of the scan that removes duplicate suffixes. *)
Record dedup := {
  b_i : Z;
  b_wordid_array_offset : Z;
  b_suffix_iindex : list dword_list_type;
  b_dwordid_pool : list Z;
  b_input_suffix_array : list trie_record_type
}.

(** [std::sort(&a[first], &a[first + size])]. *)
Definition sort_range (a : list Z) (first size : Z) : list Z :=
  firstn (Z.to_nat first) a
  ++ std_sort Z Z.ltb (firstn (Z.to_nat size) (skipn (Z.to_nat first) a))
  ++ skipn (Z.to_nat (first + size)) a.

(** The part of the body guarded by [j == 1]. *)
Definition dedup_first (d : dedup) : outcome dedup :=
  let i := b_i d in
  r0 <- read_at (b_input_suffix_array d) 0 ;;
  pool <- write_at (b_dwordid_pool d) 0 (dastrie.value r0) ;;
  iindex <- write_at (b_suffix_iindex d) i {| list_offset := 0; list_size := 1 |} ;;
  ri <- read_at (b_input_suffix_array d) i ;;
  isa <- write_at (b_input_suffix_array d) i
           {| dastrie.key := dastrie.key ri; dastrie.value := 0 |} ;;
  Ok {| b_i := i; b_wordid_array_offset := 1; b_suffix_iindex := iindex;
        b_dwordid_pool := pool; b_input_suffix_array := isa |}.

(** The rest of the body: the suffix at [j] is the one at [i], or a new
    one. *)
Definition dedup_core (pool : list ascii) (j : Z) (d : dedup) : outcome dedup :=
  let i := b_i d in
  let wordid_array_offset := b_wordid_array_offset d in
  rj <- read_at (b_input_suffix_array d) j ;;
  ri <- read_at (b_input_suffix_array d) i ;;
  if strcmp (c_str pool (dastrie.key rj)) (c_str pool (dastrie.key ri)) =? 0 then
    dwordid_pool <- write_at (b_dwordid_pool d) wordid_array_offset (dastrie.value rj) ;;
    li <- read_at (b_suffix_iindex d) i ;;
    iindex <- write_at (b_suffix_iindex d) i
                {| list_offset := list_offset li;
                   list_size := wrap32 (list_size li + 1) |} ;;
    Ok {| b_i := i; b_wordid_array_offset := wrap32 (wordid_array_offset + 1);
          b_suffix_iindex := iindex; b_dwordid_pool := dwordid_pool;
          b_input_suffix_array := b_input_suffix_array d |}
  else
    li <- read_at (b_suffix_iindex d) i ;;
    let dwordid_pool := sort_range (b_dwordid_pool d) (list_offset li) (list_size li) in
    let i := i + 1 in
    dwordid_pool <- write_at dwordid_pool wordid_array_offset (dastrie.value rj) ;;
    iindex <- write_at (b_suffix_iindex d) i
                {| list_offset := wordid_array_offset; list_size := 1 |} ;;
    isa <- write_at (b_input_suffix_array d) i
             {| dastrie.key := dastrie.key rj; dastrie.value := wrap32 i |} ;;
    Ok {| b_i := i; b_wordid_array_offset := wrap32 (wordid_array_offset + 1);
          b_suffix_iindex := iindex; b_dwordid_pool := dwordid_pool;
          b_input_suffix_array := isa |}.

(** One turn of the scan, for index [j]. *)
Definition dedup_step (pool : list ascii) (j : Z) (d : dedup) : outcome dedup :=
  d <- (if j =? 1 then dedup_first d else Ok d) ;;
  dedup_core pool j d.

(** [for (size_t j = 1; j < input_suffix_array.size(); j++)]; [n] is the
    number of turns left. *)
Fixpoint dedup_loop (pool : list ascii) (n : nat) (j : Z) (d : dedup) : outcome dedup :=
  match n with
  | O => Ok d
  | S n' =>
      d' <- dedup_step pool j d ;;
      dedup_loop pool n' (j + 1) d'
  end.

Definition default_char_table : list ascii :=
  map (fun i => ascii_of_nat i) (seq 0 (Z.to_nat dastrie.NUMCHARS)).

(** The constructor. *)
Definition ComSubstrSearch_new (suffix_ratio : Q) (min_suffix : Z) : ComSubstrSearch :=
  {| trie := {| m_da := Interior []; m_tail := [NUL] |};
     m_suffix_ratio := suffix_ratio;
     m_min_suffix := min_suffix;
     m_char_table := default_char_table;
     m_dwords_pool := [];
     m_dwords_pool_size := 0;
     m_dwords_array := [];
     m_dwords_array_size := 0;
     m_dwordid_pool := [];
     m_dwordid_pool_size := 0;
     m_suffix_iindex := [];
     m_suffix_iindex_size := 0 |}.

(** The bytes of an array of [(uint32_t, uint32_t)] pairs or of
    [uint32_t], as [ofs.write] copies them.  [stored a n] are the [n]
    first elements of [a], which [ofs.write] reads; to read more than the
    array holds is undefined. *)
Definition bytes_of_dword (d : dword_type) : list ascii :=
  le32 (dword_offset d) ++ le32 (dword_size d).

Definition bytes_of_list (d : dword_list_type) : list ascii :=
  le32 (list_offset d) ++ le32 (list_size d).

Definition block (tag : string) (payload : list ascii) : list ascii :=
  list_ascii_of_string tag ++ le32 (len payload) ++ payload.

Definition stored {A : Type} (a : list A) (n : Z) : outcome (list A) :=
  if n <=? len a then Ok (firstn (Z.to_nat n) a) else Undefined.

(** What [build] leaves behind: its status, the engine, the record range
    it gave the DAT builder, and the database file when [db_fname] is not
    empty. *)
Record built := {
  status : Z;
  engine : ComSubstrSearch;
  trie_records : list trie_record_type;
  suffix_array : list trie_record_type;
  written : option db_file
}.

Definition build (this : ComSubstrSearch) (dict : list ascii) (db_fname : string)
    : outcome built :=
  let file_size := len dict in
  let pool0 := fresh_array (junk_char junk) file_size in
  let '(pool, offset, dwords_array) := read_lines (getlines [] dict) pool0 0 [] in
  let dwords_array := std_sort dword_type dword_lt dwords_array in
  let input_suffix_array := all_suffixes this 0 dwords_array in
  let input_suffix_array := std_sort trie_record_type (suffix_cmp pool) input_suffix_array in
  let n := len input_suffix_array in
  d <- dedup_loop pool (Z.to_nat (n - 1)) 1
         {| b_i := 0; b_wordid_array_offset := 0;
            b_suffix_iindex := fresh_array (junk_list junk) n;
            b_dwordid_pool := fresh_array (junk_id junk) n;
            b_input_suffix_array := input_suffix_array |} ;;
  let i := b_i d in
  let suffix_iindex_size := wrap32 (i + 1) in
  let records := firstn (Z.to_nat i) (b_input_suffix_array d) in
  let builder := dat_build pool records in
  let loaded :=
    {| trie := if String.eqb db_fname EmptyString then builder else trie this;
       m_suffix_ratio := m_suffix_ratio this;
       m_min_suffix := m_min_suffix this;
       m_char_table := m_char_table this;
       m_dwords_pool := pool;
       m_dwords_pool_size := m_dwords_pool_size this;
       m_dwords_array := dwords_array;
       m_dwords_array_size := wrap32 (len dwords_array);
       m_dwordid_pool := b_dwordid_pool d;
       m_dwordid_pool_size := wrap32 n;
       m_suffix_iindex := b_suffix_iindex d;
       m_suffix_iindex_size := suffix_iindex_size |} in
  ofs <- (if String.eqb db_fname EmptyString then Ok None
          else
            pool_block <- stored pool (wrap32 offset) ;;
            iindex_block <- stored (b_suffix_iindex d) suffix_iindex_size ;;
            Ok (Some {| db_dat := Some (builder, dat_size builder);
                        db_blocks :=
                          block "DWDP" pool_block
                          ++ block "DWAR" (flat_map bytes_of_dword dwords_array)
                          ++ block "IDAR" (flat_map le32 (b_dwordid_pool d))
                          ++ block "IIND" (flat_map bytes_of_list iindex_block) |})) ;;
  Ok {| status := 0;
        engine := loaded;
        trie_records := records;
        suffix_array := firstn (Z.to_nat (i + 1)) (b_input_suffix_array d);
        written := ofs |}.

End Build.

(** ** Char table and teardown *)

(** [set_char_table]: the status and the engine after the call. *)
Definition set_char_table (this : ComSubstrSearch) (char_table : list ascii)
    : Z * ComSubstrSearch :=
  if (len char_table <=? dastrie.NUMCHARS)
     && existsb (fun c => Ascii.eqb c NUL) char_table
  then (0, {| trie := trie this;
              m_suffix_ratio := m_suffix_ratio this;
              m_min_suffix := m_min_suffix this;
              m_char_table := char_table;
              m_dwords_pool := m_dwords_pool this;
              m_dwords_pool_size := m_dwords_pool_size this;
              m_dwords_array := m_dwords_array this;
              m_dwords_array_size := m_dwords_array_size this;
              m_dwordid_pool := m_dwordid_pool this;
              m_dwordid_pool_size := m_dwordid_pool_size this;
              m_suffix_iindex := m_suffix_iindex this;
              m_suffix_iindex_size := m_suffix_iindex_size this |})
  else (1, this).

Definition get_dwords_num (this : ComSubstrSearch) : Z := m_dwords_array_size this.

(** [clear]: each array that is not NULL is freed and its size zeroed.
    The trie of the base class is not touched.

    An array is a list, the NULL pointer the empty list.  The class
    keeps a NULL member at size 0: the constructor sets both, [read]
    sets the size and allocates at once, [build] allocates, and [new]
    never answers NULL.  So an empty list with a size other than 0 is an
    array of no element (as [new dword_list_type[0]] in [build]), which
    [clear] frees, zeroing the size; for an empty list of size 0 the two
    branches of each test leave the same state. *)
Definition clear (this : ComSubstrSearch) : ComSubstrSearch :=
  {| trie := trie this;
     m_suffix_ratio := m_suffix_ratio this;
     m_min_suffix := m_min_suffix this;
     m_char_table := m_char_table this;
     m_dwords_pool := [];
     m_dwords_pool_size := 0;
     m_dwords_array := [];
     m_dwords_array_size := 0;
     m_dwordid_pool := [];
     m_dwordid_pool_size := 0;
     m_suffix_iindex := [];
     m_suffix_iindex_size := 0 |}.

(** ** The loader *)

(** An input stream: the bytes not yet read, the read position, and the
    fail bit.  [stream_read] is [ifs.read(buf, n)]: it hands out the bytes
    it could get, fewer than [n] at the end of the file, which sets the
    fail bit; a failed stream hands out nothing. *)
Record ifstream := {
  is_bytes : list ascii;
  is_pos : Z;
  is_fail : bool
}.

Definition stream_read (ifs : ifstream) (n : Z) : list ascii * ifstream :=
  if is_fail ifs then ([], ifs)
  else
    let got := firstn (Z.to_nat n) (is_bytes ifs) in
    (got, {| is_bytes := skipn (Z.to_nat n) (is_bytes ifs);
             is_pos := is_pos ifs + len got;
             is_fail := len got <? n |}).

(** [ifs.tellg()] as a [size_t]. *)
Definition tellg (ifs : ifstream) : Z :=
  if is_fail ifs then wrap64 (-1) else is_pos ifs.

(** The buffer [old] after the bytes [got] were stored at its start. *)
Definition overlay (got old : list ascii) : list ascii :=
  firstn (List.length old) got ++ skipn (List.length got) old.

Definition le32_decode (b : list ascii) : Z :=
  byte_val (nth 0 b NUL) + 2 ^ 8 * byte_val (nth 1 b NUL)
  + 2 ^ 16 * byte_val (nth 2 b NUL) + 2 ^ 24 * byte_val (nth 3 b NUL).

(** The elements of [n] bytes each that a buffer holds. *)
Fixpoint chunks (n : nat) (count : nat) (b : list ascii) : list (list ascii) :=
  match count with
  | O => []
  | S count' => firstn n b :: chunks n count' (skipn n b)
  end.

Definition dword_of_bytes (b : list ascii) : dword_type :=
  {| dword_offset := le32_decode b; dword_size := le32_decode (skipn 4 b) |}.

Definition list_of_bytes (b : list ascii) : dword_list_type :=
  {| list_offset := le32_decode b; list_size := le32_decode (skipn 4 b) |}.

Inductive block_tag : Type := DWDP | DWAR | IDAR | IIND.

Definition tag_bytes (t : block_tag) : list ascii :=
  list_ascii_of_string
    match t with
    | DWDP => "DWDP"
    | DWAR => "DWAR"
    | IDAR => "IDAR"
    | IIND => "IIND"
    end.

(** [std::strncmp(chunk, tag, 4) != 0]. *)
Definition tag_differs (chunk : list ascii) (t : block_tag) : bool :=
  if list_eq_dec ascii_dec (firstn 4 chunk) (tag_bytes t) then false else true.

(** What [read] leaves behind: the value it returns and the engine.
    [stopped_at] is not in the source: it names the tag whose check made
    [read] return early. *)
Record loaded := {
  used_size : Z;
  after : ComSubstrSearch;
  stopped_at : option block_tag
}.

(** The head of a block: the tag goes to [chunk], the four bytes after it
    to [block_size], then [block_size] bytes go to a new buffer for
    [count] elements of [width] bytes.  The answer is [None] when the tag
    differs, else the buffer.  When [block_size] is no multiple of
    [width] the source reads the bytes after the last whole element past
    the end of the array, which is undefined; the buffer here keeps the
    whole elements.  What [read] returns and the sizes it sets do not
    depend on the buffers. *)
Definition read_block (junk : Z -> ascii) (t : block_tag) (width : Z)
    (ifs : ifstream) (chunk : list ascii) (block_size : Z)
    : ifstream * list ascii * Z * option (list ascii) :=
  let '(got, ifs) := stream_read ifs 4 in
  let chunk := overlay got chunk in
  if tag_differs chunk t then (ifs, chunk, block_size, None)
  else
    let '(got, ifs) := stream_read ifs 4 in
    let block_size := le32_decode (overlay got (le32 block_size)) in
    let '(got, ifs) := stream_read ifs block_size in
    let buffer := fresh_array junk (Z.quot block_size width * width) in
    (ifs, chunk, block_size, Some (overlay got buffer)).

Definition with_trie (this : ComSubstrSearch) (t : suffix_trie_type) : ComSubstrSearch :=
  {| trie := t;
     m_suffix_ratio := m_suffix_ratio this;
     m_min_suffix := m_min_suffix this;
     m_char_table := m_char_table this;
     m_dwords_pool := m_dwords_pool this;
     m_dwords_pool_size := m_dwords_pool_size this;
     m_dwords_array := m_dwords_array this;
     m_dwords_array_size := m_dwords_array_size this;
     m_dwordid_pool := m_dwordid_pool this;
     m_dwordid_pool_size := m_dwordid_pool_size this;
     m_suffix_iindex := m_suffix_iindex this;
     m_suffix_iindex_size := m_suffix_iindex_size this |}.

(** [read].  [db] is the file named [db_fname], [None] when it cannot be
    opened; [chunk0] is what the array [chunk] holds before the first
    tag is read into it. *)
Definition read (junk : Z -> ascii) (chunk0 : list ascii) (this : ComSubstrSearch)
    (db : option db_file) : loaded :=
  let this := clear this in
  match db with
  | None => {| used_size := 0; after := this; stopped_at := None |}
  | Some f =>
      match db_dat f with
      | None => {| used_size := 0; after := this; stopped_at := None |}
      | Some (t, dat_read) =>
          let this := with_trie this t in
          if dat_read >? 0 then
            let ifs := {| is_bytes := db_blocks f; is_pos := dat_read; is_fail := false |} in
            let '(ifs, chunk, block_size, pool) := read_block junk DWDP 1 ifs chunk0 0 in
            match pool with
            | None => {| used_size := 0; after := this; stopped_at := Some DWDP |}
            | Some pool =>
                let dwords_pool := pool in
                let dwords_pool_size := block_size in
                let this1 :=
                  {| trie := trie this;
                     m_suffix_ratio := m_suffix_ratio this;
                     m_min_suffix := m_min_suffix this;
                     m_char_table := m_char_table this;
                     m_dwords_pool := dwords_pool;
                     m_dwords_pool_size := dwords_pool_size;
                     m_dwords_array := m_dwords_array this;
                     m_dwords_array_size := m_dwords_array_size this;
                     m_dwordid_pool := m_dwordid_pool this;
                     m_dwordid_pool_size := m_dwordid_pool_size this;
                     m_suffix_iindex := m_suffix_iindex this;
                     m_suffix_iindex_size := m_suffix_iindex_size this |} in
                let '(ifs, chunk, block_size, buf) :=
                  read_block junk DWAR 8 ifs chunk block_size in
                match buf with
                | None => {| used_size := 0; after := this1; stopped_at := Some DWAR |}
                | Some buf =>
                    let dwords_array_size := Z.quot block_size 8 in
                    let dwords_array :=
                      map dword_of_bytes (chunks 8 (Z.to_nat dwords_array_size) buf) in
                    let this2 :=
                      {| trie := trie this;
                         m_suffix_ratio := m_suffix_ratio this;
                         m_min_suffix := m_min_suffix this;
                         m_char_table := m_char_table this;
                         m_dwords_pool := dwords_pool;
                         m_dwords_pool_size := dwords_pool_size;
                         m_dwords_array := dwords_array;
                         m_dwords_array_size := dwords_array_size;
                         m_dwordid_pool := m_dwordid_pool this;
                         m_dwordid_pool_size := m_dwordid_pool_size this;
                         m_suffix_iindex := m_suffix_iindex this;
                         m_suffix_iindex_size := m_suffix_iindex_size this |} in
                    let '(ifs, chunk, block_size, buf) :=
                      read_block junk IDAR 4 ifs chunk block_size in
                    match buf with
                    | None => {| used_size := 0; after := this2; stopped_at := Some IDAR |}
                    | Some buf =>
                        let dwordid_pool_size := Z.quot block_size 4 in
                        let dwordid_pool :=
                          map le32_decode (chunks 4 (Z.to_nat dwordid_pool_size) buf) in
                        let this3 :=
                          {| trie := trie this;
                             m_suffix_ratio := m_suffix_ratio this;
                             m_min_suffix := m_min_suffix this;
                             m_char_table := m_char_table this;
                             m_dwords_pool := dwords_pool;
                             m_dwords_pool_size := dwords_pool_size;
                             m_dwords_array := dwords_array;
                             m_dwords_array_size := dwords_array_size;
                             m_dwordid_pool := dwordid_pool;
                             m_dwordid_pool_size := dwordid_pool_size;
                             m_suffix_iindex := m_suffix_iindex this;
                             m_suffix_iindex_size := m_suffix_iindex_size this |} in
                        let '(ifs, chunk, block_size, buf) :=
                          read_block junk IIND 8 ifs chunk block_size in
                        match buf with
                        | None =>
                            {| used_size := 0; after := this3; stopped_at := Some IIND |}
                        | Some buf =>
                            let suffix_iindex_size := Z.quot block_size 8 in
                            let suffix_iindex :=
                              map list_of_bytes
                                (chunks 8 (Z.to_nat suffix_iindex_size) buf) in
                            {| used_size := tellg ifs;
                               after :=
                                 {| trie := trie this;
                                    m_suffix_ratio := m_suffix_ratio this;
                                    m_min_suffix := m_min_suffix this;
                                    m_char_table := m_char_table this;
                                    m_dwords_pool := dwords_pool;
                                    m_dwords_pool_size := dwords_pool_size;
                                    m_dwords_array := dwords_array;
                                    m_dwords_array_size := dwords_array_size;
                                    m_dwordid_pool := dwordid_pool;
                                    m_dwordid_pool_size := dwordid_pool_size;
                                    m_suffix_iindex := suffix_iindex;
                                    m_suffix_iindex_size := suffix_iindex_size |};
                               stopped_at := None |}
                        end
                    end
                end
            end
          else {| used_size := 0; after := this; stopped_at := None |}
      end
  end.

(** ** Well-formed engines *)

(** The tail offsets of the terminals below a node. *)
Fixpoint terminal_offsets (t : trie_node) : list Z :=
  match t with
  | Terminal off => [off]
  | Interior children =>
      (fix below (l : list (ascii * trie_node)) : list Z :=
         match l with
         | [] => []
         | (_, t') :: l' => terminal_offsets t' ++ below l'
         end) children
  end.

(** The suffix ids a search can read from the tail: the value after the
    tail string of every terminal. *)
Definition stored_suffixids (t : suffix_trie_type) : list Z :=
  map (fun off => tail_read_value t (off + (tail_strlen t off + 1)))
      (terminal_offsets (m_da t)).

Definition size_at (e : ComSubstrSearch) (i : Z) : option Z :=
  match dword_at e i with
  | Ok dw => Some (dword_size dw)
  | _ => None
  end.

Definition ascending_at (e : ComSubstrSearch) (i : Z) : bool :=
  match size_at e i, size_at e (i + 1) with
  | Some a, Some b => a <=? b
  | _, _ => false
  end.

(** An inverted list lies inside the pool, names words of the array, is
    shorter than 2^31 and ascends by key length. *)
Definition list_ok (e : ComSubstrSearch) (l : dword_list_type) : bool :=
  (0 <=? list_offset l) && (0 <=? list_size l) && (list_size l <? 2 ^ 31)
  && forallb (fun k => match size_at e (list_offset l + Z.of_nat k) with
                       | Some _ => true
                       | None => false
                       end) (seq 0 (Z.to_nat (list_size l)))
  && forallb (fun k => ascending_at e (list_offset l + Z.of_nat k))
             (seq 0 (Z.to_nat (list_size l - 1))).

Definition suffixid_ok (e : ComSubstrSearch) (suffixid : Z) : bool :=
  if suffixid <? m_suffix_iindex_size e then
    match read_at (m_suffix_iindex e) suffixid with
    | Ok l => list_ok e l
    | _ => false
    end
  else true.

(** The engine a search may run on: every inverted list the trie refers
    to is in order, the char table holds the NUL byte, and the tail is
    shorter than 2^32. *)
Definition wf_engine (e : ComSubstrSearch) : bool :=
  forallb (suffixid_ok e) (stored_suffixids (trie e))
  && existsb (fun c => Ascii.eqb c NUL) (m_char_table e)
  && (len (m_tail (trie e)) <? 2 ^ 32).

(** The fields of a query are [uint32_t], and the offsets of the word are
    counted in one. *)
Definition valid_query (q : Query) : bool :=
  (0 <=? min_common_len q) && (min_common_len q <? 2 ^ 32)
  && (0 <=? min_dword_len q) && (min_dword_len q <? 2 ^ 32)
  && (0 <=? max_dword_len q) && (max_dword_len q <? 2 ^ 32)
  && (0 <=? limit q) && (limit q <? 2 ^ 32)
  && (len (word q) <? 2 ^ 32 - 1).

(** ** Two sorts that [std::sort] may be *)

(** Insertion after the elements that are not greater: equivalent
    elements keep their order. *)
Fixpoint insert_after {A : Type} (lt : A -> A -> bool) (x : A) (l : list A) : list A :=
  match l with
  | [] => [x]
  | y :: l' => if lt x y then x :: l else y :: insert_after lt x l'
  end.

Definition insertion_sort (A : Type) (lt : A -> A -> bool) (l : list A) : list A :=
  fold_left (fun acc x => insert_after lt x acc) l [].

(** Insertion before the elements that are not smaller: equivalent
    elements end up in reverse order. *)
Fixpoint insert_before {A : Type} (lt : A -> A -> bool) (x : A) (l : list A) : list A :=
  match l with
  | [] => [x]
  | y :: l' => if lt y x then y :: insert_before lt x l' else x :: l
  end.

Definition reversing_sort (A : Type) (lt : A -> A -> bool) (l : list A) : list A :=
  fold_left (fun acc x => insert_before lt x acc) l [].

(** ** Concrete inputs *)

Definition zero_junk : uninitialised :=
  {| junk_char := fun _ => NUL;
     junk_id := fun _ => 0;
     junk_list := fun _ => {| list_offset := 0; list_size := 0 |} |}.

Definition dict_line (k v : string) : list ascii :=
  list_ascii_of_string k ++ [TAB] ++ list_ascii_of_string v ++ [LF].

Definition youth_dict : list ascii :=
  dict_line "youthful" "1" ++ dict_line "youthfully" "2" ++ dict_line "youthfulness" "3".

Definition build_in_memory (std_sort : forall A : Type, (A -> A -> bool) -> list A -> list A)
    (suffix_ratio : Q) (min_suffix : Z) (dict : list ascii) : outcome built :=
  build std_sort zero_junk (fun _ => 1) (ComSubstrSearch_new suffix_ratio min_suffix)
    dict "".

Definition youth : outcome built := build_in_memory insertion_sort (1 # 2) 2 youth_dict.

Definition engine_of (b : outcome built) : ComSubstrSearch :=
  match b with
  | Ok b => engine b
  | _ => ComSubstrSearch_new (1 # 2) 2
  end.

Definition youth_query : Query :=
  {| word := list_ascii_of_string "youthe";
     min_common_len := 4;
     min_dword_len := 0;
     max_dword_len := 20;
     limit := 10;
     depth_first_search := false;
     com_prefix_only := false;
     average_limit := false |}.

(** The key a result points at. *)
Definition dword_of (e : ComSubstrSearch) (r : Result) : string :=
  string_of_list_ascii (c_str (m_dwords_pool e) (dword r)).

(** ** Measures for the traversals *)

Fixpoint offsets_below (l : list (ascii * trie_node)) : list Z :=
  match l with
  | [] => []
  | (_, t') :: l' => terminal_offsets t' ++ offsets_below l'
  end.

(** The weight of the children of a node, each counted once for every
    occurrence of its byte in [table]. *)
Fixpoint children_weight (e : ComSubstrSearch) (table : list ascii)
    (l : list (ascii * trie_node)) : nat :=
  match l with
  | [] => 0%nat
  | (c, t') :: l' =>
      (count_occ ascii_dec table c * weight e t' + children_weight e table l')%nat
  end.

(** The weight of the children the bytes of [table] lead to. *)
Definition table_weight (e : ComSubstrSearch) (children : list (ascii * trie_node))
    (table : list ascii) : nat :=
  list_sum (map (fun c => match find_child c children with
                          | Some t => weight e t
                          | None => 0%nat
                          end) table).

Definition queue_fuel (e : ComSubstrSearch) (q : list node_info_type) : nat :=
  list_sum (map (fun n => traversal_fuel e (cur n)) q).

(** The values [f] yields along [l]. *)
Definition pushed {A B : Type} (f : A -> option B) (l : list A) : list B :=
  flat_map (fun c => match f c with
                     | Some x => [x]
                     | None => []
                     end) l.

(** The queries [search] does not turn away at its first test. *)
Definition answered (query : Query) : bool :=
  negb ((len (word query) <? min_common_len query) || (limit query =? 0)).

(** What a result says: the key it points at, the length of the common
    substring, and where it starts in the key. *)
Definition report (e : ComSubstrSearch) (r : Result) : string * Z * Z :=
  (dword_of e r, common_len r, start_pos r).

(** The suffix a record stands for. *)
Definition suffix_of (e : ComSubstrSearch) (r : trie_record_type) : string :=
  string_of_list_ascii (c_str (m_dwords_pool e) (dastrie.key r)).

(** A dictionary in which "abcd" is a suffix and a prefix of another, and
    a char table that holds the NUL byte, but not in first place. *)
Definition abcd_dict : list ascii := dict_line "abcd" "1" ++ dict_line "abcde" "2".

Definition abcd : outcome built := build_in_memory insertion_sort (1 # 2) 2 abcd_dict.

Definition nul_last_table : list ascii := list_ascii_of_string "abcde" ++ [NUL].

Definition abx_query (dfs : bool) : Query :=
  {| word := list_ascii_of_string "abx";
     min_common_len := 2;
     min_dword_len := 0;
     max_dword_len := 4;
     limit := 100;
     depth_first_search := dfs;
     com_prefix_only := false;
     average_limit := false |}.

(** A dictionary whose last suffix in byte order, "zz", belongs to two
    words. *)
Definition zz_dict : list ascii := dict_line "zz" "1" ++ dict_line "azz" "2".

(** The key lengths of the words of an inverted list. *)
Definition key_lens (e : ComSubstrSearch) (l : dword_list_type) : list (option Z) :=
  map (fun k => size_at e (list_offset l + Z.of_nat k)) (seq 0 (Z.to_nat (list_size l))).

Definition zero_limit_query : Query :=
  {| word := list_ascii_of_string "youthe";
     min_common_len := 4;
     min_dword_len := 0;
     max_dword_len := 20;
     limit := 0;
     depth_first_search := false;
     com_prefix_only := false;
     average_limit := false |}.

Definition stale_result : Result :=
  {| dword := 0; value := 9; start_pos := 0; common_len := 5 |}.

(** ** Databases *)

Definition empty_trie : suffix_trie_type := {| m_da := Interior []; m_tail := [NUL] |}.


(** No search adds a result: every call returns 0, empties the vector
    when it answers the query and leaves it alone when it does not. *)
Definition finds_nothing (e : ComSubstrSearch) : Prop :=
  forall query v tpos,
    search e query (Some v) tpos
    = Ok (0, Some (if answered query then [] else v), tpos).

(** A database whose word pool block is followed by a wrong tag. *)
Definition bad_tag_db : db_file :=
  {| db_dat := Some (empty_trie, 1);
     db_blocks := block "DWDP" (list_ascii_of_string "ab" ++ [NUL] ++ list_ascii_of_string "1" ++ [NUL])
                  ++ list_ascii_of_string "XXXX" |}.

Definition no_junk : Z -> ascii := fun _ => NUL.

Definition blocks_stream (f : db_file) (dat_read : Z) : ifstream :=
  {| is_bytes := db_blocks f; is_pos := dat_read; is_fail := false |}.

(** ** What a search adds to the vector *)

(** A result made from a word of the array whose key length is within
    the bounds of the query. *)
Definition sound (e : ComSubstrSearch) (query : Query) (r : Result) : Prop :=
  exists dw match_len suffix_len,
    In dw (m_dwords_array e)
    /\ r = make_result dw match_len suffix_len
    /\ min_dword_len query <= dword_size dw <= max_dword_len query.

(** [st'] is [st] with [n] sound results more, and no more than the limit
    allows. *)
Definition grows (e : ComSubstrSearch) (query : Query) (st : memory) (n : Z)
    (st' : memory) : Prop :=
  exists new,
    results st' = results st ++ new
    /\ n = len new
    /\ len (results st') <= Z.max (len (results st)) (limit query)
    /\ Forall (sound e query) new.

(** The words of the pool between two positions can be read, and their
    key lengths ascend. *)
Definition readable (e : ComSubstrSearch) (first last : Z) : Prop :=
  forall i, first <= i < last -> exists dw, dword_at e i = Ok dw.

Definition ascending (e : ComSubstrSearch) (first last : Z) : Prop :=
  forall i j dwi dwj,
    first <= i -> i <= j -> j < last ->
    dword_at e i = Ok dwi -> dword_at e j = Ok dwj ->
    dword_size dwi <= dword_size dwj.

Definition no_tab_dict : list ascii :=
  list_ascii_of_string "a line without a tab" ++ [LF]
  ++ list_ascii_of_string "another one".

Definition four_nul : list ascii := [NUL; NUL; NUL; NUL].

(** ** What [std::sort] promises *)

(** The comparator is a strict weak ordering. *)
Record strict_weak_order {A : Type} (lt : A -> A -> bool) : Prop := {
  swo_irrefl : forall a, lt a a = false;
  swo_trans : forall a b c, lt a b = true -> lt b c = true -> lt a c = true;
  swo_equiv : forall a b c,
      lt a b = false -> lt b a = false -> lt b c = false -> lt c b = false ->
      lt a c = false /\ lt c a = false
}.

(** No element of the range is smaller than one before it. *)
Definition sorted_by {A : Type} (lt : A -> A -> bool) (l : list A) : Prop :=
  StronglySorted (fun a b => lt b a = false) l.

(** For a strict weak ordering [std::sort] returns the elements it was
    given, in order; how it orders equivalent elements is left open. *)
Definition conforming_sort
    (std_sort : forall A : Type, (A -> A -> bool) -> list A -> list A) : Prop :=
  forall (A : Type) (lt : A -> A -> bool) (l : list A),
    strict_weak_order lt ->
    Permutation (std_sort A lt l) l /\ sorted_by lt (std_sort A lt l).

(** No two elements of the list are equivalent. *)
Fixpoint distinctb {A : Type} (lt : A -> A -> bool) (l : list A) : bool :=
  match l with
  | [] => true
  | x :: l' => forallb (fun y => lt x y || lt y x) l' && distinctb lt l'
  end.

(** The dictionary has no two words of the same length and no suffix
    twice: the sorts of [build] have only one way to go. *)
Definition distinct_keys (this : ComSubstrSearch) (junk : uninitialised)
    (dict : list ascii) : bool :=
  let '(pool, _, dwords_array) :=
    read_lines (getlines [] dict) (fresh_array (junk_char junk) (len dict)) 0 [] in
  distinctb dword_lt dwords_array
  && distinctb (suffix_cmp pool)
       (all_suffixes this 0 (insertion_sort dword_type dword_lt dwords_array)).

(** ** The tail the builder lays out *)

(** At offset [off] the tail holds the bytes [k], a NUL and the value
    [v]. *)
Definition tail_holds (tail : list ascii) (off : Z) (k : list ascii) (v : Z) : Prop :=
  exists pre post, tail = pre ++ k ++ [NUL] ++ le32 v ++ post /\ len pre = off.

(** A record whose key has no NUL byte and whose value is one of [vals]. *)
Definition plain_record (vals : list Z) (r : list ascii * Z) : Prop :=
  ~ In NUL (fst r) /\ In (snd r) vals.

(** Every terminal below [children] points at a key rest and one of the
    values [vals]. *)
Definition terminals_hold (vals : list Z) (offsets : list Z) (tail : list ascii) : Prop :=
  forall off, In off offsets ->
    exists k v, ~ In NUL k /\ In v vals /\ tail_holds tail off k v.

(** ** The scan that removes duplicate suffixes *)

(** The ids of a stretch of the pool ascend. *)
Definition ascending_ids (pool : list Z) (first size : Z) : Prop :=
  forall p a b,
    first <= p -> p + 1 < first + size ->
    read_at pool p = Ok a -> read_at pool (p + 1) = Ok b -> a <= b.

(** What holds before the turn for index [j]: [n] suffix records, [W]
    words, [isa0] the sorted suffix array before the scan. *)
Record scan_inv (W : Z) (isa0 : list trie_record_type) (n j : Z) (d : dedup) : Prop := {
  si_i : 0 <= b_i d < j;
  si_j : j <= n;
  si_wao : b_wordid_array_offset d = j;
  si_len_iindex : len (b_suffix_iindex d) = n;
  si_len_pool : len (b_dwordid_pool d) = n;
  si_len_isa : len (b_input_suffix_array d) = n;
  si_values : forall k r,
      0 <= k <= b_i d -> read_at (b_input_suffix_array d) k = Ok r ->
      dastrie.value r = k;
  si_rest : forall k,
      j <= k < n -> read_at (b_input_suffix_array d) k = read_at isa0 k;
  si_valid : forall p id,
      0 <= p < j -> read_at (b_dwordid_pool d) p = Ok id -> 0 <= id < W;
  si_cur : exists li,
      read_at (b_suffix_iindex d) (b_i d) = Ok li
      /\ 0 <= list_offset li /\ 1 <= list_size li
      /\ list_offset li + list_size li = j
      /\ forall s l,
          0 <= s < b_i d -> read_at (b_suffix_iindex d) s = Ok l ->
          0 <= list_offset l /\ 1 <= list_size l
          /\ list_offset l + list_size l <= list_offset li
          /\ ascending_ids (b_dwordid_pool d) (list_offset l) (list_size l)
}.

(** The suffix records [build] sorts and scans. *)
Definition suffix_records
    (std_sort : forall A : Type, (A -> A -> bool) -> list A -> list A)
    (junk : uninitialised) (this : ComSubstrSearch) (dict : list ascii)
    : list trie_record_type :=
  let '(pool, _, dwords_array) :=
    read_lines (getlines [] dict) (fresh_array (junk_char junk) (len dict)) 0 [] in
  std_sort trie_record_type (suffix_cmp pool)
    (all_suffixes this 0 (std_sort dword_type dword_lt dwords_array)).

(** ** Inverted lists as lists of words *)

(** The words the [n] pool entries from position [i] name, in pool
    order. *)
Fixpoint words_from (e : ComSubstrSearch) (i : Z) (n : nat) : list dword_type :=
  match n with
  | O => []
  | S n' =>
      match dword_at e i with
      | Ok dw => dw :: words_from e (i + 1) n'
      | _ => words_from e (i + 1) n'
      end
  end.

Definition list_words (e : ComSubstrSearch) (l : dword_list_type) : list dword_type :=
  words_from e (list_offset l) (Z.to_nat (list_size l)).

(** The key length of a word is within the bounds of the query. *)
Definition within (query : Query) (dw : dword_type) : bool :=
  (min_dword_len query <=? dword_size dw) && (dword_size dw <=? max_dword_len query).

(** A dictionary whose four words end in "ab". *)
Definition ab_dict : list ascii :=
  dict_line "ab" "1" ++ dict_line "cab" "2" ++ dict_line "dcab" "3"
  ++ dict_line "edcab" "4".

Definition ab : outcome built := build_in_memory insertion_sort (1 # 2) 2 ab_dict.

(** The inverted list of the suffix "ab". *)
Definition ab_list : dword_list_type := {| list_offset := 0; list_size := 4 |}.

Definition ab_query : Query :=
  {| word := list_ascii_of_string "ab";
     min_common_len := 2;
     min_dword_len := 3;
     max_dword_len := 4;
     limit := 10;
     depth_first_search := false;
     com_prefix_only := false;
     average_limit := false |}.

Definition no_results (tpos : Z) : memory := {| results := []; tail_pos := tpos |}.

(** ** What a search reads *)

(** Two engines hold the same index: the trie, the char table, the
    words, the id pool, and the inverted lists below
    [m_suffix_iindex_size]. *)
Definition same_index (e e' : ComSubstrSearch) : Prop :=
  trie e = trie e'
  /\ m_char_table e = m_char_table e'
  /\ m_dwords_array e = m_dwords_array e'
  /\ m_dwordid_pool e = m_dwordid_pool e'
  /\ m_suffix_iindex_size e = m_suffix_iindex_size e'
  /\ forall s, s < m_suffix_iindex_size e ->
       read_at (m_suffix_iindex e) s = read_at (m_suffix_iindex e') s.

(** Two queries that [compre_search] cannot tell apart. *)
Definition same_question (q q' : Query) : Prop :=
  word q = word q'
  /\ min_common_len q = min_common_len q'
  /\ min_dword_len q = min_dword_len q'
  /\ max_dword_len q = max_dword_len q'
  /\ limit q = limit q'
  /\ depth_first_search q = depth_first_search q'.

Definition with_prefix_only (query : Query) (b : bool) : Query :=
  {| word := word query;
     min_common_len := min_common_len query;
     min_dword_len := min_dword_len query;
     max_dword_len := max_dword_len query;
     limit := limit query;
     depth_first_search := depth_first_search query;
     com_prefix_only := b;
     average_limit := average_limit query |}.

(** The char table the [main] of the example hands to [set_char_table]:
    the bytes 'a' to 'z'. *)
Definition driver_char_table : list ascii := map ascii_of_nat (seq 97 26).

(** ** Where the results of a search come from *)

Definition not_nul (c : ascii) : bool := negb (Ascii.eqb c NUL).



(** [dw] is a word of the inverted list of [suffixid]. *)
Definition listed (e : ComSubstrSearch) (suffixid : Z) (dw : dword_type) : Prop :=
  suffixid < m_suffix_iindex_size e
  /\ exists l p,
       read_at (m_suffix_iindex e) suffixid = Ok l
       /\ list_offset l <= p < list_offset l + list_size l
       /\ dword_at e p = Ok dw.

(** [st'] is [st] with more results, which all satisfy [P]. *)
Definition adds (P : Result -> Prop) (st st' : memory) : Prop :=
  exists new, results st' = results st ++ new /\ Forall P new.

(** A node of a traversal that started at the path [p0] with
    [match_len]: its index is a path below [p0], and its [suffix_len]
    counts the bytes of that path that are not NUL. *)
Definition below (p0 : list ascii) (match_len : Z) (node : node_info_type) : Prop :=
  exists rest,
    cur node = Some (p0 ++ rest)
    /\ wrap32 (suffix_len node) = wrap32 (match_len + len (filter not_nul rest)).







(** A result made from a word of some inverted list of the index. *)
Definition from_index (e : ComSubstrSearch) (r : Result) : Prop :=
  exists suffixid dw match_len suffix_len,
    listed e suffixid dw /\ r = make_result dw match_len suffix_len.


(** ** The dictionary and the word pool *)

(** The record of a line that holds a tab: the key before the first tab
    and the value after it. *)
Definition record_of (line : list ascii) : list (list ascii * list ascii) :=
  match find_tab line with
  | Some key_len =>
      [(firstn (Z.to_nat key_len) line, skipn (Z.to_nat (key_len + 1)) line)]
  | None => []
  end.

Definition parsed (lines : list (list ascii)) : list (list ascii * list ascii) :=
  flat_map record_of lines.

Definition records_of (dict : list ascii) : list (list ascii * list ascii) :=
  parsed (getlines [] dict).

(** The bytes the lines take in the file, a line feed after each. *)
Fixpoint span (lines : list (list ascii)) : Z :=
  match lines with
  | [] => 0
  | line :: lines' => len line + 1 + span lines'
  end.

(** The pool holds the bytes [k] from position [off] on, and a NUL after
    them. *)
Definition key_at (pool : list ascii) (off : nat) (k : list ascii) : Prop :=
  (forall t, (t < List.length k)%nat -> nth_error pool (off + t) = nth_error k t)
  /\ nth_error pool (off + List.length k) = Some NUL.

(** The word [dw] stands for the key [k]: its size is the length of [k],
    and the pool holds [k] and a NUL at its offset. *)
Definition holds_key (pool : list ascii) (dw : dword_type) (k : list ascii) : Prop :=
  dword_size dw = len k
  /\ 0 <= dword_offset dw
  /\ firstn (Z.to_nat (len k + 1)) (skipn (Z.to_nat (dword_offset dw)) pool)
     = k ++ [NUL].

(** The configuration [build] is meant for: a suffix ratio between 0 and
    1 and a minimum suffix length that fits an [int]. *)
Definition plain_config (this : ComSubstrSearch) : bool :=
  (0 <=? Qnum (m_suffix_ratio this))
  && (Qnum (m_suffix_ratio this) <=? Zpos (Qden (m_suffix_ratio this)))
  && (0 <=? m_min_suffix this) && (m_min_suffix this <? 2 ^ 31).

(** A ratio whose product with a 32-bit size is exact in a [double]: a
    number of at most 21 bits over a power of two.  The ratio of the
    class is a [double]; for these the product [size * m_suffix_ratio]
    of [build] is the fraction that [min_suffix_of] truncates, where for
    others the [double] product is rounded first. *)
Definition exact_ratio (this : ComSubstrSearch) : bool :=
  (Z.abs (Qnum (m_suffix_ratio this)) <=? 2 ^ 21)
  && (Zpos (Qden (m_suffix_ratio this)) =? 2 ^ Z.log2 (Zpos (Qden (m_suffix_ratio this))))
  && (Z.log2 (Zpos (Qden (m_suffix_ratio this))) <=? 64).

(** Every store [m_dwords_pool[offset + len + 1] = '\0'] of the [getline]
    loop lies inside the pool of [size] bytes.  The store after the last
    record of a file that ends with that record, or with its line feed,
    lies past the pool. *)
Fixpoint stores_in_pool (lines : list (list ascii)) (offset size : Z) : bool :=
  match lines with
  | [] => true
  | line :: lines' =>
      match find_tab line with
      | Some _ =>
          (offset + len line + 1 <? size)
          && stores_in_pool lines' (offset + len line + 1) size
      | None => stores_in_pool lines' offset size
      end
  end.

(** The engines and dictionary files on which [build] stays inside what
    C++ defines: the ratio is between 0 and 1 and exact, the minimum
    suffix length fits an [int], the file is below [2 ^ 31] bytes, and
    every store of the [getline] loop lies inside the pool. *)
Definition defined_build (this : ComSubstrSearch) (dict : list ascii) : bool :=
  plain_config this && exact_ratio this && (len dict <? 2 ^ 31)
  && stores_in_pool (getlines [] dict) 0 (len dict).

(** ** The trie the builder lays out *)




(** ** What the scan puts into the inverted lists *)

(** What holds of the lists [0 .. b_i d] during the scan, [isa0] being
    the sorted suffix array before it: the lists follow one another from
    offset 0; the records of [isa0] at the positions of a list have the
    suffix of the list; and every id of a list is the word of one of
    them. *)
Record scan_content (pool : list ascii) (isa0 : list trie_record_type) (d : dedup)
    : Prop := {
  sc_first : exists l0, read_at (b_suffix_iindex d) 0 = Ok l0 /\ list_offset l0 = 0;
  sc_next : forall s l l',
      0 <= s < b_i d ->
      read_at (b_suffix_iindex d) s = Ok l ->
      read_at (b_suffix_iindex d) (s + 1) = Ok l' ->
      list_offset l' = list_offset l + list_size l;
  sc_key : forall s r l q rq,
      0 <= s <= b_i d ->
      read_at (b_input_suffix_array d) s = Ok r ->
      read_at (b_suffix_iindex d) s = Ok l ->
      list_offset l <= q < list_offset l + list_size l ->
      read_at isa0 q = Ok rq ->
      c_str pool (dastrie.key rq) = c_str pool (dastrie.key r);
  sc_ids : forall s l p id,
      0 <= s <= b_i d ->
      read_at (b_suffix_iindex d) s = Ok l ->
      list_offset l <= p < list_offset l + list_size l ->
      read_at (b_dwordid_pool d) p = Ok id ->
      exists q rq,
        list_offset l <= q < list_offset l + list_size l
        /\ read_at isa0 q = Ok rq
        /\ dastrie.value rq = id
}.

(** ** The steps of [build] *)

(** The variables of the scan before its first turn. *)
Definition scan_start (junk : uninitialised) (isa0 : list trie_record_type) : dedup :=
  {| b_i := 0; b_wordid_array_offset := 0;
     b_suffix_iindex := fresh_array (junk_list junk) (len isa0);
     b_dwordid_pool := fresh_array (junk_id junk) (len isa0);
     b_input_suffix_array := isa0 |}.

(** The words [build] sorts, and the suffix records it scans. *)
Definition sorted_words
    (std_sort : forall A : Type, (A -> A -> bool) -> list A -> list A)
    (dwords0 : list dword_type) : list dword_type :=
  std_sort dword_type dword_lt dwords0.

Definition sorted_suffixes
    (std_sort : forall A : Type, (A -> A -> bool) -> list A -> list A)
    (this : ComSubstrSearch) (pool : list ascii) (dwords0 : list dword_type)
    : list trie_record_type :=
  std_sort trie_record_type (suffix_cmp pool)
    (all_suffixes this 0 (sorted_words std_sort dwords0)).

(** What [build] returned, in terms of what its steps made: the pool and
    the words of the [getline] loop, and the variables [d] of the scan
    when it ended. *)
Record anatomy
    (std_sort : forall A : Type, (A -> A -> bool) -> list A -> list A)
    (junk : uninitialised) (dat_size : suffix_trie_type -> Z)
    (this : ComSubstrSearch) (dict : list ascii) (db_fname : string)
    (b : built) (pool : list ascii) (offset : Z) (dwords0 : list dword_type)
    (d : dedup) : Prop := {
  an_lines :
    read_lines (getlines [] dict) (fresh_array (junk_char junk) (len dict)) 0 []
    = (pool, offset, dwords0);
  an_scan :
    dedup_loop std_sort pool
      (Z.to_nat (len (sorted_suffixes std_sort this pool dwords0) - 1)) 1
      (scan_start junk (sorted_suffixes std_sort this pool dwords0)) = Ok d;
  an_records : trie_records b = firstn (Z.to_nat (b_i d)) (b_input_suffix_array d);
  an_trie :
    trie (engine b)
    = if String.eqb db_fname EmptyString then dat_build pool (trie_records b)
      else trie this;
  an_table : m_char_table (engine b) = m_char_table this;
  an_pool : m_dwords_pool (engine b) = pool;
  an_words : m_dwords_array (engine b) = sorted_words std_sort dwords0;
  an_words_size :
    m_dwords_array_size (engine b) = wrap32 (len (sorted_words std_sort dwords0));
  an_ids : m_dwordid_pool (engine b) = b_dwordid_pool d;
  an_ids_size :
    m_dwordid_pool_size (engine b)
    = wrap32 (len (sorted_suffixes std_sort this pool dwords0));
  an_lists : m_suffix_iindex (engine b) = b_suffix_iindex d;
  an_lists_size : m_suffix_iindex_size (engine b) = wrap32 (b_i d + 1);
  an_written :
    written b
    = if String.eqb db_fname EmptyString then None
      else Some
             {| db_dat := Some (dat_build pool (trie_records b),
                                dat_size (dat_build pool (trie_records b)));
                db_blocks :=
                  block "DWDP" (firstn (Z.to_nat (wrap32 offset)) pool)
                  ++ block "DWAR" (flat_map bytes_of_dword (sorted_words std_sort dwords0))
                  ++ block "IDAR" (flat_map le32 (b_dwordid_pool d))
                  ++ block "IIND"
                       (flat_map bytes_of_list
                          (firstn (Z.to_nat (wrap32 (b_i d + 1)))
                             (b_suffix_iindex d))) |}
}.

(** ** Engines without an index *)

(** A search on [e] returns without a result. *)
Definition no_result (e : ComSubstrSearch) (query : Query) (v : list Result) (tpos : Z)
    : Prop :=
  exists tpos',
    search e query (Some v) tpos
    = Ok (0, Some (if answered query then [] else v), tpos').

(** ** Databases on disk *)

(** The bytes of a block: its tag, the size of its payload, the
    payload. *)
Definition block_bytes (t : block_tag) (payload : list ascii) : list ascii :=
  tag_bytes t ++ le32 (len payload) ++ payload.

(** A database whose last block announces [n] bytes and holds the fewer
    bytes [p4]. *)
Definition cut_short (tr : suffix_trie_type) (dat_read : Z)
    (p1 p2 p3 : list ascii) (n : Z) (p4 : list ascii) : db_file :=
  {| db_dat := Some (tr, dat_read);
     db_blocks := block_bytes DWDP p1 ++ block_bytes DWAR p2 ++ block_bytes IDAR p3
                  ++ tag_bytes IIND ++ le32 n ++ p4 |}.

(** The words that uninitialised memory holds are 32-bit words. *)
Definition words32 (junk : uninitialised) : Prop :=
  forall k,
    0 <= junk_id junk k < 2 ^ 32
    /\ 0 <= list_offset (junk_list junk k) < 2 ^ 32
    /\ 0 <= list_size (junk_list junk k) < 2 ^ 32.

(** The fields of a word or of a list are 32-bit words. *)
Definition dword32 (d : dword_type) : Prop :=
  0 <= dword_offset d < 2 ^ 32 /\ 0 <= dword_size d < 2 ^ 32.

Definition list32 (l : dword_list_type) : Prop :=
  0 <= list_offset l < 2 ^ 32 /\ 0 <= list_size l < 2 ^ 32.

(** The database [build]'s writer makes of a trie and four arrays. *)
Definition database (tr : suffix_trie_type) (dat_read : Z) (pool : list ascii)
    (words : list dword_type) (ids : list Z) (lists : list dword_list_type) : db_file :=
  {| db_dat := Some (tr, dat_read);
     db_blocks := block "DWDP" pool
                  ++ block "DWAR" (flat_map bytes_of_dword words)
                  ++ block "IDAR" (flat_map le32 ids)
                  ++ block "IIND" (flat_map bytes_of_list lists) |}.

(** The engine [this] after it loaded a trie and four arrays. *)
Definition loaded_with (this : ComSubstrSearch) (tr : suffix_trie_type)
    (pool : list ascii) (words : list dword_type) (ids : list Z)
    (lists : list dword_list_type) : ComSubstrSearch :=
  {| trie := tr;
     m_suffix_ratio := m_suffix_ratio this;
     m_min_suffix := m_min_suffix this;
     m_char_table := m_char_table this;
     m_dwords_pool := pool;
     m_dwords_pool_size := len pool;
     m_dwords_array := words;
     m_dwords_array_size := len words;
     m_dwordid_pool := ids;
     m_dwordid_pool_size := len ids;
     m_suffix_iindex := lists;
     m_suffix_iindex_size := len lists |}.

(** The bytes of a database: those of the trie and those of the blocks. *)
Definition file_size (db : db_file) : Z :=
  match db_dat db with
  | Some (_, n) => n + len (db_blocks db)
  | None => len (db_blocks db)
  end.

(** The pool holds the value [v] of the word [dw] after the NUL of its
    key, and after the value the byte that [old] holds there. *)
Definition holds_value (old pool : list ascii) (dw : dword_type) (v : list ascii) : Prop :=
  let start := Z.to_nat (dword_offset dw + dword_size dw + 1) in
  (forall t, (t < List.length v)%nat -> nth_error pool (start + t) = nth_error v t)
  /\ nth_error pool (start + List.length v) = nth_error old (start + List.length v).

(** Every line without a tab is blank: the lines [build] drops store
    nothing in the pool. *)
Definition blank_or_record (lines : list (list ascii)) : Prop :=
  Forall (fun line => find_tab line = None -> line = []) lines.

(** ** Dictionary files that [build] stays in bounds on *)

(** The three "youthful" records and a blank line, which keeps the store
    after the last record inside the pool. *)
Definition youth_file : list ascii := youth_dict ++ [LF].

(** The engine [build] makes in memory from [youth_file]. *)
Definition youth_engine : ComSubstrSearch :=
  engine_of (build_in_memory insertion_sort (1 # 2) 2 youth_file).

(** The six reports the query "youthe" can give on the three words: the
    match "youth" at 0 and the match "outh" at 1 of each. *)
Definition youth_reports : list (string * Z * Z) :=
  [("youthful"%string, 5, 0); ("youthfully"%string, 5, 0);
   ("youthfulness"%string, 5, 0);
   ("youthful"%string, 4, 1); ("youthfully"%string, 4, 1);
   ("youthfulness"%string, 4, 1)].

(** A query whose word is shorter than [min_common_len], and a vector
    of five results from an earlier call. *)
Definition short_query : Query :=
  {| word := list_ascii_of_string "ab";
     min_common_len := 4;
     min_dword_len := 0;
     max_dword_len := 20;
     limit := 1;
     com_prefix_only := false;
     average_limit := false;
     depth_first_search := false |}.

Definition five_stale : list Result := repeat stale_result 5.

(** * Properties *)

(** ** Arrays and outcomes *)

Lemma len_nonneg {A : Type} (l : list A) : 0 <= len l.
Proof. unfold len. lia. Qed.

Lemma len_app {A : Type} (l1 l2 : list A) : len (l1 ++ l2) = len l1 + len l2.
Proof. unfold len. rewrite length_app. lia. Qed.

Lemma len_nil {A : Type} : len (@nil A) = 0.
Proof. reflexivity. Qed.

Lemma len_cons {A : Type} (x : A) (l : list A) : len (x :: l) = 1 + len l.
Proof. unfold len. simpl List.length. lia. Qed.

Lemma read_at_Ok {A : Type} (a : list A) (i : Z) (x : A) :
  read_at a i = Ok x -> 0 <= i < len a /\ In x a.
Proof.
  unfold read_at, len. destruct (i <? 0) eqn:Hi; [discriminate|].
  destruct (nth_error a (Z.to_nat i)) eqn:Hn; [|discriminate].
  intros H. injection H as ->.
  assert (Z.to_nat i < List.length a)%nat
    by (apply nth_error_Some; congruence).
  split; [lia | eapply nth_error_In; eauto].
Qed.

Lemma read_at_in_range {A : Type} (a : list A) (i : Z) :
  0 <= i < len a -> exists x, read_at a i = Ok x.
Proof.
  unfold read_at, len. intros H.
  destruct (i <? 0) eqn:Hi; [lia|].
  destruct (nth_error a (Z.to_nat i)) eqn:Hn; [eauto|].
  apply nth_error_None in Hn. lia.
Qed.

Lemma wrap32_small (x : Z) : 0 <= x < 2 ^ 32 -> wrap32 x = x.
Proof. intros H. unfold wrap32. apply Z.mod_small. exact H. Qed.

Lemma wrap32_range (x : Z) : 0 <= wrap32 x < 2 ^ 32.
Proof. unfold wrap32. apply Z.mod_pos_bound. lia. Qed.

Lemma wrap32_le (x : Z) : 0 <= x -> wrap32 x <= x.
Proof. intros H. unfold wrap32. apply Z.mod_le; lia. Qed.

Lemma to_int32_small (x : Z) : 0 <= x < 2 ^ 31 -> to_int32 x = x.
Proof.
  intros H. unfold to_int32. cbv zeta. rewrite wrap32_small by lia.
  destruct (x <? 2 ^ 31) eqn:E; lia.
Qed.

Lemma byte_val_nonneg (c : ascii) : 0 <= byte_val c.
Proof. unfold byte_val. lia. Qed.

Lemma tail_read_value_nonneg (t : suffix_trie_type) (pos : Z) : 0 <= tail_read_value t pos.
Proof.
  unfold tail_read_value, tail_byte.
  repeat match goal with
         | |- context [byte_val ?c] =>
             let H := fresh in pose proof (byte_val_nonneg c) as H;
             generalize dependent (byte_val c); intros
         end.
  lia.
Qed.

Lemma c_str_from_length (mem : list ascii) :
  (List.length (c_str_from mem) <= List.length mem)%nat.
Proof.
  induction mem as [|c mem IH]; simpl; [lia|].
  destruct (Ascii.eqb c NUL); simpl; lia.
Qed.

Lemma tail_strlen_bound (t : suffix_trie_type) (pos : Z) :
  0 <= tail_strlen t pos <= len (m_tail t).
Proof.
  unfold tail_strlen, c_str, len.
  pose proof (c_str_from_length (skipn (Z.to_nat pos) (m_tail t))) as H.
  rewrite length_skipn in H. lia.
Qed.

(** ** The results a search adds *)

Section SearchFacts.

Variable e : ComSubstrSearch.

Lemma grows_refl query st : grows e query st 0 st.
Proof.
  exists []. rewrite app_nil_r. repeat split; auto. lia.
Qed.

Lemma grows_trans query st n1 st1 n2 st2 :
  grows e query st n1 st1 -> grows e query st1 n2 st2 -> grows e query st (n1 + n2) st2.
Proof.
  intros (new1 & E1 & -> & B1 & F1) (new2 & E2 & -> & B2 & F2).
  exists (new1 ++ new2). rewrite E2, E1, <- app_assoc, len_app.
  repeat split; auto.
  - rewrite app_assoc, <- E1, <- E2. lia.
  - apply Forall_app. auto.
Qed.

Lemma grows_from query st p n st' :
  grows e query (seekg p st) n st' -> grows e query st n st'.
Proof. exact (fun H => H). Qed.

Lemma grows_to query st p n st' :
  grows e query st n st' -> grows e query st n (seekg p st').
Proof. exact (fun H => H). Qed.

(** *** Inverted lists *)

Lemma dword_at_In i dw : dword_at e i = Ok dw -> In dw (m_dwords_array e).
Proof.
  unfold dword_at, bind.
  destruct (read_at (m_dwordid_pool e) i) as [id| |]; try discriminate.
  intros H. apply read_at_Ok in H. tauto.
Qed.

Lemma list_ok_bounds l :
  list_ok e l = true -> 0 <= list_offset l /\ 0 <= list_size l < 2 ^ 31.
Proof.
  unfold list_ok. rewrite !andb_true_iff. lia.
Qed.

Lemma list_ok_readable l :
  list_ok e l = true -> readable e (list_offset l) (list_offset l + list_size l).
Proof.
  unfold list_ok. rewrite !andb_true_iff. intros [[[[H0 H1] H2] H3] _] i Hi.
  rewrite forallb_forall in H3.
  specialize (H3 (Z.to_nat (i - list_offset l))).
  rewrite Z2Nat.id in H3 by lia.
  replace (list_offset l + (i - list_offset l)) with i in H3 by lia.
  unfold size_at in H3.
  destruct (dword_at e i) as [dw| |]; [eauto| |];
    (assert (false = true); [|discriminate]); apply H3, in_seq; lia.
Qed.

Lemma list_ok_step l i dwi dwj :
  list_ok e l = true ->
  list_offset l <= i -> i + 1 < list_offset l + list_size l ->
  dword_at e i = Ok dwi -> dword_at e (i + 1) = Ok dwj ->
  dword_size dwi <= dword_size dwj.
Proof.
  unfold list_ok. rewrite !andb_true_iff. intros [_ H4] Hlo Hhi Hi Hj.
  rewrite forallb_forall in H4.
  specialize (H4 (Z.to_nat (i - list_offset l))).
  rewrite Z2Nat.id in H4 by lia.
  replace (list_offset l + (i - list_offset l)) with i in H4 by lia.
  unfold ascending_at, size_at in H4. rewrite Hi, Hj in H4.
  apply Z.leb_le, H4, in_seq. lia.
Qed.

Lemma list_ok_ascending l :
  list_ok e l = true -> ascending e (list_offset l) (list_offset l + list_size l).
Proof.
  intros Hok i j dwi dwj Hlo Hij Hhi Hi Hj.
  remember (Z.to_nat (j - i)) as d eqn:Hd.
  revert j dwj Hij Hhi Hj Hd.
  induction d as [|d IH]; intros j dwj Hij Hhi Hj Hd.
  - assert (j = i) by lia. subst j. rewrite Hi in Hj. injection Hj as ->. lia.
  - destruct (list_ok_readable l Hok (j - 1)) as [dwk Hk]; [lia|].
    specialize (IH (j - 1) dwk ltac:(lia) ltac:(lia) Hk ltac:(lia)).
    pose proof (list_ok_step l (j - 1) dwk dwj Hok ltac:(lia) ltac:(lia) Hk) as Hs.
    replace (j - 1 + 1) with j in Hs by lia.
    specialize (Hs Hj). lia.
Qed.

(** *** lower_bound *)

(** The loop keeps the answer between [first] and [first + count]: the
    words before [first] are shorter than [dwordlen], those from
    [first + count] on are not. *)
Lemma lower_bound_loop_spec dwordlen lo hi :
  readable e lo hi -> ascending e lo hi ->
  forall fuel first count,
    (Z.to_nat count <= fuel)%nat ->
    lo <= first -> first + Z.max 0 count <= hi ->
    (forall i dw, lo <= i < first -> dword_at e i = Ok dw -> dword_size dw < dwordlen) ->
    (forall i dw, first + Z.max 0 count <= i < hi -> dword_at e i = Ok dw ->
                  dwordlen <= dword_size dw) ->
    exists pos,
      lower_bound_loop e fuel first count dwordlen = Ok pos
      /\ first <= pos <= first + Z.max 0 count
      /\ (forall i dw, lo <= i < pos -> dword_at e i = Ok dw -> dword_size dw < dwordlen)
      /\ (forall i dw, pos <= i < hi -> dword_at e i = Ok dw -> dwordlen <= dword_size dw).
Proof.
  intros Hread Hasc fuel.
  induction fuel as [|fuel IH]; intros first count Hfuel Hlo Hhi Hbelow Habove.
  - assert (count <= 0) by lia.
    simpl. destruct (count >? 0) eqn:E; [lia|].
    exists first. repeat split; auto; try lia.
    intros i dw Hi. apply Habove. lia.
  - simpl. destruct (count >? 0) eqn:E.
    + assert (Hc : 0 < count) by lia.
      assert (Hstep : 0 <= Z.quot count 2 < count).
      { split; [apply Z.quot_pos; lia | apply Z.quot_lt; lia]. }
      set (step := Z.quot count 2) in *.
      destruct (Hread (first + step)) as [dw Hdw]; [lia|].
      unfold bind at 1. rewrite Hdw.
      destruct (dword_size dw <? dwordlen) eqn:Hlt.
      * destruct (IH (first + step + 1) (count - (step + 1))) as (pos & Hp & Hr & Hb & Ha);
          try lia.
        -- intros i dwi Hi Hdwi.
           destruct (Z.lt_ge_cases i first) as [Hif|Hif]; [apply (Hbelow i); auto; lia|].
           pose proof (Hasc i (first + step) dwi dw ltac:(lia) ltac:(lia) ltac:(lia) Hdwi Hdw).
           lia.
        -- intros i dwi Hi. apply Habove. lia.
        -- exists pos. repeat split; auto; lia.
      * destruct (IH first step) as (pos & Hp & Hr & Hb & Ha); try lia; auto.
        -- intros i dwi Hi Hdwi.
           pose proof (Hasc (first + step) i dw dwi ltac:(lia) ltac:(lia) ltac:(lia) Hdw Hdwi).
           lia.
        -- exists pos. repeat split; auto; lia.
    + exists first. repeat split; auto; try lia.
      intros i dw Hi. apply Habove. lia.
Qed.

Lemma lower_bound_spec l dwordlen :
  list_ok e l = true ->
  exists pos,
    lower_bound e (list_offset l) (list_offset l + list_size l) dwordlen = Ok pos
    /\ list_offset l <= pos <= list_offset l + list_size l
    /\ (forall i dw, pos <= i < list_offset l + list_size l -> dword_at e i = Ok dw ->
                     dwordlen <= dword_size dw).
Proof.
  intros Hok. pose proof (list_ok_bounds l Hok) as [H0 H1].
  unfold lower_bound.
  replace (list_offset l + list_size l - list_offset l) with (list_size l) by lia.
  rewrite to_int32_small by lia.
  destruct (lower_bound_loop_spec dwordlen (list_offset l) (list_offset l + list_size l)
              (list_ok_readable l Hok) (list_ok_ascending l Hok)
              (Z.to_nat (list_size l)) (list_offset l) (list_size l))
    as (pos & Hp & Hr & _ & Ha); try lia.
  exists pos. repeat split; auto; lia.
Qed.

(** *** retrieve_dword *)

Lemma retrieve_loop_spec query match_len suffix_len :
  forall n i result_num st,
    readable e i (i + Z.of_nat n) ->
    (forall j dw, i <= j < i + Z.of_nat n -> dword_at e j = Ok dw ->
                  min_dword_len query <= dword_size dw) ->
    len (results st) < limit query ->
    exists k st',
      retrieve_loop e query match_len suffix_len n i result_num st = Ok (result_num + k, st')
      /\ tail_pos st' = tail_pos st
      /\ grows e query st k st'.
Proof.
  induction n as [|n IH]; intros i result_num st Hread Hmin Hlim.
  - exists 0, st. simpl. rewrite Z.add_0_r. auto using grows_refl.
  - simpl retrieve_loop.
    destruct (Hread i) as [dw Hdw]; [lia|].
    unfold bind at 1. rewrite Hdw.
    destruct (dword_size dw >? max_dword_len query) eqn:Hmax.
    + exists 0, st. rewrite Z.add_0_r. auto using grows_refl.
    + set (r := make_result dw match_len suffix_len).
      assert (Hone : grows e query st 1 (push_back r st)).
      { exists [r]. simpl results. rewrite len_app.
        repeat split; auto.
        - change (len [r]) with 1. lia.
        - constructor; [|constructor].
          exists dw, match_len, suffix_len. repeat split; eauto using dword_at_In.
          + apply (Hmin i); auto. lia.
          + lia. }
      change (results st ++ [r]) with (results (push_back r st)).
      destruct (len (results (push_back r st)) >=? limit query) eqn:Hfull.
      * exists 1, (push_back r st). auto.
      * destruct (IH (i + 1) (result_num + 1) (push_back r st)) as (k & st' & Hk & Ht & Hg).
        -- intros j Hj. apply Hread. lia.
        -- intros j dwj Hj. apply Hmin. lia.
        -- lia.
        -- exists (1 + k), st'. rewrite Hk. split; [f_equal; f_equal; lia|].
           split; [rewrite Ht; reflexivity|].
           eapply grows_trans; eauto.
Qed.

Lemma retrieve_dword_spec query match_len suffixid suffix_len st :
  0 <= suffixid -> suffixid_ok e suffixid = true ->
  exists k st',
    retrieve_dword e query match_len suffixid suffix_len st = Ok (k, st')
    /\ tail_pos st' = tail_pos st
    /\ grows e query st k st'.
Proof.
  intros Hnn Hok. unfold retrieve_dword, suffixid_ok in *.
  destruct (suffixid <? m_suffix_iindex_size e) eqn:Hs; simpl andb;
    [|exists 0, st; auto using grows_refl].
  destruct (len (results st) <? limit query) eqn:Hl;
    [|exists 0, st; auto using grows_refl].
  destruct (read_at (m_suffix_iindex e) suffixid) as [l| |]; try discriminate.
  unfold bind at 1.
  destruct (lower_bound_spec l (min_dword_len query) Hok) as (pos & Hp & Hr & Ha).
  unfold bind at 1. rewrite Hp.
  destruct (retrieve_loop_spec query match_len suffix_len
              (Z.to_nat (list_offset l + list_size l - pos)) pos 0 st)
    as (k & st' & Hk & Ht & Hg).
  - rewrite Z2Nat.id by lia. intros j Hj.
    apply (list_ok_readable l Hok). lia.
  - rewrite Z2Nat.id by lia. intros j dw Hj. apply Ha. lia.
  - lia.
  - exists k, st'. auto.
Qed.

End SearchFacts.

(** ** The trie *)

Lemma offsets_below_eq (children : list (ascii * trie_node)) :
  terminal_offsets (Interior children) = offsets_below children.
Proof.
  induction children as [|[c t] l IH]; [reflexivity|].
  simpl in *. rewrite IH. reflexivity.
Qed.

Lemma find_child_offsets c children t :
  find_child c children = Some t ->
  forall off, In off (terminal_offsets t) -> In off (offsets_below children).
Proof.
  induction children as [|[c' t'] l IH]; simpl; [discriminate|].
  intros H off Hin. apply in_or_app.
  destruct (Ascii.eqb c c').
  - injection H as ->. auto.
  - right. eauto.
Qed.

Lemma node_at_terminal path :
  forall t off, node_at t path = Some (Terminal off) -> In off (terminal_offsets t).
Proof.
  induction path as [|c path IH]; intros t off H; simpl in H.
  - injection H as ->. simpl. auto.
  - destruct t as [o|children]; [discriminate|].
    destruct (find_child c children) as [t'|] eqn:Hc; [|discriminate].
    rewrite offsets_below_eq. eapply find_child_offsets; eauto.
Qed.

Lemma node_at_app path c :
  forall t,
    node_at t (path ++ [c]) =
    match node_at t path with
    | Some (Interior children) => find_child c children
    | _ => None
    end.
Proof.
  induction path as [|c' path IH]; intros t; simpl.
  - destruct t as [o|children]; [reflexivity|].
    destruct (find_child c children); reflexivity.
  - destruct t as [o|children]; [reflexivity|].
    destruct (find_child c' children); auto.
Qed.

(** [descend] finds the child [find_child] finds, and nothing below a
    node that is not interior. *)
Lemma node_of_descend (t : suffix_trie_type) (cur : size_type) (c : ascii) :
  node_of t (descend t cur c) =
  match node_of t cur with
  | Some (Interior children) => find_child c children
  | _ => None
  end.
Proof.
  destruct cur as [path|]; [|reflexivity]. simpl.
  destruct (node_at (m_da t) path) as [[o|children]|] eqn:Hn; try reflexivity.
  destruct (find_child c children) eqn:Hc; [|reflexivity].
  simpl. rewrite node_at_app, Hn. exact Hc.
Qed.

Lemma descend_invalid (t : suffix_trie_type) (cur : size_type) (c : ascii) :
  node_of t (descend t cur c) = None -> descend t cur c = INVALID_INDEX.
Proof.
  rewrite node_of_descend.
  destruct cur as [path|]; [|reflexivity]. simpl.
  destruct (node_at (m_da t) path) as [[o|children]|]; try reflexivity.
  intros ->. reflexivity.
Qed.

Lemma index_eqb_refl (a : size_type) : index_eqb a a = true.
Proof.
  destruct a as [p|]; [|reflexivity]. simpl.
  destruct (list_eq_dec ascii_dec p p); congruence.
Qed.

Lemma index_eqb_eq (a b : size_type) : index_eqb a b = true -> a = b.
Proof.
  destruct a as [p|], b as [q|]; simpl; try discriminate; auto.
  destruct (list_eq_dec ascii_dec p q); [congruence|discriminate].
Qed.

(** ** Fuel of the traversals *)

Section TraversalFuel.

Variable e : ComSubstrSearch.

Lemma weight_Interior children :
  weight e (Interior children) = S (children_weight e (m_char_table e) children).
Proof.
  simpl. f_equal.
  induction children as [|[c t] l IH]; [reflexivity|].
  simpl. rewrite IH. reflexivity.
Qed.

Lemma weight_pos t : (1 <= weight e t)%nat.
Proof. destruct t; [simpl; lia | rewrite weight_Interior; lia]. Qed.

Lemma traversal_fuel_pos cur : (1 <= traversal_fuel e cur)%nat.
Proof.
  unfold traversal_fuel. destruct (node_of (trie e) cur); [apply weight_pos | lia].
Qed.

Lemma sum_if_count (c' : ascii) (a : nat) (g : ascii -> nat) (table : list ascii) :
  (list_sum (map (fun c => if Ascii.eqb c c' then a else g c) table)
   <= count_occ ascii_dec table c' * a + list_sum (map g table))%nat.
Proof.
  induction table as [|c table IH]; simpl; [lia|].
  destruct (ascii_dec c c') as [->|Hne].
  - rewrite Ascii.eqb_refl. lia.
  - destruct (Ascii.eqb c c') eqn:E; [apply Ascii.eqb_eq in E; congruence|].
    lia.
Qed.

Lemma table_weight_le children :
  forall table, (table_weight e children table <= children_weight e table children)%nat.
Proof.
  unfold table_weight.
  induction children as [|[c' t'] l IH]; intros table; simpl.
  - induction table; simpl; lia.
  - etransitivity; [|apply Nat.add_le_mono_l, IH].
    etransitivity; [|apply sum_if_count].
    apply Nat.eq_le_incl. f_equal. apply map_ext. intros c.
    destruct (Ascii.eqb c c'); reflexivity.
Qed.

Lemma table_weight_firstn children k table :
  (table_weight e children (firstn k table) <= table_weight e children table)%nat.
Proof.
  unfold table_weight. revert k.
  induction table as [|c table IH]; intros [|k]; simpl; try lia.
  specialize (IH k). lia.
Qed.

Lemma queue_fuel_app q1 q2 :
  queue_fuel e (q1 ++ q2) = (queue_fuel e q1 + queue_fuel e q2)%nat.
Proof. unfold queue_fuel. rewrite map_app, list_sum_app. reflexivity. Qed.

Lemma child_of_fuel cur_node except c child_node :
  child_of e cur_node except c = Some child_node ->
  traversal_fuel e (cur child_node) =
  match node_of (trie e) (cur cur_node) with
  | Some (Interior children) =>
      match find_child c children with
      | Some t => weight e t
      | None => 0%nat
      end
  | _ => 0%nat
  end.
Proof.
  unfold child_of.
  destruct (index_eqb (descend (trie e) (cur cur_node) c) except); [discriminate|].
  destruct (index_eqb (descend (trie e) (cur cur_node) c) INVALID_INDEX) eqn:Hinv;
    [discriminate|].
  intros H. injection H as <-. simpl cur.
  unfold traversal_fuel. rewrite node_of_descend.
  pose proof (descend_invalid (trie e) (cur cur_node) c) as Hd.
  rewrite node_of_descend in Hd.
  destruct (node_of (trie e) (cur cur_node)) as [[o|children]|];
    try (rewrite Hd in Hinv by reflexivity; discriminate).
  destruct (find_child c children); [reflexivity|].
  rewrite Hd in Hinv by reflexivity. discriminate.
Qed.

Lemma pushed_fuel cur_node except table :
  (queue_fuel e (pushed (child_of e cur_node except) table)
   <= match node_of (trie e) (cur cur_node) with
      | Some (Interior children) => table_weight e children table
      | _ => 0
      end)%nat.
Proof.
  unfold pushed, queue_fuel, table_weight.
  induction table as [|c table IH]; simpl.
  - destruct (node_of (trie e) (cur cur_node)) as [[|]|]; lia.
  - rewrite map_app, list_sum_app.
    destruct (child_of e cur_node except c) as [ch|] eqn:Hc; simpl.
    + rewrite (child_of_fuel _ _ _ _ Hc).
      destruct (node_of (trie e) (cur cur_node)) as [[|children]|]; simpl in *; lia.
    + destruct (node_of (trie e) (cur cur_node)) as [[|children]|]; simpl in *; lia.
Qed.

(** A node weighs more than the children any prefix of the char table
    reaches. *)
Lemma pushed_fuel_lt cur_node except k :
  (queue_fuel e (pushed (child_of e cur_node except) (firstn k (m_char_table e)))
   < traversal_fuel e (cur cur_node))%nat.
Proof.
  eapply Nat.le_lt_trans; [apply pushed_fuel|].
  unfold traversal_fuel.
  destruct (node_of (trie e) (cur cur_node)) as [[o|children]|];
    [simpl; lia| |lia].
  rewrite weight_Interior.
  pose proof (table_weight_firstn children k (m_char_table e)).
  pose proof (table_weight_le children (m_char_table e)).
  lia.
Qed.

Lemma bf_push_children_eq query cur_node except node_queue :
  bf_push_children e query cur_node except node_queue =
  node_queue ++
  pushed (child_of e cur_node except)
    (if suffix_len cur_node =? max_dword_len query
     then firstn 1 (m_char_table e) else m_char_table e).
Proof.
  unfold bf_push_children.
  generalize (if suffix_len cur_node =? max_dword_len query
              then firstn 1 (m_char_table e) else m_char_table e).
  intros table. revert node_queue.
  induction table as [|c table IH]; intros node_queue; simpl.
  - rewrite app_nil_r. reflexivity.
  - rewrite IH. destruct (child_of e cur_node except c); simpl.
    + rewrite <- app_assoc. reflexivity.
    + reflexivity.
Qed.

Lemma df_push_children_eq cur_node except node_stack :
  df_push_children e cur_node except node_stack =
  pushed (child_of e cur_node except) (m_char_table e) ++ node_stack.
Proof.
  unfold df_push_children.
  generalize (m_char_table e). intros table. revert node_stack.
  induction table as [|c table IH]; intros node_stack; simpl; [reflexivity|].
  rewrite fold_left_app. simpl. rewrite IH.
  destruct (child_of e cur_node except c); reflexivity.
Qed.

Lemma bf_push_children_fuel query cur_node except node_queue :
  (queue_fuel e (bf_push_children e query cur_node except node_queue)
   < queue_fuel e node_queue + traversal_fuel e (cur cur_node))%nat.
Proof.
  rewrite bf_push_children_eq, queue_fuel_app.
  destruct (suffix_len cur_node =? max_dword_len query).
  - pose proof (pushed_fuel_lt cur_node except 1). lia.
  - pose proof (pushed_fuel_lt cur_node except (List.length (m_char_table e))) as H.
    rewrite firstn_all in H. lia.
Qed.

Lemma df_push_children_fuel cur_node except node_stack :
  (queue_fuel e (df_push_children e cur_node except node_stack)
   < queue_fuel e node_stack + traversal_fuel e (cur cur_node))%nat.
Proof.
  rewrite df_push_children_eq, queue_fuel_app.
  pose proof (pushed_fuel_lt cur_node except (List.length (m_char_table e))) as H.
  rewrite firstn_all in H. lia.
Qed.

End TraversalFuel.

(** ** Every search returns *)

Section SearchTotal.

Variable e : ComSubstrSearch.
Hypothesis Hwf : wf_engine e = true.

Lemma wf_stored suffixid :
  In suffixid (stored_suffixids (trie e)) -> suffixid_ok e suffixid = true.
Proof.
  unfold wf_engine in Hwf. rewrite !andb_true_iff in Hwf.
  destruct Hwf as [[H _] _]. rewrite forallb_forall in H. apply H.
Qed.

Lemma wf_tail : len (m_tail (trie e)) < 2 ^ 32.
Proof.
  unfold wf_engine in Hwf. rewrite !andb_true_iff in Hwf.
  destruct Hwf as [_ H]. lia.
Qed.

Lemma terminal_suffixid cur :
  get_base (trie e) cur < 0 ->
  suffixid_ok e
    (tail_read_value (trie e)
       (- get_base (trie e) cur + (tail_strlen (trie e) (- get_base (trie e) cur) + 1)))
  = true.
Proof.
  unfold get_base. destruct cur as [path|]; simpl; [|lia].
  destruct (node_at (m_da (trie e)) path) as [[off|children]|] eqn:Hn; try lia.
  intros _. rewrite Z.opp_involutive. apply wf_stored.
  unfold stored_suffixids.
  apply (in_map (fun off => tail_read_value (trie e) (off + (tail_strlen (trie e) off + 1)))).
  eapply node_at_terminal; eauto.
Qed.

Lemma visit_terminal_spec query match_len cur_node st :
  get_base (trie e) (cur cur_node) < 0 ->
  exists k st',
    visit_terminal e query match_len (get_base (trie e) (cur cur_node)) cur_node st
    = Ok (k, st')
    /\ grows e query st k st'.
Proof.
  intros Hb. unfold visit_terminal. cbv zeta. simpl tail_pos.
  destruct (suffix_len cur_node +
            tail_strlen (trie e) (- get_base (trie e) (cur cur_node))
            <=? max_dword_len query).
  - unfold read_suffixid. simpl tail_pos.
    match goal with
    | |- context [retrieve_dword e query match_len ?s ?sl ?m] =>
        destruct (retrieve_dword_spec e query match_len s sl m)
          as (k & st' & Hr & _ & Hg)
    end.
    + apply tail_read_value_nonneg.
    + apply terminal_suffixid, Hb.
    + exists k, st'. split; [exact Hr | exact Hg].
  - eexists 0, _. split; [reflexivity|]. exact (grows_refl e query st).
Qed.

Lemma bf_loop_spec query match_len except :
  forall fuel node_queue result_num st,
    (queue_fuel e node_queue <= fuel)%nat ->
    exists k st',
      bf_loop e query match_len except fuel node_queue result_num st
      = Ok (result_num + k, st')
      /\ grows e query st k st'.
Proof.
  induction fuel as [|fuel IH]; intros node_queue result_num st Hfuel;
    destruct node_queue as [|cur_node node_queue'];
    try (exists 0, st; simpl; rewrite Z.add_0_r; split; [reflexivity | apply grows_refl]).
  - unfold queue_fuel in Hfuel. simpl in Hfuel.
    pose proof (traversal_fuel_pos e (cur cur_node)). lia.
  - simpl bf_loop.
    destruct (len (results st) <? limit query);
      [|exists 0, st; rewrite Z.add_0_r; split; [reflexivity | apply grows_refl]].
    assert (Hq : (queue_fuel e node_queue' + traversal_fuel e (cur cur_node) <= S fuel)%nat).
    { unfold queue_fuel in *. simpl in Hfuel. lia. }
    pose proof (traversal_fuel_pos e (cur cur_node)) as Hpos.
    destruct (get_base (trie e) (cur cur_node) <? 0) eqn:Hb.
    + destruct (visit_terminal_spec query match_len cur_node st) as (k & st1 & Hv & Hg);
        [lia|].
      unfold bind. rewrite Hv.
      destruct (IH node_queue' (result_num + k) st1) as (k' & st2 & Hl & Hg'); [lia|].
      exists (k + k'), st2. rewrite Hl. split; [f_equal; f_equal; lia|].
      eapply grows_trans; eauto.
    + destruct (suffix_len cur_node <=? max_dword_len query).
      * apply IH.
        pose proof (bf_push_children_fuel e query cur_node except node_queue'). lia.
      * apply IH. lia.
Qed.

Lemma df_loop_spec query match_len except :
  forall fuel node_stack result_num st,
    (queue_fuel e node_stack <= fuel)%nat ->
    exists k st',
      df_loop e query match_len except fuel node_stack result_num st
      = Ok (result_num + k, st')
      /\ grows e query st k st'.
Proof.
  induction fuel as [|fuel IH]; intros node_stack result_num st Hfuel;
    destruct node_stack as [|cur_node node_stack'];
    try (exists 0, st; simpl; rewrite Z.add_0_r; split; [reflexivity | apply grows_refl]).
  - unfold queue_fuel in Hfuel. simpl in Hfuel.
    pose proof (traversal_fuel_pos e (cur cur_node)). lia.
  - simpl df_loop.
    destruct (len (results st) <? limit query);
      [|exists 0, st; rewrite Z.add_0_r; split; [reflexivity | apply grows_refl]].
    assert (Hq : (queue_fuel e node_stack' + traversal_fuel e (cur cur_node) <= S fuel)%nat).
    { unfold queue_fuel in *. simpl in Hfuel. lia. }
    pose proof (traversal_fuel_pos e (cur cur_node)) as Hpos.
    destruct (get_base (trie e) (cur cur_node) <? 0) eqn:Hb.
    + destruct (visit_terminal_spec query match_len cur_node st) as (k & st1 & Hv & Hg);
        [lia|].
      unfold bind. rewrite Hv.
      destruct (IH node_stack' (result_num + k) st1) as (k' & st2 & Hl & Hg'); [lia|].
      exists (k + k'), st2. rewrite Hl. split; [f_equal; f_equal; lia|].
      eapply grows_trans; eauto.
    + destruct (suffix_len cur_node <=? max_dword_len query).
      * apply IH.
        pose proof (df_push_children_fuel e cur_node except node_stack'). lia.
      * apply IH. lia.
Qed.

Lemma bf_traversal_spec query start_cur match_len except st :
  exists k st',
    bf_traversal e query start_cur match_len except st = Ok (k, st')
    /\ grows e query st k st'.
Proof.
  unfold bf_traversal.
  destruct ((match_len >? max_dword_len query) || (len (results st) >=? limit query)).
  - exists 0, st. split; [reflexivity | apply grows_refl].
  - apply (bf_loop_spec query match_len except (traversal_fuel e start_cur)
             [{| cur := start_cur; suffix_len := match_len |}] 0 st).
    unfold queue_fuel. simpl. lia.
Qed.

Lemma df_traversal_spec query start_cur match_len except st :
  exists k st',
    df_traversal e query start_cur match_len except st = Ok (k, st')
    /\ grows e query st k st'.
Proof.
  unfold df_traversal.
  destruct ((match_len >? max_dword_len query) || (len (results st) >=? limit query)).
  - exists 0, st. split; [reflexivity | apply grows_refl].
  - apply (df_loop_spec query match_len except (traversal_fuel e start_cur)
             [{| cur := start_cur; suffix_len := match_len |}] 0 st).
    unfold queue_fuel. simpl. lia.
Qed.

Lemma walk_spec query :
  forall fuel cur match_len trie_index_stack result_num st,
    0 <= match_len ->
    len (word query) - match_len <= Z.of_nat fuel ->
    exists w,
      walk e query fuel cur match_len trie_index_stack result_num st = Ok w
      /\ grows e query st (we_result_num w - result_num) (we_memory w).
Proof.
  induction fuel as [|fuel IH]; intros cur0 match_len stack result_num st Hm Hfuel.
  - simpl. destruct (match_len <? len (word query)) eqn:E; [lia|]. simpl.
    eexists. split; [reflexivity|]. simpl. rewrite Z.sub_diag. apply grows_refl.
  - cbn [walk].
    destruct ((match_len <? len (word query)) && (match_len <=? max_dword_len query));
      [|eexists; split; [reflexivity|]; simpl; rewrite Z.sub_diag; apply grows_refl].
    set (c := descend (trie e) cur0 (nth (Z.to_nat match_len) (word query) NUL)).
    destruct (index_eqb INVALID_INDEX c);
      [eexists; split; [reflexivity|]; simpl; rewrite Z.sub_diag; apply grows_refl|].
    destruct (get_base (trie e) c <? 0) eqn:Hb.
    + simpl tail_pos.
      pose proof (tail_strlen_bound (trie e) (- get_base (trie e) c)) as Hlen.
      pose proof wf_tail as Ht.
      rewrite (wrap32_small (tail_strlen (trie e) (- get_base (trie e) c))) by lia.
      match goal with
      | |- context [if ?b then _ else Ok (0, ?m)] => destruct b
      end.
      * unfold read_suffixid. simpl tail_pos.
        match goal with
        | |- context [retrieve_dword e query ?ml ?s ?sl ?m] =>
            destruct (retrieve_dword_spec e query ml s sl m)
              as (k & st' & Hr & _ & Hg)
        end.
        -- apply tail_read_value_nonneg.
        -- apply terminal_suffixid. lia.
        -- unfold bind. rewrite Hr. eexists. split; [reflexivity|]. simpl.
           replace (result_num + k - result_num) with k by lia. exact Hg.
      * unfold bind. eexists. split; [reflexivity|]. simpl.
        replace (result_num + 0 - result_num) with 0 by lia.
        exact (grows_refl e query st).
    + apply IH; lia.
Qed.

Lemma backtrack_spec query :
  forall trie_index_stack match_len except result_num st,
    exists k st',
      backtrack e query trie_index_stack match_len except result_num st
      = Ok (result_num + k, st')
      /\ grows e query st k st'.
Proof.
  induction trie_index_stack as [|cur0 rest IH]; intros match_len except result_num st.
  - exists 0, st. simpl. rewrite Z.add_0_r. split; [reflexivity | apply grows_refl].
  - simpl backtrack.
    assert (Ht : exists k st',
               (if depth_first_search query
                then df_traversal e query cur0 (wrap32 match_len) except st
                else bf_traversal e query cur0 (wrap32 match_len) except st) = Ok (k, st')
               /\ grows e query st k st').
    { destruct (depth_first_search query);
        [apply df_traversal_spec | apply bf_traversal_spec]. }
    destruct Ht as (k & st1 & Ht & Hg). unfold bind. rewrite Ht.
    destruct (IH (wrap64 (match_len - 1)) cur0 (result_num + k) st1)
      as (k' & st2 & Hb & Hg').
    exists (k + k'), st2. rewrite Hb. split; [f_equal; f_equal; lia|].
    eapply grows_trans; eauto.
Qed.

Lemma compre_search_spec query st :
  exists k st', compre_search e query st = Ok (k, st') /\ grows e query st k st'.
Proof.
  unfold compre_search.
  destruct ((min_common_len query >? len (word query))
            || (min_common_len query >? max_dword_len query));
    [exists 0, st; split; [reflexivity | apply grows_refl]|].
  destruct (get_base (trie e) INITIAL_INDEX <? 0);
    [exists 0, st; split; [reflexivity | apply grows_refl]|].
  destruct (walk_spec query (List.length (word query)) INITIAL_INDEX 0 [] 0 st)
    as (w & Hw & Hg); [lia | unfold len; lia |].
  unfold bind. rewrite Hw.
  destruct (backtrack_spec query (we_stack w) (we_match_len w) INVALID_INDEX
              (we_result_num w) (we_memory w)) as (k & st' & Hb & Hg').
  exists (we_result_num w + k), st'. split; [exact Hb|].
  replace (we_result_num w) with (we_result_num w - 0) at 1 by lia.
  eapply grows_trans; eauto.
Qed.

End SearchTotal.

(** ** search *)

Section SearchClaims.

Variable e : ComSubstrSearch.
Hypothesis Hwf : wf_engine e = true.

Lemma sound_ext q q' r :
  min_dword_len q' = min_dword_len q -> max_dword_len q' = max_dword_len q ->
  sound e q' r -> sound e q r.
Proof.
  intros Hmin Hmax (dw & ml & sl & Hin & Hr & Hb).
  exists dw, ml, sl. rewrite <- Hmin, <- Hmax. auto.
Qed.

Lemma wrap32_add_l a b : wrap32 (wrap32 a + b) = wrap32 (a + b).
Proof. unfold wrap32. apply Zplus_mod_idemp_l. Qed.

Lemma search_loop_spec query :
  0 <= limit query ->
  forall n suffixq i result_num st,
    min_dword_len suffixq = min_dword_len query ->
    max_dword_len suffixq = max_dword_len query ->
    (average_limit query = false -> limit suffixq = limit query) ->
    result_num = wrap32 (len (results st)) ->
    exists result_num' st' new,
      search_loop e query suffixq n i result_num st = Ok (result_num', st')
      /\ results st' = results st ++ new
      /\ result_num' = wrap32 (len (results st'))
      /\ Forall (sound e query) new
      /\ (average_limit query = false ->
          len (results st') <= Z.max (len (results st)) (limit query))
      /\ (average_limit query = true ->
          len (results st') <= len (results st) + Z.of_nat n * limit query).
Proof.
  intros Hlim.
  induction n as [|n IH]; intros suffixq i result_num st Hmin Hmax Hl Hnum.
  - exists result_num, st, []. simpl. rewrite app_nil_r.
    repeat split; auto; lia.
  - cbn [search_loop].
    set (suffixq1 := with_word suffixq (skipn (Z.to_nat i) (word query))).
    set (suffixq2 := if average_limit query
                     then with_limit suffixq1 (wrap32 (result_num + limit query))
                     else suffixq1).
    assert (Hmin2 : min_dword_len suffixq2 = min_dword_len query)
      by (subst suffixq2 suffixq1; destruct (average_limit query); simpl; auto).
    assert (Hmax2 : max_dword_len suffixq2 = max_dword_len query)
      by (subst suffixq2 suffixq1; destruct (average_limit query); simpl; auto).
    assert (Hl2 : average_limit query = false -> limit suffixq2 = limit query)
      by (subst suffixq2 suffixq1; intros Ha; rewrite Ha; simpl; auto).
    assert (Hcap : average_limit query = true ->
                   limit suffixq2 = wrap32 (result_num + limit query))
      by (subst suffixq2 suffixq1; intros Ha; rewrite Ha; reflexivity).
    destruct (compre_search_spec e Hwf suffixq2 st) as (k & st1 & Hc & new1 & E1 & Hk & B1 & F1).
    unfold bind. rewrite Hc.
    destruct (IH suffixq2 (i + 1) (wrap32 (result_num + k)) st1 Hmin2 Hmax2 Hl2)
      as (rn & st2 & new2 & Hs & E2 & Hrn & F2 & Bn & Ba).
    { rewrite Hnum, E1, len_app, Hk. apply wrap32_add_l. }
    exists rn, st2, (new1 ++ new2). split; [exact Hs|].
    split; [rewrite E2, E1, app_assoc; reflexivity|].
    split; [exact Hrn|].
    split.
    { apply Forall_app. split; [|exact F2].
      eapply Forall_impl; [|exact F1]. intros r. apply sound_ext; auto. }
    split.
    + intros Ha. specialize (Bn Ha). rewrite (Hl2 Ha) in B1. lia.
    + intros Ha. specialize (Ba Ha). rewrite (Hcap Ha) in B1.
      assert (Hone : len (results st1) <= len (results st) + limit query).
      { pose proof (len_nonneg (results st)) as H0.
        pose proof (wrap32_range (result_num + limit query)) as Hr.
        destruct (Z.lt_ge_cases (len (results st)) (2 ^ 32)) as [Hs32|Hs32].
        - rewrite Hnum, (wrap32_small (len (results st))) in B1 by lia.
          pose proof (wrap32_le (len (results st) + limit query)). lia.
        - lia. }
      rewrite Nat2Z.inj_succ, Z.mul_succ_l. lia.
Qed.

Lemma answered_spec query :
  answered query = true <-> min_common_len query <= len (word query) /\ limit query <> 0.
Proof.
  unfold answered. rewrite negb_true_iff, orb_false_iff. lia.
Qed.

(** What [search] does for a query it answers: it returns, what it leaves
    in the vector does not depend on what was there, every result is
    sound, and the two caps on the number of results hold. *)
Lemma search_answered query v tpos :
  0 <= limit query -> answered query = true ->
  exists n v' tpos',
    search e query (Some v) tpos = Ok (n, Some v', tpos')
    /\ search e query (Some []) tpos = Ok (n, Some v', tpos')
    /\ (com_prefix_only query = false -> n = wrap32 (len v'))
    /\ Forall (sound e query) v'
    /\ (average_limit query = false -> len v' <= limit query)
    /\ (average_limit query = true ->
        len v' <= limit query * (len (word query) - min_common_len query + 1)).
Proof.
  intros Hlim Ha. pose proof Ha as Ha'. apply answered_spec in Ha' as [Hw Hl0].
  unfold answered in Ha. apply negb_true_iff in Ha.
  unfold search. rewrite Ha.
  set (st := {| results := []; tail_pos := tpos |}).
  destruct (com_prefix_only query).
  - destruct (compre_search_spec e Hwf query st) as (k & st1 & Hc & new & E & Hk & B & F).
    unfold bind. rewrite Hc.
    simpl in E. subst st. simpl in B.
    exists 0, (results st1), (tail_pos st1).
    repeat split; try discriminate.
    + rewrite E. exact F.
    + change (len []) with 0 in B. lia.
    + intros _. change (len []) with 0 in B.
      assert (limit query * 1 <= limit query * (len (word query) - min_common_len query + 1))
        by (apply Z.mul_le_mono_nonneg_l; lia).
      lia.
  - destruct (search_loop_spec query Hlim
                (Z.to_nat (len (word query) - min_common_len query + 1))
                query 0 0 st eq_refl eq_refl (fun _ => eq_refl) eq_refl)
      as (rn & st1 & new & Hs & E & Hrn & F & Bn & Ba).
    unfold bind. rewrite Hs.
    exists rn, (results st1), (tail_pos st1).
    simpl in E. change (len (results st)) with 0 in Bn, Ba.
    repeat split; auto.
    + rewrite E. exact F.
    + intros H. specialize (Bn H). lia.
    + intros H. specialize (Ba H). rewrite Z2Nat.id in Ba by lia. lia.
Qed.

End SearchClaims.

(** C2, amended.  For every well-formed engine and every query with a
    limit above zero, [search] returns.  When the word of the query is at
    least [min_common_len] long, the vector holds at most [limit] results
    after the call when [average_limit] is false, and at most
    [limit * (|word| - min_common_len + 1)] when it is true, whatever the
    vector held before.  When the word is shorter, [search] returns 0 and
    leaves the vector as it was, whatever its size. *)
Theorem search_limit_cap (e : ComSubstrSearch) (query : Query)
    (v : list Result) (tpos : Z) :
  wf_engine e = true -> valid_query query = true ->
  0 < limit query ->
  exists n v' tpos',
    search e query (Some v) tpos = Ok (n, Some v', tpos')
    /\ (min_common_len query <= len (word query) ->
        (average_limit query = false -> len v' <= limit query)
        /\ (average_limit query = true ->
            len v' <= limit query * (len (word query) - min_common_len query + 1)))
    /\ (len (word query) < min_common_len query -> n = 0 /\ v' = v).
Proof.
  intros Hwf _ Hlim.
  destruct (Z.le_gt_cases (min_common_len query) (len (word query))) as [Hw|Hw].
  - destruct (search_answered e Hwf query v tpos)
      as (n & v' & tpos' & Hs & _ & _ & _ & Hn & Ha).
    + lia.
    + apply answered_spec. lia.
    + exists n, v', tpos'. split; [exact Hs|]. split; [auto | lia].
  - exists 0, v, tpos. unfold search.
    replace (len (word query) <? min_common_len query) with true by (symmetry; lia).
    cbn [orb]. split; [reflexivity|]. split; [lia | auto].
Qed.


(** C10, amended.  With a null pointer [search] returns 0 and changes
    nothing.  A query with [limit = 0] or a word shorter than
    [min_common_len] returns 0 and leaves the vector as it was.  Any other
    query empties the vector first: what the vector holds afterwards is
    what it would hold had it been empty, and, unless [com_prefix_only] is
    set, the number returned is the number of results in it. *)
Theorem search_output_buffer (e : ComSubstrSearch) (query : Query)
    (v : list Result) (tpos : Z) :
  wf_engine e = true -> valid_query query = true ->
  search e query None tpos = Ok (0, None, tpos)
  /\ (answered query = false -> search e query (Some v) tpos = Ok (0, Some v, tpos))
  /\ (answered query = true ->
      exists n v' tpos',
        search e query (Some v) tpos = Ok (n, Some v', tpos')
        /\ search e query (Some []) tpos = Ok (n, Some v', tpos')
        /\ (com_prefix_only query = false -> n = wrap32 (len v'))).
Proof.
  intros Hwf Hq. split; [reflexivity|]. split.
  - intros Ha. unfold answered in Ha. apply negb_false_iff in Ha.
    unfold search. rewrite Ha. reflexivity.
  - intros Ha.
    destruct (search_answered e Hwf query v tpos) as (n & v' & tpos' & Hs & Hs' & Hn & _).
    + unfold valid_query in Hq. rewrite !andb_true_iff in Hq. lia.
    + exact Ha.
    + exists n, v', tpos'. auto.
Qed.

(** ** Sorting *)

Section Orders.

Context {A : Type} (lt : A -> A -> bool).
Hypothesis Hswo : strict_weak_order lt.

Lemma swo_asym a b : lt a b = true -> lt b a = false.
Proof.
  intros H. destruct (lt b a) eqn:E; [|reflexivity].
  rewrite <- (swo_irrefl lt Hswo a). symmetry. eapply swo_trans; eauto.
Qed.

(** "Not greater than" is transitive. *)
Lemma swo_not_greater_trans a b c :
  lt b a = false -> lt c b = false -> lt c a = false.
Proof.
  intros Hba Hcb. destruct (lt c a) eqn:Hca; [|reflexivity].
  destruct (lt a b) eqn:Hab.
  - rewrite <- Hcb. symmetry. eapply swo_trans; eauto.
  - destruct (lt b c) eqn:Hbc.
    + rewrite <- Hba. symmetry. eapply swo_trans; eauto.
    + destruct (swo_equiv lt Hswo a b c Hab Hba Hbc Hcb) as [_ H]. congruence.
Qed.

Lemma insert_after_perm x l : Permutation (insert_after lt x l) (x :: l).
Proof.
  induction l as [|y l IH]; simpl; [reflexivity|].
  destruct (lt x y); [reflexivity|].
  rewrite IH. apply perm_swap.
Qed.

Lemma insert_before_perm x l : Permutation (insert_before lt x l) (x :: l).
Proof.
  induction l as [|y l IH]; simpl; [reflexivity|].
  destruct (lt y x); [|reflexivity].
  rewrite IH. apply perm_swap.
Qed.

Lemma insert_after_sorted x l : sorted_by lt l -> sorted_by lt (insert_after lt x l).
Proof.
  unfold sorted_by. induction l as [|y l IH]; simpl; intros Hs.
  - constructor; constructor.
  - inversion Hs as [|? ? Hl Hy]; subst.
    destruct (lt x y) eqn:E.
    + constructor; [exact Hs|].
      constructor; [apply swo_asym, E|].
      rewrite Forall_forall in *. intros z Hz.
      apply (swo_not_greater_trans x y z); auto. apply swo_asym, E.
    + constructor; [apply IH, Hl|].
      rewrite Forall_forall in *. intros z Hz.
      apply (Permutation_in _ (insert_after_perm x l)) in Hz.
      destruct Hz as [<-|Hz]; auto.
Qed.

Lemma insert_before_sorted x l : sorted_by lt l -> sorted_by lt (insert_before lt x l).
Proof.
  unfold sorted_by. induction l as [|y l IH]; simpl; intros Hs.
  - constructor; constructor.
  - inversion Hs as [|? ? Hl Hy]; subst.
    destruct (lt y x) eqn:E.
    + constructor; [apply IH, Hl|].
      rewrite Forall_forall in *. intros z Hz.
      apply (Permutation_in _ (insert_before_perm x l)) in Hz.
      destruct Hz as [<-|Hz]; auto. apply swo_asym, E.
    + constructor; [exact Hs|].
      constructor; [exact E|].
      rewrite Forall_forall in *. intros z Hz.
      apply (swo_not_greater_trans x y z); auto.
Qed.

Lemma fold_insert_after l :
  forall acc, sorted_by lt acc ->
    Permutation (fold_left (fun acc x => insert_after lt x acc) l acc) (l ++ acc)
    /\ sorted_by lt (fold_left (fun acc x => insert_after lt x acc) l acc).
Proof.
  induction l as [|x l IH]; simpl; intros acc Hacc; [split; auto|].
  destruct (IH (insert_after lt x acc) (insert_after_sorted x acc Hacc)) as [Hp Hs].
  split; [|exact Hs].
  rewrite Hp, insert_after_perm. symmetry. apply Permutation_middle.
Qed.

Lemma fold_insert_before l :
  forall acc, sorted_by lt acc ->
    Permutation (fold_left (fun acc x => insert_before lt x acc) l acc) (l ++ acc)
    /\ sorted_by lt (fold_left (fun acc x => insert_before lt x acc) l acc).
Proof.
  induction l as [|x l IH]; simpl; intros acc Hacc; [split; auto|].
  destruct (IH (insert_before lt x acc) (insert_before_sorted x acc Hacc)) as [Hp Hs].
  split; [|exact Hs].
  rewrite Hp, insert_before_perm. symmetry. apply Permutation_middle.
Qed.

(** Two sorted arrangements of the same elements are equal when equal
    elements are the only equivalent ones. *)
Lemma sorted_unique (l1 : list A) :
  forall l2,
    Permutation l1 l2 -> sorted_by lt l1 -> sorted_by lt l2 ->
    (forall x y, In x l1 -> In y l1 -> lt x y = false -> lt y x = false -> x = y) ->
    l1 = l2.
Proof.
  unfold sorted_by.
  induction l1 as [|x l1 IH]; intros l2 Hp Hs1 Hs2 Hd.
  - apply Permutation_nil in Hp. congruence.
  - destruct l2 as [|y l2]; [apply Permutation_sym, Permutation_nil in Hp; discriminate|].
    inversion Hs1 as [|? ? Hs1' Hx]; subst.
    inversion Hs2 as [|? ? Hs2' Hy]; subst.
    rewrite Forall_forall in Hx, Hy.
    assert (Hyin : In y (x :: l1))
      by (apply (Permutation_in _ (Permutation_sym Hp)); left; reflexivity).
    assert (Hxin : In x (y :: l2))
      by (apply (Permutation_in _ Hp); left; reflexivity).
    assert (Hxy : x = y).
    { destruct Hyin as [Hyx|Hyin]; [exact Hyx|].
      destruct Hxin as [Hxy|Hxin]; [congruence|].
      apply Hd; [left; reflexivity | right; exact Hyin | |].
      - apply Hy, Hxin.
      - apply Hx, Hyin. }
    subst y. f_equal.
    apply IH; auto.
    + eapply Permutation_cons_inv; eauto.
    + intros a b Ha Hb. apply Hd; right; assumption.
Qed.

Lemma distinctb_spec (l : list A) :
  distinctb lt l = true ->
  forall x y, In x l -> In y l -> lt x y = false -> lt y x = false -> x = y.
Proof.
  induction l as [|a l IH]; simpl; intros Hd x y Hx Hy Hxy Hyx; [contradiction|].
  apply andb_true_iff in Hd as [Ha Hl]. rewrite forallb_forall in Ha.
  destruct Hx as [<-|Hx], Hy as [<-|Hy]; auto.
  - specialize (Ha y Hy). rewrite Hxy, Hyx in Ha. discriminate.
  - specialize (Ha x Hx). rewrite Hxy, Hyx in Ha. discriminate.
Qed.

End Orders.

Lemma insertion_sort_conforming : conforming_sort insertion_sort.
Proof.
  intros A lt l Hswo. unfold insertion_sort.
  destruct (fold_insert_after lt Hswo l []) as [Hp Hs]; [constructor|].
  rewrite app_nil_r in Hp. auto.
Qed.

Lemma reversing_sort_conforming : conforming_sort reversing_sort.
Proof.
  intros A lt l Hswo. unfold reversing_sort.
  destruct (fold_insert_before lt Hswo l []) as [Hp Hs]; [constructor|].
  rewrite app_nil_r in Hp. auto.
Qed.

(** Where no two elements are equivalent every conforming sort gives the
    same answer. *)
Lemma conforming_sort_unique std_sort (A : Type) (lt : A -> A -> bool) (l : list A) :
  conforming_sort std_sort -> strict_weak_order lt ->
  (forall x y, In x l -> In y l -> lt x y = false -> lt y x = false -> x = y) ->
  std_sort A lt l = insertion_sort A lt l.
Proof.
  intros Hc Hswo Hd.
  destruct (Hc A lt l Hswo) as [Hp Hs].
  destruct (insertion_sort_conforming A lt l Hswo) as [Hp' Hs'].
  apply (sorted_unique lt _ _ (Permutation_trans Hp (Permutation_sym Hp')) Hs Hs').
  intros x y Hx Hy.
  apply Hd; [exact (Permutation_in _ Hp Hx) | exact (Permutation_in _ Hp Hy)].
Qed.


(** *** The comparators of [build] *)

Lemma Zltb_swo : strict_weak_order Z.ltb.
Proof. split; intros; lia. Qed.

Lemma dword_lt_swo : strict_weak_order dword_lt.
Proof. unfold dword_lt. split; intros; lia. Qed.

Lemma byte_val_inj x y : byte_val x = byte_val y -> x = y.
Proof.
  unfold byte_val. intros H. apply N2Z.inj in H.
  rewrite <- (ascii_N_embedding x), <- (ascii_N_embedding y). congruence.
Qed.

Lemma strcmp_refl a : strcmp a a = 0.
Proof.
  induction a as [|x a IH]; simpl; [reflexivity|].
  rewrite Z.eqb_refl. exact IH.
Qed.

Lemma strcmp_eq a : forall b, strcmp a b = 0 -> a = b.
Proof.
  induction a as [|x a IH]; intros [|y b]; simpl; try discriminate; auto.
  destruct (byte_val x =? byte_val y) eqn:E.
  - intros H. apply Z.eqb_eq, byte_val_inj in E. f_equal; auto.
  - lia.
Qed.

Lemma strcmp_antisym a : forall b, strcmp a b < 0 <-> 0 < strcmp b a.
Proof.
  induction a as [|x a IH]; intros [|y b]; simpl; try lia.
  rewrite (Z.eqb_sym (byte_val y)).
  destruct (byte_val x =? byte_val y) eqn:E; [apply IH | lia].
Qed.

Lemma strcmp_trans a : forall b c, strcmp a b < 0 -> strcmp b c < 0 -> strcmp a c < 0.
Proof.
  induction a as [|x a IH]; intros [|y b] [|z c]; simpl; try lia.
  destruct (byte_val x =? byte_val y) eqn:Exy;
    destruct (byte_val y =? byte_val z) eqn:Eyz;
    destruct (byte_val x =? byte_val z) eqn:Exz; try lia.
  apply IH.
Qed.

Lemma suffix_cmp_swo pool : strict_weak_order (suffix_cmp pool).
Proof.
  unfold suffix_cmp. split.
  - intros a. rewrite strcmp_refl. reflexivity.
  - intros a b c H1 H2. apply Z.ltb_lt. eapply strcmp_trans; apply Z.ltb_lt; eauto.
  - intros a b c Hab Hba Hbc Hcb.
    assert (E1 : c_str pool (dastrie.key a) = c_str pool (dastrie.key b)).
    { apply strcmp_eq.
      pose proof (strcmp_antisym (c_str pool (dastrie.key b)) (c_str pool (dastrie.key a))).
      lia. }
    assert (E2 : c_str pool (dastrie.key b) = c_str pool (dastrie.key c)).
    { apply strcmp_eq.
      pose proof (strcmp_antisym (c_str pool (dastrie.key c)) (c_str pool (dastrie.key b))).
      lia. }
    rewrite E1, E2, strcmp_refl. auto.
Qed.

(** *** [build] does not depend on the sort when keys are distinct *)

Section SortIrrelevant.

Variable std_sort : forall A : Type, (A -> A -> bool) -> list A -> list A.
Hypothesis Hsort : conforming_sort std_sort.

Lemma sort_range_eq a first size :
  sort_range std_sort a first size = sort_range insertion_sort a first size.
Proof.
  unfold sort_range. f_equal. f_equal.
  apply conforming_sort_unique; auto using Zltb_swo.
  intros x y _ _ H1 H2. lia.
Qed.

Lemma dedup_step_eq pool j d :
  dedup_step std_sort pool j d = dedup_step insertion_sort pool j d.
Proof.
  unfold dedup_step, dedup_core.
  destruct (if j =? 1 then dedup_first d else Ok d) as [d'| |]; simpl; try reflexivity.
  destruct (read_at (b_input_suffix_array d') j) as [rj| |]; simpl; try reflexivity.
  destruct (read_at (b_input_suffix_array d') (b_i d')) as [ri| |]; simpl; try reflexivity.
  destruct (strcmp _ _ =? 0); [reflexivity|].
  destruct (read_at (b_suffix_iindex d') (b_i d')) as [li| |]; simpl; try reflexivity.
  rewrite sort_range_eq. reflexivity.
Qed.

Lemma dedup_loop_eq pool n :
  forall j d, dedup_loop std_sort pool n j d = dedup_loop insertion_sort pool n j d.
Proof.
  induction n as [|n IH]; intros j d; simpl; [reflexivity|].
  rewrite dedup_step_eq.
  destruct (dedup_step insertion_sort pool j d); simpl; auto.
Qed.

Lemma build_sort_irrelevant junk dat_size this dict db_fname :
  distinct_keys this junk dict = true ->
  build std_sort junk dat_size this dict db_fname
  = build insertion_sort junk dat_size this dict db_fname.
Proof.
  unfold distinct_keys, build.
  destruct (read_lines (getlines [] dict) (fresh_array (junk_char junk) (len dict)) 0 [])
    as [[pool offset] dwords_array].
  intros H. apply andb_true_iff in H as [H1 H2].
  rewrite (conforming_sort_unique std_sort dword_type dword_lt dwords_array Hsort
             dword_lt_swo (distinctb_spec dword_lt dwords_array H1)).
  rewrite (conforming_sort_unique std_sort trie_record_type (suffix_cmp pool) _ Hsort
             (suffix_cmp_swo pool) (distinctb_spec (suffix_cmp pool) _ H2)).
  rewrite dedup_loop_eq. reflexivity.
Qed.

End SortIrrelevant.

(** ** The record range of the builder *)

Lemma poke_nat_length {A : Type} (a : list A) :
  forall i x, List.length (poke_nat a i x) = List.length a.
Proof.
  induction a as [|y a IH]; intros [|i] x; simpl; auto.
Qed.

Lemma write_at_len {A : Type} (a a' : list A) (i : Z) (x : A) :
  write_at a i x = Ok a' -> len a' = len a.
Proof.
  unfold write_at, poke, len.
  destruct ((0 <=? i) && (i <? Z.of_nat (List.length a))); [|discriminate].
  intros H. injection H as <-.
  destruct (i <? 0); [reflexivity|]. rewrite poke_nat_length. reflexivity.
Qed.

Lemma firstn_snoc {A : Type} (l : list A) :
  forall i, (i < List.length l)%nat ->
    exists x, firstn (S i) l = firstn i l ++ [x].
Proof.
  induction l as [|y l IH]; intros i Hi; simpl in Hi; [lia|].
  destruct i as [|i].
  - exists y. reflexivity.
  - destruct (IH i) as [x Hx]; [lia|].
    exists x. change (firstn (S (S i)) (y :: l)) with (y :: firstn (S i) l).
    rewrite Hx. reflexivity.
Qed.

Section DedupScan.

Variable std_sort : forall A : Type, (A -> A -> bool) -> list A -> list A.

Ltac step H :=
  match type of H with
  | bind ?m _ = Ok _ =>
      let E := fresh "E" in
      destruct m eqn:E; simpl in H; [|discriminate H|discriminate H]
  end.

Lemma dedup_first_inv d d' :
  dedup_first d = Ok d' ->
  b_i d' = b_i d
  /\ len (b_input_suffix_array d') = len (b_input_suffix_array d).
Proof.
  unfold dedup_first. intros H.
  repeat step H. injection H as <-. simpl.
  split; [reflexivity|]. eapply write_at_len; eauto.
Qed.

(** A turn of the scan moves [i] by one at most and keeps the size of the
    suffix array. *)
Lemma dedup_step_inv pool j d d' :
  dedup_step std_sort pool j d = Ok d' ->
  b_i d <= b_i d' <= b_i d + 1
  /\ len (b_input_suffix_array d') = len (b_input_suffix_array d).
Proof.
  unfold dedup_step, dedup_core. intros H.
  step H.
  assert (Hd : b_i a = b_i d
               /\ len (b_input_suffix_array a) = len (b_input_suffix_array d)).
  { destruct (j =? 1); [apply dedup_first_inv; assumption|].
    injection E as <-. auto. }
  destruct Hd as [Hi Hl].
  repeat step H.
  destruct (strcmp _ _ =? 0).
  - repeat step H. injection H as <-. simpl. lia.
  - repeat step H. injection H as <-. simpl.
    split; [lia|]. rewrite <- Hl. eapply write_at_len; eauto.
Qed.

Lemma dedup_loop_inv pool n :
  forall j d d',
    dedup_loop std_sort pool n j d = Ok d' ->
    b_i d <= b_i d' <= b_i d + Z.of_nat n
    /\ len (b_input_suffix_array d') = len (b_input_suffix_array d).
Proof.
  induction n as [|n IH]; intros j d d' H.
  - simpl in H. injection H as <-. lia.
  - cbn [dedup_loop] in H. step H.
    apply dedup_step_inv in E. apply IH in H. lia.
Qed.

(** Whatever the dictionary, the record range [build] hands to the DAT
    builder is the array of distinct suffixes without its last entry. *)
Lemma build_leaves_out_last_suffix junk dat_size this dict db_fname b :
  build std_sort junk dat_size this dict db_fname = Ok b ->
  suffix_array b <> [] ->
  exists r, suffix_array b = trie_records b ++ [r].
Proof.
  unfold build.
  destruct (read_lines (getlines [] dict) (fresh_array (junk_char junk) (len dict)) 0 [])
    as [[pool offset] dwords_array].
  set (isa := std_sort trie_record_type (suffix_cmp pool)
                (all_suffixes this 0 (std_sort dword_type dword_lt dwords_array))).
  intros H. step H. step H. injection H as <-. simpl.
  apply dedup_loop_inv in E. simpl in E. destruct E as [Hi Hl].
  intros Hne.
  assert (Hn : 0 < len isa).
  { destruct (b_input_suffix_array a) as [|r l] eqn:Ha.
    - destruct (Z.to_nat (b_i a + 1)); simpl in Hne; contradiction.
    - rewrite <- Hl, len_cons. pose proof (len_nonneg l). lia. }
  replace (Z.to_nat (b_i a + 1)) with (S (Z.to_nat (b_i a))) by lia.
  apply firstn_snoc. unfold len in *. lia.
Qed.

(** [build] has one exit, and its status is 0. *)
Lemma build_status_zero junk dat_size this dict db_fname b :
  build std_sort junk dat_size this dict db_fname = Ok b -> status b = 0.
Proof.
  unfold build.
  destruct (read_lines (getlines [] dict) (fresh_array (junk_char junk) (len dict)) 0 [])
    as [[pool offset] dwords_array].
  intros H. step H. step H. injection H as <-. reflexivity.
Qed.

End DedupScan.

(** ** The trie the builder makes *)

Lemma c_str_from_no_nul (mem : list ascii) : ~ In NUL (c_str_from mem).
Proof.
  induction mem as [|c mem IH]; simpl; [tauto|].
  destruct (Ascii.eqb c NUL) eqn:E; simpl; [tauto|].
  intros [H|H]; [|tauto]. subst c. rewrite Ascii.eqb_refl in E. discriminate.
Qed.

Lemma c_str_from_app_nul (k rest : list ascii) :
  ~ In NUL k -> c_str_from (k ++ NUL :: rest) = k.
Proof.
  induction k as [|c k IH]; simpl; intros H.
  - reflexivity.
  - destruct (Ascii.eqb c NUL) eqn:E.
    + apply Ascii.eqb_eq in E. tauto.
    + f_equal. apply IH. tauto.
Qed.

Lemma skipn_len_app {A : Type} (pre rest : list A) :
  skipn (Z.to_nat (len pre)) (pre ++ rest) = rest.
Proof.
  unfold len. rewrite Nat2Z.id.
  induction pre as [|x pre IH]; simpl; auto.
Qed.

Lemma nth_len_app {A : Type} (pre rest : list A) (j : nat) (d : A) :
  nth (Z.to_nat (len pre + Z.of_nat j)) (pre ++ rest) d = nth j rest d.
Proof.
  unfold len. replace (Z.to_nat (Z.of_nat (List.length pre) + Z.of_nat j))
    with (List.length pre + j)%nat by lia.
  rewrite app_nth2_plus. reflexivity.
Qed.

Lemma byte_val_of_Z (x : Z) :
  0 <= x < 256 -> byte_val (ascii_of_N (Z.to_N x)) = x.
Proof.
  intros H. unfold byte_val. rewrite N_ascii_embedding by lia. lia.
Qed.

Lemma le32_decode_value (v : Z) (post : list ascii) :
  0 <= v < 2 ^ 32 ->
  byte_val (nth 0 (le32 v ++ post) NUL)
  + 2 ^ 8 * byte_val (nth 1 (le32 v ++ post) NUL)
  + 2 ^ 16 * byte_val (nth 2 (le32 v ++ post) NUL)
  + 2 ^ 24 * byte_val (nth 3 (le32 v ++ post) NUL) = v.
Proof.
  intros H. unfold le32. rewrite wrap32_small by exact H. simpl map. simpl nth.
  rewrite !byte_val_of_Z by (apply Z.mod_pos_bound; lia).
  change (2 ^ (8 * 0)) with 1. change (2 ^ (8 * 1)) with 256.
  change (2 ^ (8 * 2)) with 65536. change (2 ^ (8 * 3)) with 16777216.
  change (2 ^ 8) with 256. change (2 ^ 16) with 65536. change (2 ^ 24) with 16777216.
  change (Z.pow_pos 2 8) with 256. change (Z.pow_pos 2 16) with 65536.
  change (Z.pow_pos 2 24) with 16777216.
  change (2 ^ 32) with 4294967296 in H.
  replace (v / 65536) with (v / 256 / 256)
    by (rewrite Z.div_div by lia; reflexivity).
  replace (v / 16777216) with (v / 256 / 256 / 256)
    by (rewrite !Z.div_div by lia; reflexivity).
  pose proof (Z.div_mod v 256 ltac:(lia)).
  pose proof (Z.div_mod (v / 256) 256 ltac:(lia)).
  pose proof (Z.div_mod (v / 256 / 256) 256 ltac:(lia)).
  assert (v / 256 / 256 / 256 < 256).
  { rewrite !Z.div_div by lia. apply Z.div_lt_upper_bound; lia. }
  assert (0 <= v / 256 / 256 / 256) by (repeat apply Z.div_pos; lia).
  rewrite (Z.mod_small (v / 256 / 256 / 256)) by lia.
  rewrite Z.div_1_r.
  generalize dependent (v mod 256). generalize dependent ((v / 256) mod 256).
  generalize dependent ((v / 256 / 256) mod 256).
  generalize dependent (v / 256 / 256 / 256). generalize dependent (v / 256 / 256).
  generalize dependent (v / 256).
  intros. lia.
Qed.

Lemma tail_read_value_app (t : suffix_trie_type) (pre rest : list ascii) :
  m_tail t = pre ++ rest ->
  tail_read_value t (len pre)
  = byte_val (nth 0 rest NUL) + 2 ^ 8 * byte_val (nth 1 rest NUL)
    + 2 ^ 16 * byte_val (nth 2 rest NUL) + 2 ^ 24 * byte_val (nth 3 rest NUL).
Proof.
  intros H. unfold tail_read_value, tail_byte. rewrite H. unfold len.
  replace (Z.to_nat (Z.of_nat (List.length pre))) with (List.length pre + 0)%nat by lia.
  replace (Z.to_nat (Z.of_nat (List.length pre) + 1)) with (List.length pre + 1)%nat by lia.
  replace (Z.to_nat (Z.of_nat (List.length pre) + 2)) with (List.length pre + 2)%nat by lia.
  replace (Z.to_nat (Z.of_nat (List.length pre) + 3)) with (List.length pre + 3)%nat by lia.
  rewrite !app_nth2_plus. reflexivity.
Qed.

(** What a search reads at a terminal the builder wrote: the length of
    the key rest, then the value. *)
Lemma tail_holds_reads (t : suffix_trie_type) (off : Z) (k : list ascii) (v : Z) :
  tail_holds (m_tail t) off k v -> ~ In NUL k -> 0 <= v < 2 ^ 32 ->
  tail_strlen t off = len k
  /\ tail_read_value t (off + (len k + 1)) = v.
Proof.
  intros (pre & post & Ht & Hoff) Hk Hv. subst off.
  split.
  - unfold tail_strlen, c_str. rewrite Ht, skipn_len_app.
    simpl app. rewrite c_str_from_app_nul by exact Hk. reflexivity.
  - replace (len pre + (len k + 1)) with (len (pre ++ k ++ [NUL]))
      by (rewrite !len_app; reflexivity).
    rewrite (tail_read_value_app t (pre ++ k ++ [NUL]) (le32 v ++ post)).
    + apply le32_decode_value, Hv.
    + rewrite Ht, <- !app_assoc. reflexivity.
Qed.

Lemma tail_holds_app tail ext off k v :
  tail_holds tail off k v -> tail_holds (tail ++ ext) off k v.
Proof.
  intros (pre & post & -> & Hoff). exists pre, (post ++ ext).
  split; [|exact Hoff]. rewrite <- !app_assoc. reflexivity.
Qed.

Lemma offsets_below_app (l1 l2 : list (ascii * trie_node)) :
  offsets_below (l1 ++ l2) = offsets_below l1 ++ offsets_below l2.
Proof.
  induction l1 as [|[c t] l1 IH]; simpl; [reflexivity|].
  rewrite IH, app_assoc. reflexivity.
Qed.

Section Arrange.

Variable vals : list Z.

Lemma plain_record_tl k v : plain_record vals (k, v) -> plain_record vals (tl k, v).
Proof.
  unfold plain_record. simpl. intros [Hk Hv]. split; [|exact Hv].
  destruct k as [|c k]; simpl in *; tauto.
Qed.

Lemma take_group_plain c recs :
  Forall (plain_record vals) recs ->
  Forall (plain_record vals) (fst (take_group c recs))
  /\ Forall (plain_record vals) (snd (take_group c recs)).
Proof.
  induction recs as [|[k v] recs IH]; simpl; intros H; [auto|].
  inversion H as [|? ? Hr Hrest]; subst.
  destruct (Ascii.eqb (head_byte k) c); simpl; [|auto].
  destruct (take_group c recs) as [g rest]. simpl in *.
  destruct (IH Hrest) as [Hg Hr']. split; [|exact Hr'].
  constructor; [apply plain_record_tl, Hr | exact Hg].
Qed.

Lemma group_by_head_plain fuel :
  forall recs,
    Forall (plain_record vals) recs ->
    Forall (fun cg => Forall (plain_record vals) (snd cg)) (group_by_head fuel recs).
Proof.
  induction fuel as [|fuel IH]; intros recs H; simpl; [constructor|].
  destruct recs as [|[k v] recs']; [constructor|].
  pose proof (take_group_plain (head_byte k) ((k, v) :: recs') H) as [Hg Hr].
  destruct (take_group (head_byte k) ((k, v) :: recs')) as [g rest].
  constructor; [exact Hg | apply IH, Hr].
Qed.

Lemma terminals_hold_app offsets tail ext :
  terminals_hold vals offsets tail -> terminals_hold vals offsets (tail ++ ext).
Proof.
  intros H off Hin. destruct (H off Hin) as (k & v & Hk & Hv & Ht).
  exists k, v. auto using tail_holds_app.
Qed.

(** The children of a node, given what [arrange] does one level down. *)
Lemma arrange_children depth :
  (forall recs tail t tail',
      Forall (plain_record vals) recs ->
      arrange depth recs tail = (t, tail') ->
      (exists ext, tail' = tail ++ ext)
      /\ terminals_hold vals (terminal_offsets t) tail') ->
  forall groups children0 tail0 children tail',
    Forall (fun cg => Forall (plain_record vals) (snd cg)) groups ->
    fold_left
      (fun acc cg =>
         let '(children, tail) := acc in
         let '(c, g) := cg in
         let '(t, tail') := arrange depth g tail in
         (children ++ [(c, t)], tail'))
      groups (children0, tail0) = (children, tail') ->
    terminals_hold vals (offsets_below children0) tail0 ->
    (exists ext, tail' = tail0 ++ ext)
    /\ terminals_hold vals (offsets_below children) tail'.
Proof.
  intros IH.
  induction groups as [|[c g] groups IHg]; intros children0 tail0 children tail' Hp Hf H0.
  - simpl in Hf. injection Hf as <- <-. split; [exists []; rewrite app_nil_r|]; auto.
  - simpl in Hf. inversion Hp as [|? ? Hg Hrest]; subst. simpl in Hg.
    destruct (arrange depth g tail0) as [t tail1] eqn:Ha.
    destruct (IH g tail0 t tail1 Hg Ha) as [[ext1 He1] Ht].
    destruct (IHg (children0 ++ [(c, t)]) tail1 children tail' Hrest Hf) as [[ext2 He2] Hc].
    + rewrite offsets_below_app. simpl. rewrite app_nil_r.
      intros off Hin. apply in_app_or in Hin as [Hin|Hin].
      * subst tail1.
        exact (terminals_hold_app (offsets_below children0) tail0 ext1 H0 off Hin).
      * apply Ht, Hin.
    + split; [|exact Hc]. exists (ext1 ++ ext2). subst. rewrite app_assoc. reflexivity.
Qed.

Lemma arrange_spec depth :
  forall recs tail t tail',
    Forall (plain_record vals) recs ->
    arrange depth recs tail = (t, tail') ->
    (exists ext, tail' = tail ++ ext)
    /\ terminals_hold vals (terminal_offsets t) tail'.
Proof.
  induction depth as [|depth IH]; intros recs tail t tail' Hp Ha.
  - destruct recs as [|[k v] [|r2 rest]]; simpl in Ha; injection Ha as <- <-.
    + split; [exists []; rewrite app_nil_r; reflexivity|]. intros off [].
    + split; [eexists; reflexivity|].
      intros off [<-|[]]. inversion Hp as [|? ? [Hk Hv] _]; subst.
      exists k, v. repeat split; auto. exists tail, []. rewrite app_nil_r. auto.
    + split; [exists []; rewrite app_nil_r; reflexivity|]. intros off [].
  - assert (Hfold : forall groups,
               Forall (fun cg => Forall (plain_record vals) (snd cg)) groups ->
               (let '(children, tail') :=
                  fold_left
                    (fun acc cg =>
                       let '(children, tail) := acc in
                       let '(c, g) := cg in
                       let '(t, tail') := arrange depth g tail in
                       (children ++ [(c, t)], tail'))
                    groups ([], tail) in
                (Interior children, tail')) = (t, tail') ->
               (exists ext, tail' = tail ++ ext)
               /\ terminals_hold vals (terminal_offsets t) tail').
    { intros groups Hg Hf.
      destruct (fold_left _ groups ([], tail)) as [children tail1] eqn:E.
      injection Hf as <- <-.
      destruct (arrange_children depth IH groups [] tail children tail1 Hg E) as [He Hc].
      - intros off [].
      - split; [exact He|]. rewrite offsets_below_eq. exact Hc. }
    destruct recs as [|[k v] [|r2 rest]].
    + apply (Hfold (group_by_head (List.length (@nil (list ascii * Z))) [])); [|exact Ha].
      apply group_by_head_plain, Hp.
    + simpl in Ha. injection Ha as <- <-.
      split; [eexists; reflexivity|].
      intros off [<-|[]]. inversion Hp as [|? ? [Hk Hv] _]; subst.
      exists k, v. repeat split; auto. exists tail, []. rewrite app_nil_r. auto.
    + apply (Hfold (group_by_head (List.length ((k, v) :: r2 :: rest)) ((k, v) :: r2 :: rest)));
        [|exact Ha].
      apply group_by_head_plain, Hp.
Qed.

End Arrange.

(** The suffix ids a search can read from the trie [dat_build] makes are
    values of the records it was given. *)
Lemma dat_build_stored (pool : list ascii) (records : list trie_record_type) :
  Forall (fun r => 0 <= dastrie.value r < 2 ^ 32) records ->
  forall suffixid,
    In suffixid (stored_suffixids (dat_build pool records)) ->
    In suffixid (map dastrie.value records).
Proof.
  intros Hv suffixid. unfold dat_build.
  set (recs := map (fun r => (c_str pool (dastrie.key r), dastrie.value r)) records).
  destruct (arrange (S (S (max_key_len recs))) recs [NUL]) as [root tail] eqn:Ha.
  assert (Hp : Forall (plain_record (map dastrie.value records)) recs).
  { subst recs. apply Forall_forall. intros r Hr.
    apply in_map_iff in Hr as (r0 & <- & Hr0). split; simpl.
    - apply c_str_from_no_nul.
    - apply in_map, Hr0. }
  destruct (arrange_spec _ _ _ _ _ _ Hp Ha) as [_ Ht].
  unfold stored_suffixids. simpl m_da. intros Hin.
  apply in_map_iff in Hin as (off & <- & Hoff).
  destruct (Ht off Hoff) as (k & v & Hk & Hvin & Hh).
  assert (Hrange : 0 <= v < 2 ^ 32).
  { apply in_map_iff in Hvin as (r & <- & Hr).
    rewrite Forall_forall in Hv. apply Hv, Hr. }
  destruct (tail_holds_reads {| m_da := root; m_tail := tail |} off k v Hh Hk Hrange)
    as [Hlen Hval].
  rewrite Hlen, Hval. exact Hvin.
Qed.

(** ** Arrays under stores and sorts *)

Lemma read_at_nth {A : Type} (a : list A) (k : Z) (x : A) :
  read_at a k = Ok x <-> 0 <= k /\ nth_error a (Z.to_nat k) = Some x.
Proof.
  unfold read_at. destruct (k <? 0) eqn:E.
  - split; [discriminate | lia].
  - destruct (nth_error a (Z.to_nat k)); split; try discriminate.
    + intros H. injection H as ->. split; [lia | reflexivity].
    + intros [_ H]. injection H as ->. reflexivity.
    + intros [_ H]. discriminate.
Qed.

Lemma read_at_ext {A : Type} (a b : list A) (k : Z) :
  nth_error a (Z.to_nat k) = nth_error b (Z.to_nat k) -> read_at a k = read_at b k.
Proof. unfold read_at. intros ->. reflexivity. Qed.

Lemma nth_error_poke_nat {A : Type} (a : list A) :
  forall i x k,
    nth_error (poke_nat a i x) k
    = if Nat.eqb k i then (if Nat.ltb i (List.length a) then Some x else None)
      else nth_error a k.
Proof.
  induction a as [|y a IH]; intros i x k.
  - simpl. destruct (Nat.eqb k i); destruct k; reflexivity.
  - destruct i as [|i], k as [|k]; simpl; try reflexivity.
    rewrite IH. reflexivity.
Qed.

Lemma read_at_write_at {A : Type} (a a' : list A) (i : Z) (x : A) (k : Z) :
  write_at a i x = Ok a' ->
  read_at a' k = if k =? i then Ok x else read_at a k.
Proof.
  unfold write_at, poke. destruct ((0 <=? i) && (i <? len a)) eqn:E; [|discriminate].
  apply andb_true_iff in E as [E1 E2]. unfold len in E2.
  destruct (i <? 0) eqn:E3; [lia|].
  intros H. injection H as <-. unfold read_at.
  destruct (k <? 0) eqn:Ek.
  - destruct (k =? i) eqn:Eki; [lia | reflexivity].
  - rewrite nth_error_poke_nat.
    destruct (k =? i) eqn:Eki.
    + replace (Nat.eqb (Z.to_nat k) (Z.to_nat i)) with true
        by (symmetry; apply Nat.eqb_eq; lia).
      replace (Nat.ltb (Z.to_nat i) (List.length a)) with true
        by (symmetry; apply Nat.ltb_lt; lia).
      reflexivity.
    + replace (Nat.eqb (Z.to_nat k) (Z.to_nat i)) with false
        by (symmetry; apply Nat.eqb_neq; lia).
      reflexivity.
Qed.

Lemma write_at_in_range {A : Type} (a : list A) (i : Z) (x : A) :
  0 <= i < len a -> exists a', write_at a i x = Ok a'.
Proof.
  intros H. unfold write_at.
  destruct ((0 <=? i) && (i <? len a)) eqn:E; [eauto|].
  apply andb_false_iff in E. lia.
Qed.

Lemma strongly_sorted_nth {A : Type} (R : A -> A -> Prop) (l : list A) :
  StronglySorted R l ->
  forall p q x y, (p < q)%nat ->
    nth_error l p = Some x -> nth_error l q = Some y -> R x y.
Proof.
  induction 1 as [|a l Hs IH Ha]; intros p q x y Hpq Hp Hq.
  - destruct p; discriminate.
  - destruct q as [|q]; [lia|]. simpl in Hq.
    destruct p as [|p]; simpl in Hp.
    + injection Hp as <-. rewrite Forall_forall in Ha.
      apply Ha. eapply nth_error_In; eauto.
    + apply (IH p q x y); [lia | exact Hp | exact Hq].
Qed.

(** A stretch of an array replaced by as many elements. *)
Lemma nth_error_splice {A : Type} (l1 l2 l2' l3 : list A) (p : nat) :
  List.length l2' = List.length l2 ->
  nth_error (l1 ++ l2' ++ l3) p
  = if (Nat.leb (List.length l1) p && Nat.ltb p (List.length l1 + List.length l2))%bool
    then nth_error l2' (p - List.length l1)
    else nth_error (l1 ++ l2 ++ l3) p.
Proof.
  intros Hl.
  destruct (Nat.leb (List.length l1) p) eqn:E1; simpl.
  - apply Nat.leb_le in E1.
    destruct (Nat.ltb p (List.length l1 + List.length l2)) eqn:E2.
    + apply Nat.ltb_lt in E2.
      rewrite nth_error_app2 by lia. rewrite nth_error_app1 by lia. reflexivity.
    + apply Nat.ltb_ge in E2.
      rewrite !(nth_error_app2 l1) by lia.
      rewrite !nth_error_app2 by lia. rewrite Hl. reflexivity.
  - apply Nat.leb_gt in E1. rewrite !nth_error_app1 by lia. reflexivity.
Qed.

Section SortRange.

Variable std_sort : forall A : Type, (A -> A -> bool) -> list A -> list A.
Hypothesis Hsort : conforming_sort std_sort.

Lemma sort_range_spec (a : list Z) (first size : Z) :
  0 <= first -> 0 <= size -> first + size <= len a ->
  len (sort_range std_sort a first size) = len a
  /\ (forall p, p < first \/ first + size <= p ->
                read_at (sort_range std_sort a first size) p = read_at a p)
  /\ ascending_ids (sort_range std_sort a first size) first size
  /\ (forall p x, first <= p < first + size ->
                  read_at (sort_range std_sort a first size) p = Ok x ->
                  exists p', first <= p' < first + size /\ read_at a p' = Ok x).
Proof.
  intros Hf Hs Hl. unfold sort_range.
  set (l1 := firstn (Z.to_nat first) a).
  set (l2 := firstn (Z.to_nat size) (skipn (Z.to_nat first) a)).
  set (l3 := skipn (Z.to_nat (first + size)) a).
  set (l2' := std_sort Z Z.ltb l2).
  destruct (Hsort Z Z.ltb l2 Zltb_swo) as [Hperm Hsorted]. fold l2' in Hperm, Hsorted.
  assert (Ha : a = l1 ++ l2 ++ l3).
  { subst l1 l2 l3.
    rewrite <- (firstn_skipn (Z.to_nat first) a) at 1. f_equal.
    rewrite <- (firstn_skipn (Z.to_nat size) (skipn (Z.to_nat first) a)) at 1. f_equal.
    rewrite skipn_skipn. f_equal. lia. }
  unfold len in Hl.
  assert (H1 : List.length l1 = Z.to_nat first)
    by (subst l1; rewrite length_firstn; lia).
  assert (H2 : List.length l2 = Z.to_nat size)
    by (subst l2; rewrite length_firstn, length_skipn; lia).
  assert (H2' : List.length l2' = List.length l2)
    by (apply Permutation_length, Hperm).
  pose proof (nth_error_splice l1 l2 l2' l3) as Hsp.
  clearbody l1 l2 l3 l2'. subst a.
  split; [|split; [|split]].
  - unfold len. rewrite !length_app. lia.
  - intros p Hp.
    destruct (p <? 0) eqn:E; [unfold read_at; rewrite E; reflexivity|].
    apply read_at_ext. rewrite (Hsp _ H2').
    destruct (Nat.leb (List.length l1) (Z.to_nat p)
              && Nat.ltb (Z.to_nat p) (List.length l1 + List.length l2))%bool eqn:Eb;
      [|reflexivity].
    apply andb_true_iff in Eb as [Eb1 Eb2].
    apply Nat.leb_le in Eb1. apply Nat.ltb_lt in Eb2. lia.
  - intros p x y Hp1 Hp2 Hx Hy.
    apply read_at_nth in Hx as [_ Hx]. apply read_at_nth in Hy as [_ Hy].
    rewrite (Hsp (Z.to_nat p) H2') in Hx. rewrite (Hsp (Z.to_nat (p + 1)) H2') in Hy.
    replace (Nat.leb (List.length l1) (Z.to_nat p)
             && Nat.ltb (Z.to_nat p) (List.length l1 + List.length l2))%bool
      with true in Hx
      by (symmetry; apply andb_true_iff; split;
          [apply Nat.leb_le | apply Nat.ltb_lt]; lia).
    replace (Nat.leb (List.length l1) (Z.to_nat (p + 1))
             && Nat.ltb (Z.to_nat (p + 1)) (List.length l1 + List.length l2))%bool
      with true in Hy
      by (symmetry; apply andb_true_iff; split;
          [apply Nat.leb_le | apply Nat.ltb_lt]; lia).
    pose proof (strongly_sorted_nth _ _ Hsorted
                  (Z.to_nat p - List.length l1) (Z.to_nat (p + 1) - List.length l1)
                  x y ltac:(lia) Hx Hy) as H.
    simpl in H. lia.
  - intros p x Hp Hx.
    apply read_at_nth in Hx as [_ Hx]. rewrite (Hsp _ H2') in Hx.
    replace (Nat.leb (List.length l1) (Z.to_nat p)
             && Nat.ltb (Z.to_nat p) (List.length l1 + List.length l2))%bool
      with true in Hx
      by (symmetry; apply andb_true_iff; split;
          [apply Nat.leb_le | apply Nat.ltb_lt]; lia).
    apply nth_error_In in Hx.
    apply (Permutation_in _ Hperm) in Hx.
    apply In_nth_error in Hx as [q Hq].
    assert (Hql : (q < List.length l2)%nat) by (apply nth_error_Some; congruence).
    exists (first + Z.of_nat q). split; [lia|].
    apply read_at_nth. split; [lia|].
    rewrite nth_error_app2 by lia. rewrite nth_error_app1 by lia.
    rewrite <- Hq. f_equal. lia.
Qed.

End SortRange.

(** ** The scan keeps its lists in order *)

Lemma ascending_ids_ext (pool pool' : list Z) (first size : Z) :
  (forall p, first <= p < first + size -> read_at pool' p = read_at pool p) ->
  ascending_ids pool first size -> ascending_ids pool' first size.
Proof.
  intros He Ha p a b Hp1 Hp2 Hx Hy.
  rewrite He in Hx, Hy by lia. eapply Ha; eauto.
Qed.

Section ScanInvariant.

Variable std_sort : forall A : Type, (A -> A -> bool) -> list A -> list A.
Hypothesis Hsort : conforming_sort std_sort.

Variable pool : list ascii.
Variable W : Z.
Variable isa0 : list trie_record_type.
Variable n : Z.

Hypothesis Hn : n < 2 ^ 32.
Hypothesis Hvals : forall k r, read_at isa0 k = Ok r -> 0 <= dastrie.value r < W.

Lemma dedup_first_scan iindex0 pool0 :
  2 <= n -> len isa0 = n -> len iindex0 = n -> len pool0 = n ->
  exists d,
    dedup_first {| b_i := 0; b_wordid_array_offset := 0; b_suffix_iindex := iindex0;
                   b_dwordid_pool := pool0; b_input_suffix_array := isa0 |} = Ok d
    /\ scan_inv W isa0 n 1 d.
Proof.
  intros Hn2 Hl1 Hl2 Hl3. unfold dedup_first. simpl.
  destruct (read_at_in_range isa0 0) as [r0 Hr0]; [lia|].
  destruct (write_at_in_range pool0 0 (dastrie.value r0)) as [pool1 Hp]; [lia|].
  destruct (write_at_in_range iindex0 0 {| list_offset := 0; list_size := 1 |})
    as [iindex1 Hi]; [lia|].
  destruct (write_at_in_range isa0 0 {| dastrie.key := dastrie.key r0; dastrie.value := 0 |})
    as [isa1 Hs]; [lia|].
  rewrite Hr0. simpl. rewrite Hp. simpl. rewrite Hi. simpl. rewrite Hs. simpl.
  eexists. split; [reflexivity|].
  split; simpl; try lia.
  - rewrite (write_at_len _ _ _ _ Hi). exact Hl2.
  - rewrite (write_at_len _ _ _ _ Hp). exact Hl3.
  - rewrite (write_at_len _ _ _ _ Hs). exact Hl1.
  - intros k r Hk Hr. assert (k = 0) by lia. subst k.
    rewrite (read_at_write_at _ _ _ _ 0 Hs) in Hr. simpl in Hr. injection Hr as <-.
    reflexivity.
  - intros k Hk. rewrite (read_at_write_at _ _ _ _ k Hs).
    destruct (k =? 0) eqn:E; [lia | reflexivity].
  - intros p id Hp0 Hr. assert (p = 0) by lia. subst p.
    rewrite (read_at_write_at _ _ _ _ 0 Hp) in Hr. simpl in Hr. injection Hr as <-.
    apply (Hvals 0), Hr0.
  - exists {| list_offset := 0; list_size := 1 |}.
    rewrite (read_at_write_at _ _ _ _ 0 Hi). simpl.
    repeat split; try lia.
Qed.

Lemma dedup_core_scan j d :
  scan_inv W isa0 n j d -> j < n ->
  exists d', dedup_core std_sort pool j d = Ok d' /\ scan_inv W isa0 n (j + 1) d'.
Proof.
  intros [Hi Hj Hwao Hl1 Hl2 Hl3 Hv Hrest Hvalid (li & Hli & Ho & Hz & Hend & Hdone)] Hjn.
  unfold dedup_core. rewrite Hwao.
  destruct (read_at_in_range (b_input_suffix_array d) j) as [rj Hrj]; [lia|].
  destruct (read_at_in_range (b_input_suffix_array d) (b_i d)) as [ri Hri]; [lia|].
  assert (Hrjv : 0 <= dastrie.value rj < W).
  { apply (Hvals j). rewrite <- Hrest by lia. exact Hrj. }
  rewrite Hrj, Hri. simpl.
  destruct (strcmp _ _ =? 0).
  - destruct (write_at_in_range (b_dwordid_pool d) j (dastrie.value rj)) as [pool1 Hp];
      [lia|].
    destruct (write_at_in_range (b_suffix_iindex d) (b_i d)
                {| list_offset := list_offset li; list_size := wrap32 (list_size li + 1) |})
      as [iindex1 Hx]; [lia|].
    rewrite Hp. simpl. rewrite Hli. simpl. rewrite Hx. simpl.
    eexists. split; [reflexivity|].
    split; simpl; try lia.
    + apply wrap32_small. lia.
    + rewrite (write_at_len _ _ _ _ Hx). exact Hl1.
    + rewrite (write_at_len _ _ _ _ Hp). exact Hl2.
    + exact Hv.
    + intros k Hk. apply Hrest. lia.
    + intros p id Hp0 Hr. rewrite (read_at_write_at _ _ _ _ p Hp) in Hr.
      destruct (p =? j) eqn:E.
      * injection Hr as <-. exact Hrjv.
      * apply (Hvalid p); [lia | exact Hr].
    + eexists. rewrite (read_at_write_at _ _ _ _ (b_i d) Hx), Z.eqb_refl.
      split; [reflexivity|]. simpl. rewrite wrap32_small by lia.
      repeat split; try lia.
      * rewrite (read_at_write_at _ _ _ _ s Hx) in H0.
        destruct (s =? b_i d) eqn:E; [lia|]. apply (Hdone s l); auto.
      * rewrite (read_at_write_at _ _ _ _ s Hx) in H0.
        destruct (s =? b_i d) eqn:E; [lia|]. apply (Hdone s l); auto.
      * rewrite (read_at_write_at _ _ _ _ s Hx) in H0.
        destruct (s =? b_i d) eqn:E; [lia|]. apply (Hdone s l); auto.
      * rewrite (read_at_write_at _ _ _ _ s Hx) in H0.
        destruct (s =? b_i d) eqn:E; [lia|].
        destruct (Hdone s l H H0) as (Ho' & Hz' & He' & Ha').
        eapply ascending_ids_ext; [|exact Ha'].
        intros p Hp0. rewrite (read_at_write_at _ _ _ _ p Hp).
        destruct (p =? j) eqn:E'; [lia | reflexivity].
  - rewrite Hli. simpl.
    destruct (sort_range_spec std_sort Hsort (b_dwordid_pool d) (list_offset li) (list_size li))
      as (Hsl & Hout & Hasc & Hin); try lia.
    set (pool1 := sort_range std_sort (b_dwordid_pool d) (list_offset li) (list_size li)) in *.
    destruct (write_at_in_range pool1 j (dastrie.value rj)) as [pool2 Hp]; [lia|].
    destruct (write_at_in_range (b_suffix_iindex d) (b_i d + 1)
                {| list_offset := j; list_size := 1 |}) as [iindex1 Hx]; [lia|].
    destruct (write_at_in_range (b_input_suffix_array d) (b_i d + 1)
                {| dastrie.key := dastrie.key rj; dastrie.value := wrap32 (b_i d + 1) |})
      as [isa1 Hs]; [lia|].
    rewrite Hp. simpl. rewrite Hx. simpl. rewrite Hs. simpl.
    eexists. split; [reflexivity|].
    split; simpl; try lia.
    + apply wrap32_small. lia.
    + rewrite (write_at_len _ _ _ _ Hx). exact Hl1.
    + rewrite (write_at_len _ _ _ _ Hp). lia.
    + rewrite (write_at_len _ _ _ _ Hs). exact Hl3.
    + intros k r Hk Hr. rewrite (read_at_write_at _ _ _ _ k Hs) in Hr.
      destruct (k =? b_i d + 1) eqn:E.
      * injection Hr as <-. simpl. rewrite wrap32_small by lia. lia.
      * apply Hv; [lia | exact Hr].
    + intros k Hk. rewrite (read_at_write_at _ _ _ _ k Hs).
      destruct (k =? b_i d + 1) eqn:E; [lia|]. apply Hrest. lia.
    + intros p id Hp0 Hr. rewrite (read_at_write_at _ _ _ _ p Hp) in Hr.
      destruct (p =? j) eqn:E; [injection Hr as <-; exact Hrjv|].
      destruct (Z.lt_ge_cases p (list_offset li)) as [Hlt|Hge].
      * rewrite Hout in Hr by lia. apply (Hvalid p); [lia | exact Hr].
      * destruct (Hin p id ltac:(lia) Hr) as (p' & Hp' & Hr').
        apply (Hvalid p'); [lia | exact Hr'].
    + eexists. rewrite (read_at_write_at _ _ _ _ (b_i d + 1) Hx), Z.eqb_refl.
      split; [reflexivity|]. simpl.
      split; [lia|]. split; [lia|]. split; [lia|].
      intros s l Hs0 Hr. rewrite (read_at_write_at _ _ _ _ s Hx) in Hr.
      destruct (s =? b_i d + 1) eqn:E; [lia|].
      destruct (Z.eq_dec s (b_i d)) as [->|Hne].
      * rewrite Hli in Hr. injection Hr as <-.
        split; [lia|]. split; [lia|]. split; [lia|].
        eapply ascending_ids_ext; [|exact Hasc].
        intros p Hp0. rewrite (read_at_write_at _ _ _ _ p Hp).
        destruct (p =? j) eqn:E'; [lia | reflexivity].
      * destruct (Hdone s l ltac:(lia) Hr) as (Ho' & Hz' & He' & Ha').
        split; [lia|]. split; [lia|]. split; [lia|].
        eapply ascending_ids_ext; [|exact Ha'].
        intros p Hp0. rewrite (read_at_write_at _ _ _ _ p Hp).
        destruct (p =? j) eqn:E'; [lia|]. apply Hout. lia.
Qed.

Lemma dedup_loop_scan m :
  forall j d,
    scan_inv W isa0 n j d -> 2 <= j -> j + Z.of_nat m = n ->
    exists d', dedup_loop std_sort pool m j d = Ok d' /\ scan_inv W isa0 n n d'.
Proof.
  induction m as [|m IH]; intros j d Hinv Hj Hm.
  - exists d. split; [reflexivity|]. replace j with n in Hinv by lia. exact Hinv.
  - cbn [dedup_loop]. unfold dedup_step.
    destruct (j =? 1) eqn:E; [lia|]. simpl.
    destruct (dedup_core_scan j d Hinv ltac:(lia)) as (d1 & Hc & Hinv1).
    rewrite Hc. simpl. apply IH; auto; lia.
Qed.

(** With two suffix records or more the scan ends, with its invariant. *)
Lemma dedup_scan iindex0 pool0 :
  2 <= n -> len isa0 = n -> len iindex0 = n -> len pool0 = n ->
  exists d,
    dedup_loop std_sort pool (Z.to_nat (n - 1)) 1
      {| b_i := 0; b_wordid_array_offset := 0; b_suffix_iindex := iindex0;
         b_dwordid_pool := pool0; b_input_suffix_array := isa0 |} = Ok d
    /\ scan_inv W isa0 n n d.
Proof.
  intros Hn2 Hl1 Hl2 Hl3.
  destruct (Z.to_nat (n - 1)) as [|m] eqn:Em; [lia|].
  cbn [dedup_loop]. unfold dedup_step. simpl (1 =? 1).  cbv iota.
  destruct (dedup_first_scan iindex0 pool0 Hn2 Hl1 Hl2 Hl3) as (d1 & Hf & Hinv1).
  rewrite Hf. simpl.
  destruct (dedup_core_scan 1 d1 Hinv1 ltac:(lia)) as (d2 & Hc & Hinv2).
  rewrite Hc. simpl.
  apply (dedup_loop_scan m 2 d2 Hinv2); lia.
Qed.

End ScanInvariant.

(** ** Engines made by [build] are well formed *)

Lemma list_ok_intro (e : ComSubstrSearch) (l : dword_list_type) :
  0 <= list_offset l -> 0 <= list_size l < 2 ^ 31 ->
  readable e (list_offset l) (list_offset l + list_size l) ->
  (forall p dw1 dw2,
      list_offset l <= p -> p + 1 < list_offset l + list_size l ->
      dword_at e p = Ok dw1 -> dword_at e (p + 1) = Ok dw2 ->
      dword_size dw1 <= dword_size dw2) ->
  list_ok e l = true.
Proof.
  intros Ho Hz Hr Ha. unfold list_ok.
  repeat (apply andb_true_iff; split); try lia.
  - apply forallb_forall. intros k Hk. apply in_seq in Hk.
    unfold size_at. destruct (Hr (list_offset l + Z.of_nat k)) as [dw ->]; [lia|].
    reflexivity.
  - apply forallb_forall. intros k Hk. apply in_seq in Hk.
    unfold ascending_at, size_at.
    destruct (Hr (list_offset l + Z.of_nat k)) as [dw1 H1]; [lia|].
    destruct (Hr (list_offset l + Z.of_nat k + 1)) as [dw2 H2]; [lia|].
    rewrite H1, H2. apply Z.leb_le. eapply Ha; eauto; lia.
Qed.

Lemma in_firstn_nth {A : Type} (l : list A) :
  forall i r, In r (firstn i l) ->
    exists k, (k < i)%nat /\ nth_error l k = Some r.
Proof.
  induction l as [|x l IH]; intros [|i] r H; simpl in H; try contradiction.
  destruct H as [<-|H].
  - exists 0%nat. split; [lia | reflexivity].
  - destruct (IH i r H) as (k & Hk & Hn). exists (S k). split; [lia | exact Hn].
Qed.

Lemma fresh_array_len {A : Type} (junk : Z -> A) (n : Z) :
  0 <= n -> len (fresh_array junk n) = n.
Proof.
  intros H. unfold len, fresh_array. rewrite length_map, length_seq. lia.
Qed.

Lemma all_suffixes_values this dwords_array :
  forall i r,
    In r (all_suffixes this i dwords_array) ->
    i <= dastrie.value r < i + len dwords_array.
Proof.
  induction dwords_array as [|dw rest IH]; intros i r H; simpl in H; [contradiction|].
  rewrite len_cons. pose proof (len_nonneg rest).
  apply in_app_or in H as [H|H].
  - unfold suffixes_of in H. apply in_map_iff in H as (j & <- & _).
    cbn [dastrie.value]. lia.
  - apply IH in H. lia.
Qed.

(** In an array sorted by [operator <] of [dword_type] a larger word id
    means a key at least as long. *)
Lemma sorted_dwords_sizes (dwords_array : list dword_type) (a b : Z) dwa dwb :
  sorted_by dword_lt dwords_array ->
  a <= b ->
  read_at dwords_array a = Ok dwa -> read_at dwords_array b = Ok dwb ->
  dword_size dwa <= dword_size dwb.
Proof.
  intros Hs Hab Ha Hb.
  apply read_at_nth in Ha as [Ha0 Ha]. apply read_at_nth in Hb as [Hb0 Hb].
  destruct (Z.eq_dec a b) as [->|Hne].
  - rewrite Ha in Hb. injection Hb as ->. lia.
  - pose proof (strongly_sorted_nth _ _ Hs (Z.to_nat a) (Z.to_nat b) dwa dwb
                  ltac:(lia) Ha Hb) as H.
    unfold dword_lt in H. lia.
Qed.

(** For every dictionary with fewer than 2^31 suffix records [build]
    returns, and the engine it leaves in memory is well formed: every
    inverted list the trie refers to lies in the pool, names words of the
    array and ascends by key length. *)
Theorem build_well_formed
    (std_sort : forall A : Type, (A -> A -> bool) -> list A -> list A)
    (junk : uninitialised) (dat_size : suffix_trie_type -> Z)
    (this : ComSubstrSearch) (dict : list ascii) :
  conforming_sort std_sort ->
  len (suffix_records std_sort junk this dict) < 2 ^ 31 ->
  existsb (fun c => Ascii.eqb c NUL) (m_char_table this) = true ->
  exists b,
    build std_sort junk dat_size this dict "" = Ok b
    /\ status b = 0
    /\ (len (m_tail (trie (engine b))) < 2 ^ 32 -> wf_engine (engine b) = true).
Proof.
  intros Hsort Hn Htable. unfold suffix_records in Hn. unfold build.
  destruct (read_lines (getlines [] dict) (fresh_array (junk_char junk) (len dict)) 0 [])
    as [[pool offset] dwords0].
  set (dwords_array := std_sort dword_type dword_lt dwords0) in *.
  set (isa0 := std_sort trie_record_type (suffix_cmp pool)
                 (all_suffixes this 0 dwords_array)) in *.
  set (n := len isa0) in *.
  assert (Hn0 : 0 <= n) by apply len_nonneg.
  destruct (Hsort dword_type dword_lt dwords0 dword_lt_swo) as [_ Hdsorted].
  fold dwords_array in Hdsorted.
  destruct (Z.lt_ge_cases n 2) as [Hsmall|Hbig].
  - (* no scan: the builder gets no record *)
    replace (Z.to_nat (n - 1)) with 0%nat by lia. simpl.
    eexists. split; [reflexivity|]. split; [reflexivity|].
    simpl. intros Htail. unfold wf_engine. simpl.
    rewrite Htable. simpl. apply Z.ltb_lt. reflexivity.
  - destruct (dedup_scan std_sort Hsort pool (len dwords_array) isa0 n ltac:(lia))
      with (iindex0 := fresh_array (junk_list junk) n)
           (pool0 := fresh_array (junk_id junk) n)
      as (d & Hd & Hinv); auto using fresh_array_len.
    { intros k r Hr. apply read_at_Ok in Hr as [_ Hr].
      destruct (Hsort trie_record_type (suffix_cmp pool)
                  (all_suffixes this 0 dwords_array) (suffix_cmp_swo pool)) as [Hperm _].
      apply (Permutation_in _ Hperm) in Hr.
      apply all_suffixes_values in Hr. lia. }
    rewrite Hd. simpl.
    eexists. split; [reflexivity|]. split; [reflexivity|].
    simpl. intros Htail.
    destruct Hinv as [Hi Hj Hwao Hl1 Hl2 Hl3 Hv Hrest Hvalid (li & Hli & Ho & Hz & Hend & Hdone)].
    set (records := firstn (Z.to_nat (b_i d)) (b_input_suffix_array d)) in *.
    assert (Hrec : forall r, In r records -> 0 <= dastrie.value r < b_i d).
    { intros r Hr. apply in_firstn_nth in Hr as (k & Hk & Hnth).
      assert (Hread : read_at (b_input_suffix_array d) (Z.of_nat k) = Ok r)
        by (apply read_at_nth; rewrite Nat2Z.id; split; [lia | exact Hnth]).
      rewrite (Hv (Z.of_nat k) r ltac:(lia) Hread). lia. }
    unfold wf_engine. simpl. rewrite Htable.
    apply andb_true_iff. split; [|apply Z.ltb_lt; exact Htail].
    rewrite andb_true_r. apply forallb_forall. intros s Hs.
    apply dat_build_stored in Hs.
    2:{ apply Forall_forall. intros r Hr. apply Hrec in Hr. lia. }
    apply in_map_iff in Hs as (r & <- & Hr). apply Hrec in Hr.
    unfold suffixid_ok. simpl.
    rewrite wrap32_small by lia.
    destruct (dastrie.value r <? b_i d + 1) eqn:E; [|lia].
    destruct (read_at_in_range (b_suffix_iindex d) (dastrie.value r)) as [l Hl]; [lia|].
    rewrite Hl.
    destruct (Hdone (dastrie.value r) l ltac:(lia) Hl) as (Ho' & Hz' & He' & Ha').
    assert (Hreadable :
              forall p, list_offset l <= p < list_offset l + list_size l ->
                        exists id dw,
                          read_at (b_dwordid_pool d) p = Ok id
                          /\ read_at dwords_array id = Ok dw).
    { intros p Hp.
      destruct (read_at_in_range (b_dwordid_pool d) p) as [id Hid]; [lia|].
      destruct (read_at_in_range dwords_array id) as [dw Hdw];
        [apply (Hvalid p); [lia | exact Hid]|].
      eauto. }
    apply list_ok_intro; try lia.
    + intros p Hp. destruct (Hreadable p Hp) as (id & dw & Hid & Hdw).
      exists dw. unfold dword_at. simpl. rewrite Hid. simpl. exact Hdw.
    + intros p dw1 dw2 Hp1 Hp2 H1 H2.
      destruct (Hreadable p ltac:(lia)) as (id1 & dw1' & Hid1 & Hdw1).
      destruct (Hreadable (p + 1) ltac:(lia)) as (id2 & dw2' & Hid2 & Hdw2).
      unfold dword_at in H1, H2. simpl in H1, H2.
      rewrite Hid1 in H1. rewrite Hid2 in H2. simpl in H1, H2.
      eapply sorted_dwords_sizes; [exact Hdsorted | | exact H1 | exact H2].
      eapply Ha'; eauto.
Qed.

(** A search on an engine that [build] made: it returns, within the caps
    on the number of results, and with results of words whose key length
    is within the bounds of the query. *)
Corollary built_engine_searches
    (std_sort : forall A : Type, (A -> A -> bool) -> list A -> list A)
    (junk : uninitialised) (dat_size : suffix_trie_type -> Z)
    (this : ComSubstrSearch) (dict : list ascii) :
  conforming_sort std_sort ->
  len (suffix_records std_sort junk this dict) < 2 ^ 31 ->
  existsb (fun c => Ascii.eqb c NUL) (m_char_table this) = true ->
  exists b,
    build std_sort junk dat_size this dict "" = Ok b
    /\ (len (m_tail (trie (engine b))) < 2 ^ 32 ->
        forall query v tpos,
          0 <= limit query -> answered query = true ->
          exists n v' tpos',
            search (engine b) query (Some v) tpos = Ok (n, Some v', tpos')
            /\ Forall (sound (engine b) query) v'
            /\ (average_limit query = false -> len v' <= limit query)
            /\ (average_limit query = true ->
                len v' <= limit query
                          * (len (word query) - min_common_len query + 1))).
Proof.
  intros Hsort Hn Htable.
  destruct (build_well_formed std_sort junk dat_size this dict Hsort Hn Htable)
    as (b & Hb & _ & Hwf).
  exists b. split; [exact Hb|].
  intros Htail query v tpos Hl Ha.
  destruct (search_answered (engine b) (Hwf Htail) query v tpos Hl Ha)
    as (n0 & v' & tpos' & Hs & _ & _ & F & Hn1 & Hn2).
  exists n0, v', tpos'. auto.
Qed.

(** ** The scenario of the three "youthful" words *)

(** C1, as stated, fails: the engine built from the three words answers
    the query "youthe" with five results, two for the match "youth" at
    offset 0 and three for the match "outh" that the offset 1 of the
    query finds. *)
Lemma scenario1_five_results :
  exists b v tpos,
    youth = Ok b
    /\ search (engine b) youth_query (Some []) 0 = Ok (5, Some v, tpos)
    /\ map (report (engine b)) v =
       [("youthful"%string, 5, 0); ("youthfully"%string, 5, 0);
        ("youthful"%string, 4, 1); ("youthfully"%string, 4, 1);
        ("youthfulness"%string, 4, 1)].
Proof.
  eexists. eexists. eexists.
  split; [vm_compute; reflexivity|].
  split; vm_compute; reflexivity.
Qed.

(** C1, amended.  The engine built from the three words (a dictionary
    file on which [build] stays inside its pool) answers the query
    "youthe" with five or six results, no two of them alike.  Each
    names one of the three words and reports either the match "youth"
    (length 5, at 0 in the word) or the match "outh" (length 4, at 1 in
    the word) that offset 1 of the query finds; "youthful" and
    "youthfully" are reported with the first, all three words with the
    second. *)
Theorem scenario1_results
    (std_sort : forall A : Type, (A -> A -> bool) -> list A -> list A)
    (junk : uninitialised) (dat_size : suffix_trie_type -> Z) :
  conforming_sort std_sort ->
  exists b n v tpos,
    defined_build (ComSubstrSearch_new (1 # 2) 2) youth_file = true
    /\ build std_sort junk dat_size (ComSubstrSearch_new (1 # 2) 2) youth_file "" = Ok b
    /\ search (engine b) youth_query (Some []) 0 = Ok (n, Some v, tpos)
    /\ n = len v
    /\ 5 <= n <= 6
    /\ NoDup (map (report (engine b)) v)
    /\ incl (map (report (engine b)) v) youth_reports
    /\ incl [("youthful"%string, 5, 0); ("youthfully"%string, 5, 0);
             ("youthful"%string, 4, 1); ("youthfully"%string, 4, 1);
             ("youthfulness"%string, 4, 1)]
            (map (report (engine b)) v).
Proof.
  intros Hsort.
  rewrite (build_sort_irrelevant std_sort Hsort) by (vm_compute; reflexivity).
  do 4 eexists.
  split; [vm_compute; reflexivity|].
  split; [vm_compute; reflexivity|].
  split; [vm_compute; reflexivity|].
  split; [vm_compute; reflexivity|].
  split; [vm_compute; split; discriminate|].
  split.
  - vm_compute.
    repeat (apply NoDup_cons;
            [intros Hin; repeat (destruct Hin as [Hin|Hin]; [discriminate Hin|]); exact Hin|]).
    apply NoDup_nil.
  - split; vm_compute; intros x H; intuition.
Qed.

Lemma scenario1_results_witness :
  exists b n v tpos,
    defined_build (ComSubstrSearch_new (1 # 2) 2) youth_file = true
    /\ build insertion_sort zero_junk (fun _ => 1) (ComSubstrSearch_new (1 # 2) 2)
         youth_file "" = Ok b
    /\ search (engine b) youth_query (Some []) 0 = Ok (n, Some v, tpos)
    /\ n = len v
    /\ 5 <= n <= 6
    /\ NoDup (map (report (engine b)) v)
    /\ incl (map (report (engine b)) v) youth_reports
    /\ incl [("youthful"%string, 5, 0); ("youthfully"%string, 5, 0);
             ("youthful"%string, 4, 1); ("youthfully"%string, 4, 1);
             ("youthfulness"%string, 4, 1)]
            (map (report (engine b)) v).
Proof.
  apply (scenario1_results insertion_sort zero_junk (fun _ => 1)).
  exact insertion_sort_conforming.
Defined.

(** C2, as stated, fails: a query with limit 1 whose word is shorter than
    [min_common_len] leaves in the vector the five results that were
    there before the call. *)
Lemma short_word_keeps_vector :
  wf_engine youth_engine = true
  /\ 0 < limit short_query
  /\ average_limit short_query = false
  /\ search youth_engine short_query (Some five_stale) 0 = Ok (0, Some five_stale, 0)
  /\ ~ len five_stale <= limit short_query.
Proof.
  split; [vm_compute; reflexivity|].
  split; [reflexivity|]. split; [reflexivity|].
  split; [vm_compute; reflexivity|].
  vm_compute. intros H. apply H. reflexivity.
Qed.

(** C4.  With a char table that [set_char_table] accepts and that does
    not start with the NUL byte, the two traversals disagree although the
    limit is far away: the breadth-first search finds nothing, the
    depth-first search finds "abcd". *)
Lemma traversals_differ_when_nul_not_first :
  exists b e r tpos tpos',
    abcd = Ok b
    /\ set_char_table (engine b) nul_last_table = (0, e)
    /\ search e (abx_query false) (Some []) 0 = Ok (0, Some [], tpos)
    /\ search e (abx_query true) (Some []) 0 = Ok (1, Some [r], tpos')
    /\ report e r = ("abcd"%string, 2, 0).
Proof.
  do 5 eexists.
  split; [vm_compute; reflexivity|].
  split; [vm_compute; reflexivity|].
  split; [vm_compute; reflexivity|].
  split; vm_compute; reflexivity.
Qed.

(** C5.  Under a sort that leaves equivalent records in reverse order,
    the list of the last suffix, "zz", is [1; 0]: the word of length 3
    comes before the word of length 2. *)
Lemma last_list_not_sorted :
  exists b l,
    build_in_memory reversing_sort (1 # 2) 2 zz_dict = Ok b
    /\ map (suffix_of (engine b)) (suffix_array b) = ["azz"%string; "zz"%string]
    /\ m_suffix_iindex_size (engine b) = 2
    /\ read_at (m_suffix_iindex (engine b)) 1 = Ok l
    /\ firstn 2 (skipn (Z.to_nat (list_offset l)) (m_dwordid_pool (engine b))) = [1; 0]
    /\ key_lens (engine b) l = [Some 3; Some 2].
Proof.
  do 2 eexists.
  split; [vm_compute; reflexivity|].
  split; [vm_compute; reflexivity|].
  split; [vm_compute; reflexivity|].
  split; [vm_compute; reflexivity|].
  split; vm_compute; reflexivity.
Qed.

(** C6.  The record range [build] gives the DAT builder stops before the
    last distinct suffix: of the eighteen suffixes of the three words,
    "youthfulness", the last in byte order, is left out. *)
Lemma last_suffix_not_in_trie :
  exists b,
    youth = Ok b
    /\ len (suffix_array b) = 18
    /\ last (map (suffix_of (engine b)) (suffix_array b)) EmptyString = "youthfulness"%string
    /\ len (trie_records b) = 17
    /\ ~ In "youthfulness"%string (map (suffix_of (engine b)) (trie_records b))
    /\ node_of (trie (engine b)) (Some (list_ascii_of_string "youthfull")) <> None
    /\ node_of (trie (engine b)) (Some (list_ascii_of_string "youthfuln")) = None.
Proof.
  eexists.
  split; [vm_compute; reflexivity|].
  split; [vm_compute; reflexivity|].
  split; [vm_compute; reflexivity|].
  split; [vm_compute; reflexivity|].
  split.
  - vm_compute. intros H.
    repeat (destruct H as [H|H]; [discriminate H|]). exact H.
  - split; vm_compute; congruence.
Qed.

(** C9.  [build] with the ratio 2, outside (0, 1], reports status 0: it
    goes on with the ratio, which leaves no suffix at all to index. *)
Lemma build_accepts_ratio_two :
  exists b,
    build_in_memory insertion_sort (2 # 1) 2 youth_dict = Ok b
    /\ status b = 0
    /\ suffix_array b = []
    /\ get_dwords_num (engine b) = 3.
Proof.
  eexists. split; [vm_compute; reflexivity|].
  repeat split; vm_compute; reflexivity.
Qed.

(** C10, as stated, fails: a query with [limit = 0] leaves in the vector
    the result that was there before the call. *)
Lemma zero_limit_keeps_vector :
  search (engine_of youth) zero_limit_query (Some [stale_result]) 0
  = Ok (0, Some [stale_result], 0).
Proof. vm_compute. reflexivity. Qed.

(** ** Instances *)

Lemma search_limit_cap_witness :
  exists n v' tpos',
    search youth_engine youth_query (Some [stale_result]) 0 = Ok (n, Some v', tpos')
    /\ (min_common_len youth_query <= len (word youth_query) ->
        (average_limit youth_query = false -> len v' <= limit youth_query)
        /\ (average_limit youth_query = true ->
            len v' <= limit youth_query
                      * (len (word youth_query) - min_common_len youth_query + 1)))
    /\ (len (word youth_query) < min_common_len youth_query -> n = 0 /\ v' = [stale_result]).
Proof.
  apply (search_limit_cap youth_engine youth_query [stale_result] 0);
    vm_compute; congruence.
Defined.


Lemma search_output_buffer_witness :
  search (engine_of youth) youth_query None 0 = Ok (0, None, 0)
  /\ (answered youth_query = false ->
      search (engine_of youth) youth_query (Some [stale_result]) 0
      = Ok (0, Some [stale_result], 0))
  /\ (answered youth_query = true ->
      exists n v' tpos',
        search (engine_of youth) youth_query (Some [stale_result]) 0
        = Ok (n, Some v', tpos')
        /\ search (engine_of youth) youth_query (Some []) 0 = Ok (n, Some v', tpos')
        /\ (com_prefix_only youth_query = false -> n = wrap32 (len v'))).
Proof.
  apply (search_output_buffer (engine_of youth) youth_query [stale_result] 0);
    vm_compute; reflexivity.
Defined.

(** ** The loader *)

(** C7, as stated, fails: after the word pool block comes a wrong tag;
    [read] returns 0, and the engine holds the trie and the five bytes of
    the pool. *)
Lemma failed_read_keeps_pool :
  let r := read no_junk four_nul (ComSubstrSearch_new (1 # 2) 2)
             (Some bad_tag_db) in
  stopped_at r = Some DWAR
  /\ used_size r = 0
  /\ m_dwords_pool (after r) = list_ascii_of_string "ab" ++ [NUL] ++ list_ascii_of_string "1" ++ [NUL]
  /\ m_dwords_pool_size (after r) = 5.
Proof. vm_compute. repeat split; reflexivity. Qed.

Lemma clear_empties this :
  m_dwords_pool (clear this) = [] /\ m_dwords_array (clear this) = []
  /\ m_dwordid_pool (clear this) = [] /\ m_suffix_iindex (clear this) = [].
Proof. repeat split; reflexivity. Qed.

(** C7, amended.  Whenever [read] stops at a block tag that is missing or
    wrong it returns 0.  The engine is not reset: it holds the trie of the
    file, the word pool when the tag is not the first one, and nothing
    for the block of the tag and the blocks after it. *)
Theorem read_stops_at_bad_tag (junk : Z -> ascii) (chunk0 : list ascii)
    (this : ComSubstrSearch) (db : option db_file) (t : block_tag) :
  stopped_at (read junk chunk0 this db) = Some t ->
  let r := read junk chunk0 this db in
  used_size r = 0
  /\ (exists f tr dat_read,
        db = Some f /\ db_dat f = Some (tr, dat_read) /\ trie (after r) = tr
        /\ (t <> DWDP ->
            exists ifs chunk block_size pool,
              read_block junk DWDP 1 (blocks_stream f dat_read) chunk0 0
              = (ifs, chunk, block_size, Some pool)
              /\ m_dwords_pool (after r) = pool
              /\ m_dwords_pool_size (after r) = block_size))
  /\ (t = DWDP -> m_dwords_pool (after r) = [])
  /\ (t = DWDP \/ t = DWAR -> m_dwords_array (after r) = [])
  /\ (t <> IIND -> m_dwordid_pool (after r) = [])
  /\ m_suffix_iindex (after r) = [].
Proof.
  unfold read.
  destruct db as [f|]; [|discriminate].
  destruct (db_dat f) as [[tr dat_read]|] eqn:Hdat; [|discriminate].
  destruct (dat_read >? 0); [|discriminate].
  fold (blocks_stream f dat_read).
  destruct (read_block junk DWDP 1 (blocks_stream f dat_read) chunk0 0)
    as [[[ifs1 chunk1] bs1] [pool|]] eqn:H1.
  2:{ simpl. intros H. injection H as <-.
      split; [reflexivity|].
      split; [exists f, tr, dat_read; repeat split; auto; congruence|].
      repeat split; reflexivity. }
  assert (Hpool : exists f0 tr0 dat_read0,
             Some f = Some f0 /\ db_dat f0 = Some (tr0, dat_read0) /\ tr = tr0
             /\ (t <> DWDP ->
                 exists ifs chunk block_size pool0,
                   read_block junk DWDP 1 (blocks_stream f0 dat_read0) chunk0 0
                   = (ifs, chunk, block_size, Some pool0)
                   /\ pool = pool0 /\ bs1 = block_size)).
  { exists f, tr, dat_read. repeat split; auto.
    intros _. exists ifs1, chunk1, bs1, pool. auto. }
  destruct (read_block junk DWAR 8 ifs1 chunk1 bs1) as [[[ifs2 chunk2] bs2] [buf2|]] eqn:H2.
  2:{ simpl. intros H. injection H as <-.
      split; [reflexivity|].
      split; [exact Hpool|].
      repeat split; try reflexivity; discriminate. }
  destruct (read_block junk IDAR 4 ifs2 chunk2 bs2) as [[[ifs3 chunk3] bs3] [buf3|]] eqn:H3.
  2:{ simpl. intros H. injection H as <-.
      split; [reflexivity|].
      split; [exact Hpool|].
      repeat split; try reflexivity; try discriminate.
      intros [?|?]; discriminate. }
  destruct (read_block junk IIND 8 ifs3 chunk3 bs3) as [[[ifs4 chunk4] bs4] [buf4|]] eqn:H4.
  2:{ simpl. intros H. injection H as <-.
      split; [reflexivity|].
      split; [exact Hpool|].
      repeat split; try reflexivity; try discriminate.
      - intros [?|?]; discriminate.
      - intros H. exfalso. apply H. reflexivity. }
  simpl. discriminate.
Qed.

Lemma read_stops_at_bad_tag_witness :
  let r := read no_junk four_nul (ComSubstrSearch_new (1 # 2) 2)
             (Some bad_tag_db) in
  used_size r = 0
  /\ (exists f tr dat_read,
        Some bad_tag_db = Some f /\ db_dat f = Some (tr, dat_read) /\ trie (after r) = tr
        /\ (DWAR <> DWDP ->
            exists ifs chunk block_size pool,
              read_block no_junk DWDP 1 (blocks_stream f dat_read) four_nul 0
              = (ifs, chunk, block_size, Some pool)
              /\ m_dwords_pool (after r) = pool
              /\ m_dwords_pool_size (after r) = block_size))
  /\ (DWAR = DWDP -> m_dwords_pool (after r) = [])
  /\ (DWAR = DWDP \/ DWAR = DWAR -> m_dwords_array (after r) = [])
  /\ (DWAR <> IIND -> m_dwordid_pool (after r) = [])
  /\ m_suffix_iindex (after r) = [].
Proof.
  apply (read_stops_at_bad_tag no_junk four_nul
           (ComSubstrSearch_new (1 # 2) 2) (Some bad_tag_db) DWAR).
  vm_compute. reflexivity.
Defined.

(** ** The empty dictionary *)


Section EmptyTrie.

Variable e : ComSubstrSearch.
Hypothesis Hempty : m_da (trie e) = Interior [].

Lemma descend_empty cur0 c : descend (trie e) cur0 c = INVALID_INDEX.
Proof.
  destruct cur0 as [path|]; [|reflexivity]. simpl. rewrite Hempty.
  destruct path as [|c' path]; reflexivity.
Qed.

Lemma walk_empty query fuel cur0 match_len trie_index_stack result_num st :
  len (word query) - match_len <= Z.of_nat fuel ->
  exists match_len',
    walk e query fuel cur0 match_len trie_index_stack result_num st
    = Ok {| we_result_num := result_num; we_match_len := match_len';
            we_stack := trie_index_stack; we_memory := st |}.
Proof.
  intros Hfuel.
  destruct fuel as [|fuel]; cbn [walk];
    destruct ((match_len <? len (word query)) && (match_len <=? max_dword_len query))
      eqn:Hc;
    try (eexists; reflexivity).
  - apply andb_true_iff in Hc. lia.
  - rewrite descend_empty. eexists. reflexivity.
Qed.

Lemma compre_search_empty query st : compre_search e query st = Ok (0, st).
Proof.
  unfold compre_search.
  destruct ((min_common_len query >? len (word query))
            || (min_common_len query >? max_dword_len query)); [reflexivity|].
  replace (get_base (trie e) INITIAL_INDEX) with 1
    by (unfold get_base; simpl; rewrite Hempty; reflexivity).
  change (1 <? 0) with false. cbv iota.
  destruct (walk_empty query (List.length (word query)) INITIAL_INDEX 0 [] 0 st) as [m Hw];
    [unfold len; lia|].
  rewrite Hw. reflexivity.
Qed.

Lemma search_loop_empty query :
  forall n suffixq i st, search_loop e query suffixq n i 0 st = Ok (0, st).
Proof.
  induction n as [|n IH]; intros suffixq i st; [reflexivity|].
  cbn [search_loop]. rewrite compre_search_empty. unfold bind.
  change (wrap32 (0 + 0)) with 0. apply IH.
Qed.

Lemma empty_trie_finds_nothing : finds_nothing e.
Proof.
  intros query v tpos. unfold search, answered.
  destruct ((len (word query) <? min_common_len query) || (limit query =? 0));
    [reflexivity|].
  simpl negb. cbv iota.
  destruct (com_prefix_only query).
  - rewrite compre_search_empty. reflexivity.
  - rewrite search_loop_empty. reflexivity.
Qed.

End EmptyTrie.



(** * Further properties of the code *)

(** ** [lower_bound] and [retrieve_dword] on an ascending list *)

Section Retrieval.

Variable e : ComSubstrSearch.

(** X1.  On an inverted list that lies in the pool and ascends by key
    length, [lower_bound] returns a position of the list (or its end)
    that splits it: every word before it is shorter than [dwordlen], and
    no word from it on is. *)
Theorem lower_bound_partitions (l : dword_list_type) (dwordlen : Z) :
  list_ok e l = true ->
  exists pos,
    lower_bound e (list_offset l) (list_offset l + list_size l) dwordlen = Ok pos
    /\ list_offset l <= pos <= list_offset l + list_size l
    /\ (forall i dw, list_offset l <= i < pos -> dword_at e i = Ok dw ->
                     dword_size dw < dwordlen)
    /\ (forall i dw, pos <= i < list_offset l + list_size l -> dword_at e i = Ok dw ->
                     dwordlen <= dword_size dw).
Proof.
  intros Hok. pose proof (list_ok_bounds e l Hok) as [H0 H1].
  unfold lower_bound.
  replace (list_offset l + list_size l - list_offset l) with (list_size l) by lia.
  rewrite to_int32_small by lia.
  destruct (lower_bound_loop_spec e dwordlen (list_offset l) (list_offset l + list_size l)
              (list_ok_readable e l Hok) (list_ok_ascending e l Hok)
              (Z.to_nat (list_size l)) (list_offset l) (list_size l))
    as (pos & Hp & Hr & Hb & Ha); try lia.
  exists pos. repeat split; auto; lia.
Qed.

Lemma words_from_app (i : Z) (a b : nat) :
  words_from e i (a + b) = words_from e i a ++ words_from e (i + Z.of_nat a) b.
Proof.
  revert i. induction a as [|a IH]; intros i.
  - simpl. rewrite Z.add_0_r. reflexivity.
  - cbn [Nat.add words_from]. rewrite IH.
    replace (i + 1 + Z.of_nat a) with (i + Z.of_nat (S a)) by lia.
    destruct (dword_at e i); reflexivity.
Qed.

Lemma words_from_below (query : Query) (n : nat) :
  forall i,
    (forall j dw, i <= j < i + Z.of_nat n -> dword_at e j = Ok dw ->
                  dword_size dw < min_dword_len query) ->
    filter (within query) (words_from e i n) = [].
Proof.
  induction n as [|n IH]; intros i Hlow; [reflexivity|].
  cbn [words_from].
  assert (Hrest : filter (within query) (words_from e (i + 1) n) = []).
  { apply IH. intros j dw Hj. apply Hlow. lia. }
  destruct (dword_at e i) as [dw| |] eqn:Hdw; auto.
  cbn [filter]. unfold within at 1.
  pose proof (Hlow i dw ltac:(lia) Hdw) as Hlt.
  replace (min_dword_len query <=? dword_size dw) with false by (symmetry; lia).
  exact Hrest.
Qed.

Lemma words_from_above (query : Query) (n : nat) :
  forall i,
    (forall j dw, i <= j < i + Z.of_nat n -> dword_at e j = Ok dw ->
                  max_dword_len query < dword_size dw) ->
    filter (within query) (words_from e i n) = [].
Proof.
  induction n as [|n IH]; intros i Hhigh; [reflexivity|].
  cbn [words_from].
  assert (Hrest : filter (within query) (words_from e (i + 1) n) = []).
  { apply IH. intros j dw Hj. apply Hhigh. lia. }
  destruct (dword_at e i) as [dw| |] eqn:Hdw; auto.
  cbn [filter]. unfold within at 1.
  pose proof (Hhigh i dw ltac:(lia) Hdw) as Hlt.
  replace (dword_size dw <=? max_dword_len query) with false by (symmetry; lia).
  rewrite andb_false_r. exact Hrest.
Qed.

(** The loop of [retrieve_dword] from a position whose words are all long
    enough: it pushes the words that are not too long, as many as the
    limit leaves room for. *)
Lemma retrieve_loop_exact (query : Query) (match_len suffix_len : Z) :
  forall n i result_num st,
    readable e i (i + Z.of_nat n) ->
    ascending e i (i + Z.of_nat n) ->
    (forall j dw, i <= j < i + Z.of_nat n -> dword_at e j = Ok dw ->
                  min_dword_len query <= dword_size dw) ->
    len (results st) < limit query ->
    let found := firstn (Z.to_nat (limit query - len (results st)))
                   (filter (within query) (words_from e i n)) in
    retrieve_loop e query match_len suffix_len n i result_num st
    = Ok (result_num + len found,
          {| results := results st
                        ++ map (fun dw => make_result dw match_len suffix_len) found;
             tail_pos := tail_pos st |}).
Proof.
  induction n as [|n IH]; intros i result_num st Hread Hasc Hmin Hlim found.
  - subst found. cbn [words_from filter]. rewrite firstn_nil.
    cbn [map retrieve_loop]. rewrite app_nil_r, len_nil, Z.add_0_r.
    destruct st; reflexivity.
  - destruct (Hread i) as [dw Hdw]; [lia|].
    cbn [retrieve_loop]. unfold bind at 1. rewrite Hdw.
    subst found. cbn [words_from]. rewrite Hdw. cbn [filter].
    pose proof (Hmin i dw ltac:(lia) Hdw) as Hge.
    destruct (dword_size dw >? max_dword_len query) eqn:Hmax.
    + assert (Hw : within query dw = false).
      { unfold within. apply andb_false_iff. right. lia. }
      rewrite Hw, words_from_above.
      * rewrite firstn_nil. cbn [map]. rewrite app_nil_r, len_nil, Z.add_0_r.
        destruct st; reflexivity.
      * intros j dwj Hj Hdwj.
        pose proof (Hasc i j dw dwj ltac:(lia) ltac:(lia) ltac:(lia) Hdw Hdwj). lia.
    + assert (Hw : within query dw = true).
      { unfold within. apply andb_true_iff. split; lia. }
      rewrite Hw.
      set (r := make_result dw match_len suffix_len).
      assert (Hroom : Z.to_nat (limit query - len (results st))
                      = S (Z.to_nat (limit query - len (results st) - 1))) by lia.
      rewrite Hroom. cbn [firstn map].
      assert (Hpush : len (results st ++ [r]) = len (results st) + 1).
      { rewrite len_app. reflexivity. }
      change (len (results (push_back r st))) with (len (results st ++ [r])).
      destruct (len (results st ++ [r]) >=? limit query) eqn:Hfull.
      * replace (Z.to_nat (limit query - len (results st) - 1)) with 0%nat by lia.
        cbn [firstn map]. rewrite len_cons, len_nil. reflexivity.
      * specialize (IH (i + 1) (result_num + 1) (push_back r st)).
        cbn [push_back results tail_pos] in IH.
        rewrite IH.
        -- rewrite Hpush.
           replace (limit query - (len (results st) + 1))
             with (limit query - len (results st) - 1) by lia.
           rewrite len_cons, <- app_assoc. cbn [app].
           f_equal. f_equal. lia.
        -- intros j Hj. apply Hread. lia.
        -- intros a b dwa dwb Ha Hab Hb. apply Hasc; lia.
        -- intros j dwj Hj. apply Hmin. lia.
        -- lia.
Qed.

(** X2.  For a suffix id of the index whose list lies in the pool and
    ascends by key length, and a vector with room left, [retrieve_dword]
    pushes the words of the list whose key length is within
    [min_dword_len .. max_dword_len], in list order and as many as the
    limit leaves room for, and returns their number. *)
Theorem retrieve_dword_exact (query : Query) (match_len suffixid suffix_len : Z)
    (st : memory) (l : dword_list_type) :
  suffixid < m_suffix_iindex_size e ->
  read_at (m_suffix_iindex e) suffixid = Ok l ->
  list_ok e l = true ->
  len (results st) < limit query ->
  let found := firstn (Z.to_nat (limit query - len (results st)))
                 (filter (within query) (list_words e l)) in
  retrieve_dword e query match_len suffixid suffix_len st
  = Ok (len found,
        {| results := results st
                      ++ map (fun dw => make_result dw match_len suffix_len) found;
           tail_pos := tail_pos st |}).
Proof.
  intros Hs Hl Hok Hlim found.
  pose proof (list_ok_bounds e l Hok) as [H0 H1].
  unfold retrieve_dword.
  replace (suffixid <? m_suffix_iindex_size e) with true by (symmetry; lia).
  replace (len (results st) <? limit query) with true by (symmetry; lia).
  cbn [andb]. unfold bind at 1. rewrite Hl.
  destruct (lower_bound_loop_spec e (min_dword_len query) (list_offset l)
              (list_offset l + list_size l)
              (list_ok_readable e l Hok) (list_ok_ascending e l Hok)
              (Z.to_nat (list_size l)) (list_offset l) (list_size l))
    as (pos & Hp & Hr & Hb & Ha); try lia.
  unfold lower_bound.
  replace (list_offset l + list_size l - list_offset l) with (list_size l) by lia.
  rewrite to_int32_small by lia.
  unfold bind at 1. rewrite Hp.
  assert (Hsplit : list_words e l
                   = words_from e (list_offset l) (Z.to_nat (pos - list_offset l))
                     ++ words_from e pos (Z.to_nat (list_offset l + list_size l - pos))).
  { unfold list_words.
    replace (Z.to_nat (list_size l))
      with (Z.to_nat (pos - list_offset l)
            + Z.to_nat (list_offset l + list_size l - pos))%nat by lia.
    rewrite words_from_app. f_equal. f_equal. lia. }
  subst found. rewrite Hsplit, filter_app, words_from_below.
  - cbn [app].
    rewrite (retrieve_loop_exact query match_len suffix_len
               (Z.to_nat (list_offset l + list_size l - pos)) pos 0 st).
    + reflexivity.
    + intros j Hj. apply (list_ok_readable e l Hok). lia.
    + intros a b dwa dwb Ha' Hab Hb'. apply (list_ok_ascending e l Hok); lia.
    + intros j dw Hj. apply Ha. lia.
    + exact Hlim.
  - intros j dw Hj. apply Hb. lia.
Qed.

End Retrieval.

Lemma lower_bound_partitions_witness :
  exists pos,
    lower_bound (engine_of ab) 0 4 3 = Ok pos
    /\ 0 <= pos <= 4
    /\ (forall i dw, 0 <= i < pos -> dword_at (engine_of ab) i = Ok dw ->
                     dword_size dw < 3)
    /\ (forall i dw, pos <= i < 4 -> dword_at (engine_of ab) i = Ok dw ->
                     3 <= dword_size dw).
Proof.
  apply (lower_bound_partitions (engine_of ab) ab_list 3).
  vm_compute. reflexivity.
Defined.

Lemma retrieve_dword_exact_witness :
  retrieve_dword (engine_of ab) ab_query 2 0 2 (no_results 0)
  = Ok (2, {| results := [ {| dword := 5; value := 9; start_pos := 1; common_len := 2 |};
                           {| dword := 11; value := 16; start_pos := 2; common_len := 2 |} ];
              tail_pos := 0 |}).
Proof.
  apply (retrieve_dword_exact (engine_of ab) ab_query 2 0 2 (no_results 0) ab_list);
    vm_compute; reflexivity.
Defined.

(** ** What a search depends on *)

Section SearchReads.

Variables e e' : ComSubstrSearch.
Hypothesis He : same_index e e'.

Variables q q' : Query.
Hypothesis Hq : same_question q q'.

Lemma dword_at_same i : dword_at e i = dword_at e' i.
Proof.
  destruct He as (_ & _ & Ha & Hp & _). unfold dword_at. rewrite Ha, Hp. reflexivity.
Qed.

Lemma lower_bound_loop_same dwordlen :
  forall fuel first count,
    lower_bound_loop e fuel first count dwordlen
    = lower_bound_loop e' fuel first count dwordlen.
Proof.
  induction fuel as [|fuel IH]; intros first count; cbn [lower_bound_loop];
    [reflexivity|].
  rewrite dword_at_same.
  destruct (count >? 0); [|reflexivity].
  destruct (dword_at e' (first + Z.quot count 2)) as [dw| |]; cbn [bind]; auto.
  destruct (dword_size dw <? dwordlen); apply IH.
Qed.

Lemma lower_bound_same first last dwordlen :
  lower_bound e first last dwordlen = lower_bound e' first last dwordlen.
Proof. unfold lower_bound. apply lower_bound_loop_same. Qed.

Lemma retrieve_loop_same match_len suffix_len :
  forall n i result_num st,
    retrieve_loop e q match_len suffix_len n i result_num st
    = retrieve_loop e' q' match_len suffix_len n i result_num st.
Proof.
  destruct Hq as (_ & _ & _ & Hmax & Hlim & _).
  induction n as [|n IH]; intros i result_num st; cbn [retrieve_loop]; [reflexivity|].
  rewrite dword_at_same, Hmax, Hlim.
  destruct (dword_at e' i) as [dw| |]; cbn [bind]; auto.
  destruct (dword_size dw >? max_dword_len q'); [reflexivity|].
  destruct (len (results (push_back (make_result dw match_len suffix_len) st))
            >=? limit q'); [reflexivity|].
  apply IH.
Qed.

Lemma retrieve_dword_same match_len suffixid suffix_len st :
  retrieve_dword e q match_len suffixid suffix_len st
  = retrieve_dword e' q' match_len suffixid suffix_len st.
Proof.
  destruct Hq as (_ & _ & Hmin & _ & Hlim & _).
  destruct He as (_ & _ & _ & _ & Hsize & Hlists).
  unfold retrieve_dword. rewrite <- Hsize, <- Hlim, <- Hmin.
  destruct (suffixid <? m_suffix_iindex_size e) eqn:Hs; cbn [andb]; [|reflexivity].
  destruct (len (results st) <? limit q); [|reflexivity].
  rewrite <- Hlists by lia.
  destruct (read_at (m_suffix_iindex e) suffixid) as [l| |]; cbn [bind]; auto.
  rewrite lower_bound_same.
  destruct (lower_bound e' (list_offset l) (list_offset l + list_size l)
              (min_dword_len q)) as [i| |]; cbn [bind]; auto.
  apply retrieve_loop_same.
Qed.

Lemma child_of_same cur_node except c :
  child_of e cur_node except c = child_of e' cur_node except c.
Proof. destruct He as (Ht & _). unfold child_of. rewrite Ht. reflexivity. Qed.

Lemma visit_terminal_same match_len base cur_node st :
  visit_terminal e q match_len base cur_node st
  = visit_terminal e' q' match_len base cur_node st.
Proof.
  destruct Hq as (_ & _ & _ & Hmax & _).
  destruct He as (Ht & _).
  unfold visit_terminal, read_suffixid. rewrite Ht, Hmax.
  destruct (_ <=? _); [|reflexivity].
  apply retrieve_dword_same.
Qed.

Lemma bf_push_children_same cur_node except node_queue :
  bf_push_children e q cur_node except node_queue
  = bf_push_children e' q' cur_node except node_queue.
Proof.
  destruct Hq as (_ & _ & _ & Hmax & _).
  destruct He as (_ & Hc & _).
  unfold bf_push_children. rewrite Hc, Hmax.
  generalize (if suffix_len cur_node =? max_dword_len q'
              then firstn 1 (m_char_table e') else m_char_table e').
  intros table. revert node_queue.
  induction table as [|c table IH]; intros node_queue; cbn [fold_left]; [reflexivity|].
  rewrite child_of_same. apply IH.
Qed.

Lemma df_push_children_same cur_node except node_stack :
  df_push_children e cur_node except node_stack
  = df_push_children e' cur_node except node_stack.
Proof.
  destruct He as (_ & Hc & _).
  unfold df_push_children. rewrite Hc.
  generalize (rev (m_char_table e')).
  intros table. revert node_stack.
  induction table as [|c table IH]; intros node_stack; cbn [fold_left]; [reflexivity|].
  rewrite child_of_same. apply IH.
Qed.

Lemma bf_loop_same match_len except :
  forall fuel node_queue result_num st,
    bf_loop e q match_len except fuel node_queue result_num st
    = bf_loop e' q' match_len except fuel node_queue result_num st.
Proof.
  pose proof Hq as (_ & _ & _ & Hmax & Hlim & _).
  pose proof He as (Ht & _).
  induction fuel as [|fuel IH]; intros node_queue result_num st;
    destruct node_queue as [|cur_node node_queue]; cbn [bf_loop];
    rewrite ?Hlim; auto.
  destruct (len (results st) <? limit q'); [|reflexivity].
  rewrite Ht, Hmax, visit_terminal_same, bf_push_children_same.
  destruct (get_base (trie e') (cur cur_node) <? 0).
  - destruct (visit_terminal e' q' match_len (get_base (trie e') (cur cur_node))
                cur_node st) as [[n st']| |]; cbn [bind]; auto.
  - destruct (suffix_len cur_node <=? max_dword_len q'); apply IH.
Qed.

Lemma df_loop_same match_len except :
  forall fuel node_stack result_num st,
    df_loop e q match_len except fuel node_stack result_num st
    = df_loop e' q' match_len except fuel node_stack result_num st.
Proof.
  pose proof Hq as (_ & _ & _ & Hmax & Hlim & _).
  pose proof He as (Ht & _).
  induction fuel as [|fuel IH]; intros node_stack result_num st;
    destruct node_stack as [|cur_node node_stack]; cbn [df_loop];
    rewrite ?Hlim; auto.
  destruct (len (results st) <? limit q'); [|reflexivity].
  rewrite Ht, Hmax, visit_terminal_same, df_push_children_same.
  destruct (get_base (trie e') (cur cur_node) <? 0).
  - destruct (visit_terminal e' q' match_len (get_base (trie e') (cur cur_node))
                cur_node st) as [[n st']| |]; cbn [bind]; auto.
  - destruct (suffix_len cur_node <=? max_dword_len q'); apply IH.
Qed.

Lemma weight_same : forall t, weight e t = weight e' t.
Proof.
  destruct He as (_ & Hc & _).
  fix IH 1. intros [off|children].
  - reflexivity.
  - rewrite !weight_Interior. f_equal. rewrite <- Hc.
    induction children as [|[c t'] l IHl]; cbn [children_weight].
    + reflexivity.
    + rewrite IH, IHl. reflexivity.
Qed.

Lemma traversal_fuel_same start_cur : traversal_fuel e start_cur = traversal_fuel e' start_cur.
Proof.
  pose proof He as (Ht & _).
  unfold traversal_fuel. rewrite Ht.
  destruct (node_of (trie e') start_cur); [apply weight_same|reflexivity].
Qed.

Lemma bf_traversal_same start_cur match_len except st :
  bf_traversal e q start_cur match_len except st
  = bf_traversal e' q' start_cur match_len except st.
Proof.
  pose proof Hq as (_ & _ & _ & Hmax & Hlim & _).
  unfold bf_traversal. rewrite Hmax, Hlim, traversal_fuel_same.
  destruct (_ || _); [reflexivity|apply bf_loop_same].
Qed.

Lemma df_traversal_same start_cur match_len except st :
  df_traversal e q start_cur match_len except st
  = df_traversal e' q' start_cur match_len except st.
Proof.
  pose proof Hq as (_ & _ & _ & Hmax & Hlim & _).
  unfold df_traversal. rewrite Hmax, Hlim, traversal_fuel_same.
  destruct (_ || _); [reflexivity|apply df_loop_same].
Qed.

Lemma walk_same :
  forall fuel cur match_len trie_index_stack result_num st,
    walk e q fuel cur match_len trie_index_stack result_num st
    = walk e' q' fuel cur match_len trie_index_stack result_num st.
Proof.
  pose proof Hq as (Hw & Hmc & _ & Hmax & _).
  pose proof He as (Ht & _).
  induction fuel as [|fuel IH]; intros cur match_len trie_index_stack result_num st;
    cbn [walk]; rewrite Hw, Hmax; [reflexivity|].
  destruct (_ && _); [|reflexivity].
  rewrite Ht, Hmc.
  destruct (index_eqb _ _); [reflexivity|].
  destruct (get_base _ _ <? 0).
  - unfold read_suffixid. rewrite Ht.
    destruct (_ >=? _); [rewrite retrieve_dword_same|]; reflexivity.
  - apply IH.
Qed.

Lemma backtrack_same :
  forall trie_index_stack match_len except result_num st,
    backtrack e q trie_index_stack match_len except result_num st
    = backtrack e' q' trie_index_stack match_len except result_num st.
Proof.
  pose proof Hq as (_ & _ & _ & _ & _ & Hdfs).
  induction trie_index_stack as [|cur rest IH]; intros match_len except result_num st;
    cbn [backtrack]; [reflexivity|].
  rewrite Hdfs, df_traversal_same, bf_traversal_same.
  destruct (if depth_first_search q'
            then df_traversal e' q' cur (wrap32 match_len) except st
            else bf_traversal e' q' cur (wrap32 match_len) except st)
    as [[n st']| |]; cbn [bind]; auto.
Qed.

Lemma compre_search_same st : compre_search e q st = compre_search e' q' st.
Proof.
  pose proof Hq as (Hw & Hmc & _ & Hmax & _).
  pose proof He as (Ht & _).
  unfold compre_search. rewrite Hw, Hmc, Hmax, Ht.
  destruct (_ || _); [reflexivity|].
  destruct (_ <? 0); [reflexivity|].
  rewrite walk_same.
  destruct (walk e' q' _ _ _ _ _ _) as [w| |]; cbn [bind]; auto.
  apply backtrack_same.
Qed.

End SearchReads.

Lemma same_index_refl (e : ComSubstrSearch) : same_index e e.
Proof. unfold same_index. auto 10. Qed.

Lemma same_question_refl (q : Query) : same_question q q.
Proof. unfold same_question. auto 10. Qed.

Section SearchReadsIndex.

Variables e e' : ComSubstrSearch.
Hypothesis He : same_index e e'.

Lemma search_loop_same (query : Query) :
  forall n suffixq i result_num st,
    search_loop e query suffixq n i result_num st
    = search_loop e' query suffixq n i result_num st.
Proof.
  induction n as [|n IH]; intros suffixq i result_num st; cbn [search_loop];
    [reflexivity|].
  rewrite (compre_search_same e e' He _ _ (same_question_refl _)).
  destruct (compre_search e' _ st) as [[k st']| |]; cbn [bind]; auto.
Qed.

Lemma search_same (query : Query) (results_ptr : option (list Result)) (tpos : Z) :
  search e query results_ptr tpos = search e' query results_ptr tpos.
Proof.
  unfold search. destruct results_ptr as [v|]; [|reflexivity].
  destruct (_ || _); [reflexivity|].
  rewrite (compre_search_same e e' He _ _ (same_question_refl _)), search_loop_same.
  reflexivity.
Qed.

End SearchReadsIndex.

(** ** The options of a query *)

(** X3.  With [com_prefix_only] a search looks at offset 0 of the query
    only: what it leaves in the vector is the beginning of what the same
    query leaves without the option.  The value it returns is 0 however
    many results it found, while without the option the value is the
    number of results. *)
Theorem com_prefix_only_first_offset (e : ComSubstrSearch) (query : Query)
    (v : list Result) (tpos : Z) :
  wf_engine e = true -> valid_query query = true -> answered query = true ->
  exists v1 tpos1 n v2 tpos2 more,
    search e (with_prefix_only query true) (Some v) tpos = Ok (0, Some v1, tpos1)
    /\ search e (with_prefix_only query false) (Some v) tpos = Ok (n, Some v2, tpos2)
    /\ v2 = v1 ++ more
    /\ n = wrap32 (len v2).
Proof.
  intros Hwf Hq Ha.
  apply answered_spec in Ha. destruct Ha as [Hlen Hlim0].
  unfold valid_query in Hq. repeat rewrite andb_true_iff in Hq.
  assert (Hlim : 0 <= limit query < 2 ^ 32) by lia.
  set (st0 := {| results := []; tail_pos := tpos |}).
  destruct (compre_search_spec e Hwf (with_prefix_only query true) st0)
    as (k & st1 & Hc & new & Hnew & Hk & _).
  cbn [results st0 app] in Hnew.
  unfold search.
  cbn [with_prefix_only word min_common_len limit com_prefix_only].
  replace (len (word query) <? min_common_len query) with false by (symmetry; lia).
  replace (limit query =? 0) with false by (symmetry; lia).
  cbn [orb]. fold st0.
  change {| word := word query; min_common_len := min_common_len query;
            min_dword_len := min_dword_len query;
            max_dword_len := max_dword_len query; limit := limit query;
            depth_first_search := depth_first_search query;
            com_prefix_only := true; average_limit := average_limit query |}
    with (with_prefix_only query true).
  change {| word := word query; min_common_len := min_common_len query;
            min_dword_len := min_dword_len query;
            max_dword_len := max_dword_len query; limit := limit query;
            depth_first_search := depth_first_search query;
            com_prefix_only := false; average_limit := average_limit query |}
    with (with_prefix_only query false).
  rewrite Hc. cbn [bind].
  assert (Hturns : Z.to_nat (len (word query) - min_common_len query + 1)
                   = S (Z.to_nat (len (word query) - min_common_len query))) by lia.
  rewrite Hturns. cbn [search_loop].
  set (suffixq := if average_limit (with_prefix_only query false) then _ else _).
  assert (Hsame : same_question suffixq (with_prefix_only query true)).
  { subst suffixq. cbn [with_prefix_only average_limit].
    destruct (average_limit query); unfold same_question;
      cbn [with_prefix_only with_limit with_word word min_common_len min_dword_len
           max_dword_len limit depth_first_search Z.to_nat skipn];
      rewrite ?Z.add_0_l, ?wrap32_small by lia; auto 10. }
  rewrite (compre_search_same e e (same_index_refl e) _ _ Hsame), Hc. cbn [bind].
  destruct (search_loop_spec e Hwf (with_prefix_only query false)
              ltac:(cbn [with_prefix_only limit]; lia)
              (Z.to_nat (len (word query) - min_common_len query)) suffixq (0 + 1)
              (wrap32 (0 + k)) st1)
    as (n & st2 & more & Hs & Hmore & Hn & _).
  - destruct Hsame as (_ & _ & H & _). exact H.
  - destruct Hsame as (_ & _ & _ & H & _). exact H.
  - intros _. destruct Hsame as (_ & _ & _ & _ & H & _). exact H.
  - rewrite Hnew, Hk. reflexivity.
  - rewrite Hs. cbn [bind].
    exists (results st1), (tail_pos st1), n, (results st2), (tail_pos st2), more.
    auto.
Qed.

Lemma com_prefix_only_first_offset_witness :
  exists v1 tpos1 n v2 tpos2 more,
    search (engine_of youth) (with_prefix_only youth_query true) (Some []) 0
    = Ok (0, Some v1, tpos1)
    /\ search (engine_of youth) (with_prefix_only youth_query false) (Some []) 0
       = Ok (n, Some v2, tpos2)
    /\ v2 = v1 ++ more
    /\ n = wrap32 (len v2).
Proof.
  apply (com_prefix_only_first_offset (engine_of youth) youth_query [] 0);
    vm_compute; reflexivity.
Defined.

(** ** The char table *)

(** X4.  [set_char_table] keeps an engine fit for searching: the table
    it installs holds the NUL byte, and a table it rejects leaves the
    engine as it was, so the engine after the call is well formed
    whenever the engine before it is. *)
Theorem set_char_table_keeps_well_formed (this : ComSubstrSearch)
    (char_table : list ascii) :
  wf_engine this = true ->
  wf_engine (snd (set_char_table this char_table)) = true
  /\ (fst (set_char_table this char_table) = 0
      -> m_char_table (snd (set_char_table this char_table)) = char_table)
  /\ (fst (set_char_table this char_table) <> 0
      -> snd (set_char_table this char_table) = this).
Proof.
  intros Hwf. unfold set_char_table.
  destruct (len char_table <=? dastrie.NUMCHARS); cbn [andb];
    [|cbn [fst snd]; repeat split; auto; intros H; discriminate H].
  destruct (existsb (fun c => Ascii.eqb c NUL) char_table) eqn:Hnul;
    cbn [fst snd]; [|repeat split; auto; intros H; discriminate H].
  repeat split; auto; [|intros H; exfalso; apply H; reflexivity].
  unfold wf_engine in *. cbn [trie m_char_table].
  repeat rewrite andb_true_iff in *. destruct Hwf as [[Hs _] Ht].
  repeat split; auto.
Qed.

Lemma set_char_table_keeps_well_formed_witness :
  wf_engine (snd (set_char_table (engine_of youth) nul_last_table)) = true
  /\ (fst (set_char_table (engine_of youth) nul_last_table) = 0
      -> m_char_table (snd (set_char_table (engine_of youth) nul_last_table))
         = nul_last_table)
  /\ (fst (set_char_table (engine_of youth) nul_last_table) <> 0
      -> snd (set_char_table (engine_of youth) nul_last_table) = engine_of youth).
Proof.
  apply (set_char_table_keeps_well_formed (engine_of youth) nul_last_table).
  vm_compute. reflexivity.
Defined.

(** [set_char_table] turns away every table without the NUL byte,
    with status 1 and the engine unchanged: the table 'a' .. 'z' of the
    example's [main] is one, so the searches of the example run on the
    table the constructor made. *)
Theorem set_char_table_needs_nul (this : ComSubstrSearch) (char_table : list ascii) :
  forallb (fun c => negb (Ascii.eqb c NUL)) char_table = true ->
  set_char_table this char_table = (1, this).
Proof.
  intros Hno. unfold set_char_table.
  assert (Hex : existsb (fun c => Ascii.eqb c NUL) char_table = false).
  { induction char_table as [|c t IH]; [reflexivity|].
    cbn [forallb existsb] in *. apply andb_true_iff in Hno. destruct Hno as [Hc Ht].
    apply negb_true_iff in Hc. rewrite Hc, (IH Ht). reflexivity. }
  rewrite Hex, andb_false_r. reflexivity.
Qed.

Lemma set_char_table_needs_nul_witness :
  set_char_table (ComSubstrSearch_new (1 # 2) 2) driver_char_table
  = (1, ComSubstrSearch_new (1 # 2) 2).
Proof.
  apply (set_char_table_needs_nul (ComSubstrSearch_new (1 # 2) 2) driver_char_table).
  vm_compute. reflexivity.
Defined.

(** ** The sorts of [build] *)

(** X5.  Both comparators [build] hands to [std::sort], [operator <] of
    [dword_type] and [suffix_cmp], are strict weak orderings, which is
    what [std::sort] requires of them. *)
Theorem build_comparators_are_strict_weak :
  strict_weak_order dword_lt
  /\ forall pool : list ascii, strict_weak_order (suffix_cmp pool).
Proof.
  split.
  - exact dword_lt_swo.
  - intros pool. exact (suffix_cmp_swo pool).
Qed.

(** X6.  On the inputs where [build] stays inside what C++ defines,
    when no two words of the dictionary have the same length and no
    suffix occurs twice, what [build] makes does not depend on how
    [std::sort] treats equivalent elements: any two sorts that meet its
    contract give the same engine and the same database. *)
Theorem build_same_for_every_sort
    (sort1 sort2 : forall A : Type, (A -> A -> bool) -> list A -> list A)
    (junk : uninitialised) (dat_size : suffix_trie_type -> Z)
    (this : ComSubstrSearch) (dict : list ascii) (db_fname : string) :
  conforming_sort sort1 -> conforming_sort sort2 ->
  defined_build this dict = true ->
  distinct_keys this junk dict = true ->
  build sort1 junk dat_size this dict db_fname
  = build sort2 junk dat_size this dict db_fname.
Proof.
  intros H1 H2 _ Hd.
  rewrite (build_sort_irrelevant sort1 H1 junk dat_size this dict db_fname Hd).
  rewrite (build_sort_irrelevant sort2 H2 junk dat_size this dict db_fname Hd).
  reflexivity.
Qed.

Lemma build_same_for_every_sort_witness :
  build insertion_sort zero_junk (fun _ => 1) (ComSubstrSearch_new (1 # 2) 2)
    youth_file "youth.db"
  = build reversing_sort zero_junk (fun _ => 1) (ComSubstrSearch_new (1 # 2) 2)
      youth_file "youth.db".
Proof.
  apply (build_same_for_every_sort insertion_sort reversing_sort zero_junk (fun _ => 1)
           (ComSubstrSearch_new (1 # 2) 2) youth_file "youth.db").
  - exact insertion_sort_conforming.
  - exact reversing_sort_conforming.
  - vm_compute. reflexivity.
  - vm_compute. reflexivity.
Defined.

(** ** Where the results of a search come from *)

Lemma bind_Ok {A B : Type} (m : outcome A) (f : A -> outcome B) (b : B) :
  bind m f = Ok b -> exists a, m = Ok a /\ f a = Ok b.
Proof. destruct m as [a| |]; cbn [bind]; intros H; try discriminate. eauto. Qed.

Lemma adds_refl (P : Result -> Prop) (st : memory) : adds P st st.
Proof. exists []. rewrite app_nil_r. auto. Qed.

Lemma adds_trans (P : Result -> Prop) (st1 st2 st3 : memory) :
  adds P st1 st2 -> adds P st2 st3 -> adds P st1 st3.
Proof.
  intros (n1 & H1 & F1) (n2 & H2 & F2). exists (n1 ++ n2).
  rewrite H2, H1, app_assoc. split; [reflexivity|]. apply Forall_app. auto.
Qed.

Lemma adds_weaken (P Q : Result -> Prop) (st st' : memory) :
  (forall r, P r -> Q r) -> adds P st st' -> adds Q st st'.
Proof.
  intros HPQ (new & H & F). exists new. split; [exact H|].
  eapply Forall_impl; eauto.
Qed.


Lemma wrap32_idem (x : Z) : wrap32 (wrap32 x) = wrap32 x.
Proof. unfold wrap32. apply Zmod_mod. Qed.


Section Provenance.

Variable e : ComSubstrSearch.

Lemma lower_bound_loop_ge (dwordlen : Z) :
  forall fuel first count pos,
    lower_bound_loop e fuel first count dwordlen = Ok pos -> first <= pos.
Proof.
  induction fuel as [|fuel IH]; intros first count pos; cbn [lower_bound_loop];
    destruct (count >? 0) eqn:Hc; intros H; try discriminate;
    try (injection H as <-; lia).
  apply bind_Ok in H as (dw & _ & H).
  assert (Hq : 0 <= Z.quot count 2) by (apply Z.quot_pos; lia).
  destruct (dword_size dw <? dwordlen); apply IH in H; lia.
Qed.

Lemma retrieve_loop_adds (query : Query) (match_len suffix_len : Z) :
  forall n i result_num st k st',
    retrieve_loop e query match_len suffix_len n i result_num st = Ok (k, st') ->
    adds (fun r => exists p dw,
                     i <= p < i + Z.of_nat n /\ dword_at e p = Ok dw
                     /\ r = make_result dw match_len suffix_len) st st'.
Proof.
  induction n as [|n IH]; intros i result_num st k st' H; cbn [retrieve_loop] in H.
  - injection H as _ <-. apply adds_refl.
  - apply bind_Ok in H as (dw & Hdw & H).
    destruct (dword_size dw >? max_dword_len query);
      [injection H as _ <-; apply adds_refl|].
    assert (Hone : adds (fun r => exists p dw,
                                    i <= p < i + Z.of_nat (S n) /\ dword_at e p = Ok dw
                                    /\ r = make_result dw match_len suffix_len)
                     st (push_back (make_result dw match_len suffix_len) st)).
    { exists [make_result dw match_len suffix_len]. split; [reflexivity|].
      constructor; [|constructor]. exists i, dw. repeat split; auto; lia. }
    destruct (_ >=? _); [injection H as _ <-; exact Hone|].
    apply IH in H. eapply adds_trans; [exact Hone|].
    eapply adds_weaken; [|exact H].
    intros r (p & dw' & Hp & Hdw' & ->). exists p, dw'. repeat split; auto; lia.
Qed.

Lemma retrieve_dword_adds (query : Query) (match_len suffixid suffix_len : Z)
    (st : memory) (k : Z) (st' : memory) :
  retrieve_dword e query match_len suffixid suffix_len st = Ok (k, st') ->
  adds (fun r => exists dw, listed e suffixid dw
                            /\ r = make_result dw match_len suffix_len) st st'.
Proof.
  unfold retrieve_dword. intros H.
  destruct (suffixid <? m_suffix_iindex_size e) eqn:Hs; cbn [andb] in H;
    [|injection H as _ <-; apply adds_refl].
  destruct (len (results st) <? limit query);
    [|injection H as _ <-; apply adds_refl].
  apply bind_Ok in H as (l & Hl & H).
  apply bind_Ok in H as (i & Hi & H).
  unfold lower_bound in Hi. apply lower_bound_loop_ge in Hi.
  apply retrieve_loop_adds in H.
  eapply adds_weaken; [|exact H].
  intros r (p & dw & Hp & Hdw & ->). exists dw. split; [|reflexivity].
  split; [lia|]. exists l, p. repeat split; auto; lia.
Qed.











End Provenance.









Lemma len_skipn {A : Type} (l : list A) (d : Z) :
  0 <= d <= len l -> len (skipn (Z.to_nat d) l) = len l - d.
Proof. unfold len. intros H. rewrite length_skipn. lia. Qed.




Section WordProvenance.

Variable e : ComSubstrSearch.
Hypothesis Htail : len (m_tail (trie e)) < 2 ^ 32.

Variable query : Query.
Hypothesis Hplain : forallb not_nul (word query) = true.
Hypothesis Hlen : len (word query) < 2 ^ 32 - 1.

Let w := word query.





End WordProvenance.

Section SearchProvenance.

Variable e : ComSubstrSearch.
Hypothesis Htail : len (m_tail (trie e)) < 2 ^ 32.

Variable query : Query.
Hypothesis Hplain : forallb not_nul (word query) = true.
Hypothesis Hlen : len (word query) < 2 ^ 32 - 1.



End SearchProvenance.

(** ** Results name common substrings *)



(** ** The word pool [build] fills *)

Lemma nth_error_poke {A : Type} (a : list A) (i : Z) (x : A) (k : nat) :
  0 <= i ->
  nth_error (poke a i x) k
  = if Nat.eqb k (Z.to_nat i)
    then (if Nat.ltb (Z.to_nat i) (List.length a) then Some x else None)
    else nth_error a k.
Proof.
  intros Hi. unfold poke.
  replace (i <? 0) with false by (symmetry; lia).
  apply nth_error_poke_nat.
Qed.

Lemma length_poke {A : Type} (a : list A) (i : Z) (x : A) :
  List.length (poke a i x) = List.length a.
Proof. unfold poke. destruct (i <? 0); [reflexivity | apply poke_nat_length]. Qed.

Lemma length_store_bytes (bytes : list ascii) :
  forall a i, List.length (store_bytes a i bytes) = List.length a.
Proof.
  induction bytes as [|b bytes IH]; intros a i; cbn [store_bytes]; [reflexivity|].
  rewrite IH. apply length_poke.
Qed.

Lemma nth_error_store_bytes (bytes : list ascii) :
  forall a i k,
    0 <= i -> (Z.to_nat i + List.length bytes <= List.length a)%nat ->
    nth_error (store_bytes a i bytes) k
    = if (Nat.leb (Z.to_nat i) k && Nat.ltb k (Z.to_nat i + List.length bytes))%bool
      then nth_error bytes (k - Z.to_nat i)
      else nth_error a k.
Proof.
  induction bytes as [|b bytes IH]; intros a i k Hi Hfit; cbn [store_bytes List.length] in *.
  - destruct (Nat.leb_spec (Z.to_nat i) k); destruct (Nat.ltb_spec k (Z.to_nat i + 0));
      cbn [andb]; auto; lia.
  - rewrite IH by (rewrite ?length_poke; lia).
    replace (Z.to_nat (i + 1)) with (S (Z.to_nat i)) by lia.
    rewrite nth_error_poke by lia.
    destruct (Nat.leb_spec (S (Z.to_nat i)) k);
      destruct (Nat.ltb_spec k (S (Z.to_nat i) + List.length bytes));
      destruct (Nat.leb_spec (Z.to_nat i) k);
      destruct (Nat.ltb_spec k (Z.to_nat i + S (List.length bytes)));
      destruct (Nat.eqb_spec k (Z.to_nat i));
      destruct (Nat.ltb_spec (Z.to_nat i) (List.length a));
      cbn [andb]; try lia; auto.
    + replace (k - Z.to_nat i)%nat with (S (k - S (Z.to_nat i))) by lia. reflexivity.
    + subst k. rewrite Nat.sub_diag. reflexivity.
Qed.

Lemma find_tab_bounds (line : list ascii) (k : Z) :
  find_tab line = Some k -> 0 <= k < len line.
Proof.
  revert k. induction line as [|c line IH]; intros k; cbn [find_tab]; [discriminate|].
  rewrite len_cons. pose proof (len_nonneg line) as Hl.
  destruct (Ascii.eqb c TAB); [intros H; injection H as <-; lia|].
  destruct (find_tab line) as [k'|]; [|discriminate].
  intros H. injection H as <-. specialize (IH k' eq_refl). lia.
Qed.

Lemma getlines_span (input : list ascii) :
  forall line, span (getlines line input) <= len line + len input + 1.
Proof.
  induction input as [|c input IH]; intros line; cbn [getlines].
  - destruct line as [|x line]; cbn [span].
    + unfold len. cbn [List.length]. lia.
    + unfold len. rewrite length_rev. cbn [List.length]. lia.
  - destruct (Ascii.eqb c LF).
    + cbn [span]. specialize (IH []).
      unfold len in *. rewrite length_rev. cbn [List.length] in *. lia.
    + specialize (IH (c :: line)). unfold len in *. cbn [List.length] in *. lia.
Qed.

Lemma key_at_holds (pool : list ascii) (dw : dword_type) (k : list ascii) :
  dword_size dw = len k -> 0 <= dword_offset dw ->
  key_at pool (Z.to_nat (dword_offset dw)) k ->
  holds_key pool dw k.
Proof.
  intros Hs Ho [Hk Hn]. repeat split; auto.
  apply nth_error_ext. intros t.
  rewrite nth_error_firstn, nth_error_skipn.
  replace (Z.to_nat (len k + 1)) with (S (List.length k)) by (unfold len; lia).
  destruct (Nat.ltb_spec t (S (List.length k))).
  - destruct (Nat.eq_dec t (List.length k)) as [->|Hne].
    + rewrite Hn, nth_error_app2, Nat.sub_diag by lia. reflexivity.
    + rewrite Hk, nth_error_app1 by lia. reflexivity.
  - symmetry. apply nth_error_None. rewrite length_app. cbn [List.length]. lia.
Qed.

Lemma read_lines_layout (lines : list (list ascii)) :
  forall pool offset dws pool' offset' dws',
    read_lines lines pool offset dws = (pool', offset', dws') ->
    0 <= offset -> offset + span lines <= len pool + 1 -> len pool < 2 ^ 32 ->
    len pool' = len pool
    /\ (forall k, (k < Z.to_nat offset)%nat -> nth_error pool' k = nth_error pool k)
    /\ exists new,
         dws' = dws ++ new
         /\ Forall2 (fun dw rec => holds_key pool' dw (fst rec)) new (parsed lines).
Proof.
  induction lines as [|line lines IH]; intros pool offset dws pool' offset' dws' H Ho Hspan Hp;
    cbn [read_lines] in H.
  - injection H as <- <- <-. repeat split; auto.
    exists []. rewrite app_nil_r. split; [reflexivity | constructor].
  - cbn [span] in Hspan. cbn [parsed flat_map]. unfold record_of at 1.
    pose proof (len_nonneg line) as Hl0.
    assert (Hspan0 : 0 <= span lines).
    { clear. induction lines as [|x l IH]; cbn [span]; [lia|].
      pose proof (len_nonneg x). lia. }
    set (pool1 := store_bytes pool offset line) in *.
    assert (Hfit : (Z.to_nat offset + List.length line <= List.length pool)%nat)
      by (unfold len in *; lia).
    assert (Hl1 : List.length pool1 = List.length pool) by apply length_store_bytes.
    assert (Hn1 : forall k, nth_error pool1 k
                            = if (Nat.leb (Z.to_nat offset) k
                                  && Nat.ltb k (Z.to_nat offset + List.length line))%bool
                              then nth_error line (k - Z.to_nat offset)
                              else nth_error pool k).
    { intros k. apply nth_error_store_bytes; auto. }
    destruct (find_tab line) as [key_len|] eqn:Htab.
    + pose proof (find_tab_bounds line key_len Htab) as Hk.
      set (pool2 := poke pool1 (offset + key_len) NUL) in *.
      set (pool3 := poke pool2 (offset + len line + 1) NUL) in *.
      assert (Hl3 : List.length pool3 = List.length pool).
      { subst pool3 pool2. rewrite !length_poke. exact Hl1. }
      apply IH in H; try lia; [|unfold len in *; lia|unfold len in *; lia].
      destruct H as (Hlen & Hsame & new & -> & Hnew).
      split; [unfold len in *; lia|].
      assert (Hbelow : forall k, (k < Z.to_nat (offset + len line))%nat ->
                                 nth_error pool' k = nth_error pool2 k).
      { intros k Hk'. rewrite Hsame by lia. subst pool3.
        rewrite nth_error_poke by lia.
        destruct (Nat.eqb_spec k (Z.to_nat (offset + len line + 1))); [lia | reflexivity]. }
      split.
      * intros k Hk'. rewrite Hbelow by lia. subst pool2.
        rewrite nth_error_poke by lia.
        destruct (Nat.eqb_spec k (Z.to_nat (offset + key_len))); [lia|].
        rewrite Hn1.
        destruct (Nat.leb_spec (Z.to_nat offset) k); [lia | reflexivity].
      * exists ({| dword_offset := wrap32 offset; dword_size := wrap32 key_len |} :: new).
        rewrite <- app_assoc. split; [reflexivity|].
        constructor; [|exact Hnew]. cbn [fst].
        assert (Hlk : List.length (firstn (Z.to_nat key_len) line) = Z.to_nat key_len).
        { rewrite length_firstn. unfold len in *. lia. }
        apply key_at_holds; cbn [dword_offset dword_size].
        -- rewrite wrap32_small by lia. unfold len. rewrite Hlk. lia.
        -- apply wrap32_range.
        -- rewrite wrap32_small by (unfold len in *; lia).
           split.
           ++ intros t Ht. rewrite Hlk in Ht.
              rewrite Hbelow by (unfold len in *; lia). subst pool2.
              rewrite nth_error_poke by lia.
              destruct (Nat.eqb_spec (Z.to_nat offset + t) (Z.to_nat (offset + key_len)));
                [lia|].
              rewrite Hn1.
              destruct (Nat.leb_spec (Z.to_nat offset) (Z.to_nat offset + t)); [|lia].
              destruct (Nat.ltb_spec (Z.to_nat offset + t)
                          (Z.to_nat offset + List.length line));
                [|unfold len in *; lia].
              cbn [andb]. rewrite nth_error_firstn.
              replace (Z.to_nat offset + t - Z.to_nat offset)%nat with t by lia.
              destruct (Nat.ltb_spec t (Z.to_nat key_len)); [reflexivity | lia].
           ++ rewrite Hlk. rewrite Hbelow by (unfold len in *; lia). subst pool2.
              rewrite nth_error_poke by lia.
              destruct (Nat.eqb_spec (Z.to_nat offset + Z.to_nat key_len)
                          (Z.to_nat (offset + key_len))); [|lia].
              rewrite Hl1.
              destruct (Nat.ltb_spec (Z.to_nat (offset + key_len)) (List.length pool));
                [reflexivity | unfold len in *; lia].
    + apply IH in H; try lia; [|unfold len in *; lia|unfold len in *; lia].
      destruct H as (Hlen & Hsame & new & -> & Hnew).
      split; [unfold len in *; lia|].
      split.
      * intros k Hk'. rewrite Hsame by lia. rewrite Hn1.
        destruct (Nat.leb_spec (Z.to_nat offset) k); [lia | reflexivity].
      * exists new. cbn [app]. auto.
Qed.

(** Where every record's store lies inside [size], so does the offset
    the loop ends with. *)
Lemma read_lines_offset (lines : list (list ascii)) :
  forall pool offset dws pool' offset' dws' size,
    read_lines lines pool offset dws = (pool', offset', dws') ->
    0 <= offset <= size ->
    stores_in_pool lines offset size = true ->
    0 <= offset' <= size.
Proof.
  induction lines as [|line lines IH]; intros pool offset dws pool' offset' dws' size H Ho Hs;
    cbn [read_lines stores_in_pool] in H, Hs.
  - injection H as <- <- <-. exact Ho.
  - pose proof (len_nonneg line) as Hl. destruct (find_tab line) as [key_len|].
    + apply andb_true_iff in Hs as [Hs1 Hs2].
      apply (IH _ _ _ _ _ _ size H); [lia | exact Hs2].
    + apply (IH _ _ _ _ _ _ size H); [exact Ho | exact Hs].
Qed.

Lemma defined_build_spec (this : ComSubstrSearch) (dict : list ascii) :
  defined_build this dict = true ->
  plain_config this = true /\ exact_ratio this = true /\ len dict < 2 ^ 31
  /\ stores_in_pool (getlines [] dict) 0 (len dict) = true.
Proof.
  unfold defined_build. rewrite !andb_true_iff. intros [[[H1 H2] H3] H4].
  repeat split; auto. lia.
Qed.

Lemma no_file_name {P : Prop} : EmptyString <> EmptyString -> P.
Proof. intros H. exfalso. apply H. reflexivity. Qed.





(** ** The suffix records *)




(** ** The paths of the trie *)




Section ArrangePaths.

Variable vals : list Z.




End ArrangePaths.




(** ** What the scan puts into the inverted lists *)

Section ScanContent.

Variable std_sort : forall A : Type, (A -> A -> bool) -> list A -> list A.
Hypothesis Hsort : conforming_sort std_sort.

Variable pool : list ascii.
Variable W : Z.
Variable isa0 : list trie_record_type.
Variable n : Z.

Hypothesis Hn : n < 2 ^ 32.
Hypothesis Hvals : forall k r, read_at isa0 k = Ok r -> 0 <= dastrie.value r < W.

Ltac rd H k Hw := rewrite (read_at_write_at _ _ _ _ k Hw) in H.

Lemma dedup_first_content iindex0 pool0 d :
  2 <= n -> len isa0 = n -> len iindex0 = n -> len pool0 = n ->
  dedup_first {| b_i := 0; b_wordid_array_offset := 0; b_suffix_iindex := iindex0;
                 b_dwordid_pool := pool0; b_input_suffix_array := isa0 |} = Ok d ->
  scan_content pool isa0 d.
Proof.
  intros Hn2 Hl1 Hl2 Hl3. unfold dedup_first. cbn [b_i b_input_suffix_array
    b_dwordid_pool b_suffix_iindex].
  destruct (read_at_in_range isa0 0) as [r0 Hr0]; [lia|].
  destruct (write_at_in_range pool0 0 (dastrie.value r0)) as [pool1 Hp]; [lia|].
  destruct (write_at_in_range iindex0 0 {| list_offset := 0; list_size := 1 |})
    as [iindex1 Hi]; [lia|].
  destruct (write_at_in_range isa0 0 {| dastrie.key := dastrie.key r0; dastrie.value := 0 |})
    as [isa1 Hs]; [lia|].
  rewrite Hr0. cbn [bind]. rewrite Hp. cbn [bind]. rewrite Hi. cbn [bind].
  rewrite Hs. cbn [bind]. intros H. injection H as <-.
  split; cbn [b_i b_input_suffix_array b_dwordid_pool b_suffix_iindex].
  - exists {| list_offset := 0; list_size := 1 |}.
    rewrite (read_at_write_at _ _ _ _ 0 Hi). auto.
  - intros s l l' Hs0. lia.
  - intros s r l q rq Hs0 Hr Hl Hq Hrq. assert (s = 0) by lia. subst s.
    rd Hr 0 Hs. rd Hl 0 Hi. cbn in Hr, Hl. injection Hr as <-. injection Hl as <-.
    cbn [list_offset list_size dastrie.key] in *.
    assert (q = 0) by lia. subst q. rewrite Hr0 in Hrq. injection Hrq as <-. reflexivity.
  - intros s l p id Hs0 Hl Hp0 Hid. assert (s = 0) by lia. subst s.
    rd Hl 0 Hi. cbn in Hl. injection Hl as <-. cbn [list_offset list_size] in *.
    assert (p = 0) by lia. subst p. rd Hid 0 Hp. cbn in Hid. injection Hid as <-.
    exists 0, r0. repeat split; auto; lia.
Qed.

Lemma dedup_core_content j d d' :
  scan_inv W isa0 n j d -> j < n ->
  scan_content pool isa0 d ->
  dedup_core std_sort pool j d = Ok d' ->
  scan_content pool isa0 d'.
Proof.
  intros [Hi Hj Hwao Hl1 Hl2 Hl3 Hv Hrest Hvalid (li & Hli & Ho & Hz & Hend & Hdone)] Hjn
         [(l0 & Hl0 & Hoff0) Hnext Hkey Hids].
  unfold dedup_core. rewrite Hwao.
  destruct (read_at_in_range (b_input_suffix_array d) j) as [rj Hrj]; [lia|].
  destruct (read_at_in_range (b_input_suffix_array d) (b_i d)) as [ri Hri]; [lia|].
  assert (Hrj0 : read_at isa0 j = Ok rj) by (rewrite <- Hrest by lia; exact Hrj).
  rewrite Hrj, Hri. cbn [bind].
  destruct (strcmp _ _ =? 0) eqn:Hcmp.
  - apply Z.eqb_eq, strcmp_eq in Hcmp.
    destruct (write_at_in_range (b_dwordid_pool d) j (dastrie.value rj)) as [pool1 Hp];
      [lia|].
    destruct (write_at_in_range (b_suffix_iindex d) (b_i d)
                {| list_offset := list_offset li; list_size := wrap32 (list_size li + 1) |})
      as [iindex1 Hx]; [lia|].
    rewrite Hp. cbn [bind]. rewrite Hli. cbn [bind]. rewrite Hx. cbn [bind].
    intros H. injection H as <-.
    assert (Hw : wrap32 (list_size li + 1) = list_size li + 1)
      by (apply wrap32_small; lia).
    split; cbn [b_i b_input_suffix_array b_dwordid_pool b_suffix_iindex].
    + rewrite (read_at_write_at _ _ _ _ 0 Hx).
      destruct (0 =? b_i d) eqn:E.
      * eexists. split; [reflexivity|]. cbn [list_offset].
        assert (b_i d = 0) by lia.
        replace (b_i d) with 0 in Hli by lia. rewrite Hl0 in Hli.
        injection Hli as <-. exact Hoff0.
      * exists l0. auto.
    + intros s l l' Hs0 Hl Hl'. rd Hl s Hx. rd Hl' (s + 1) Hx.
      destruct (s =? b_i d) eqn:E; [lia|].
      destruct (s + 1 =? b_i d) eqn:E'.
      * injection Hl' as <-. cbn [list_offset].
        apply (Hnext s l li); [lia | exact Hl |].
        replace (s + 1) with (b_i d) by lia. exact Hli.
      * apply (Hnext s l l'); auto.
    + intros s r l q rq Hs0 Hr Hl Hq Hrq. rd Hl s Hx.
      destruct (s =? b_i d) eqn:E.
      * assert (s = b_i d) by lia. subst s.
        injection Hl as <-. cbn [list_offset list_size] in Hq. rewrite Hw in Hq.
        rewrite Hri in Hr. injection Hr as <-.
        destruct (Z.eq_dec q j) as [->|Hne].
        -- rewrite Hrj0 in Hrq. injection Hrq as <-. exact Hcmp.
        -- apply (Hkey (b_i d) ri li q rq); auto; lia.
      * apply (Hkey s r l q rq); auto.
    + intros s l p id Hs0 Hl Hp0 Hid. rd Hl s Hx. rd Hid p Hp.
      destruct (s =? b_i d) eqn:E.
      * injection Hl as <-. cbn [list_offset list_size] in *. rewrite Hw in *.
        destruct (p =? j) eqn:E'.
        -- injection Hid as <-. exists j, rj. repeat split; auto; lia.
        -- destruct (Hids (b_i d) li p id ltac:(lia) Hli ltac:(lia) Hid)
             as (q & rq & Hq & Hrq & Hval).
           exists q, rq. repeat split; auto; lia.
      * destruct (Hdone s l ltac:(lia) Hl) as (Ho' & Hz' & He' & _).
        destruct (p =? j) eqn:E'; [lia|].
        apply (Hids s l p id); auto.
  - rewrite Hli. cbn [bind].
    destruct (sort_range_spec std_sort Hsort (b_dwordid_pool d) (list_offset li) (list_size li))
      as (Hsl & Hout & Hasc & Hin); try lia.
    set (pool1 := sort_range std_sort (b_dwordid_pool d) (list_offset li) (list_size li)) in *.
    destruct (write_at_in_range pool1 j (dastrie.value rj)) as [pool2 Hp]; [lia|].
    destruct (write_at_in_range (b_suffix_iindex d) (b_i d + 1)
                {| list_offset := j; list_size := 1 |}) as [iindex1 Hx]; [lia|].
    destruct (write_at_in_range (b_input_suffix_array d) (b_i d + 1)
                {| dastrie.key := dastrie.key rj; dastrie.value := wrap32 (b_i d + 1) |})
      as [isa1 Hs]; [lia|].
    rewrite Hp. cbn [bind]. rewrite Hx. cbn [bind]. rewrite Hs. cbn [bind].
    intros H. injection H as <-.
    split; cbn [b_i b_input_suffix_array b_dwordid_pool b_suffix_iindex].
    + rewrite (read_at_write_at _ _ _ _ 0 Hx).
      destruct (0 =? b_i d + 1) eqn:E; [lia|]. exists l0. auto.
    + intros s l l' Hs0 Hl Hl'. rd Hl s Hx. rd Hl' (s + 1) Hx.
      destruct (s =? b_i d + 1) eqn:E; [lia|].
      destruct (s + 1 =? b_i d + 1) eqn:E'.
      * injection Hl' as <-. cbn [list_offset].
        assert (s = b_i d) by lia. subst s. rewrite Hli in Hl. injection Hl as <-. lia.
      * apply (Hnext s l l'); auto. lia.
    + intros s r l q rq Hs0 Hr Hl Hq Hrq. rd Hl s Hx. rd Hr s Hs.
      destruct (s =? b_i d + 1) eqn:E.
      * injection Hl as <-. injection Hr as <-. cbn [list_offset list_size dastrie.key] in *.
        assert (q = j) by lia. subst q. rewrite Hrj0 in Hrq. injection Hrq as <-.
        reflexivity.
      * apply (Hkey s r l q rq); auto. lia.
    + intros s l p id Hs0 Hl Hp0 Hid. rd Hl s Hx. rd Hid p Hp.
      destruct (s =? b_i d + 1) eqn:E.
      * injection Hl as <-. cbn [list_offset list_size] in *.
        assert (p = j) by lia. subst p. rewrite Z.eqb_refl in Hid. injection Hid as <-.
        exists j, rj. repeat split; auto; lia.
      * assert (Hpj : p < j).
        { destruct (Z.eq_dec s (b_i d)) as [->|Hne].
          - rewrite Hli in Hl. injection Hl as <-. lia.
          - destruct (Hdone s l ltac:(lia) Hl) as (Ho' & Hz' & He' & _). lia. }
        destruct (p =? j) eqn:E'; [lia|].
        destruct (Z.eq_dec s (b_i d)) as [->|Hne].
        -- rewrite Hli in Hl. injection Hl as <-.
           destruct (Hin p id ltac:(lia) Hid) as (p' & Hp' & Hid').
           apply (Hids (b_i d) li p' id); auto; lia.
        -- destruct (Hdone s l ltac:(lia) Hl) as (Ho' & Hz' & He' & _).
           rewrite Hout in Hid by lia.
           apply (Hids s l p id); auto; lia.
Qed.

Lemma dedup_loop_content m :
  forall j d d',
    scan_inv W isa0 n j d -> scan_content pool isa0 d ->
    2 <= j -> j + Z.of_nat m = n ->
    dedup_loop std_sort pool m j d = Ok d' ->
    scan_content pool isa0 d'.
Proof.
  induction m as [|m IH]; intros j d d' Hinv Hcon Hj Hm H; cbn [dedup_loop] in H.
  - injection H as <-. exact Hcon.
  - unfold dedup_step in H. destruct (j =? 1) eqn:E; [lia|]. cbn [bind] in H.
    destruct (dedup_core_scan std_sort Hsort pool W isa0 n Hn Hvals j d Hinv ltac:(lia))
      as (d1 & Hc & Hinv1).
    rewrite Hc in H. cbn [bind] in H.
    apply (IH (j + 1) d1 d'); auto; try lia.
    apply (dedup_core_content j d d1 Hinv ltac:(lia) Hcon Hc).
Qed.

(** With two suffix records or more the scan ends with both
    invariants. *)
Lemma dedup_scan_content iindex0 pool0 :
  2 <= n -> len isa0 = n -> len iindex0 = n -> len pool0 = n ->
  exists d,
    dedup_loop std_sort pool (Z.to_nat (n - 1)) 1
      {| b_i := 0; b_wordid_array_offset := 0; b_suffix_iindex := iindex0;
         b_dwordid_pool := pool0; b_input_suffix_array := isa0 |} = Ok d
    /\ scan_inv W isa0 n n d
    /\ scan_content pool isa0 d.
Proof.
  intros Hn2 Hl1 Hl2 Hl3.
  destruct (dedup_scan std_sort Hsort pool W isa0 n Hn Hvals iindex0 pool0 Hn2 Hl1 Hl2 Hl3)
    as (d & Hd & Hinv).
  exists d. split; [exact Hd|]. split; [exact Hinv|].
  destruct (Z.to_nat (n - 1)) as [|m] eqn:Em; [lia|].
  cbn [dedup_loop] in Hd. unfold dedup_step in Hd. cbn [Z.eqb Pos.eqb] in Hd.
  destruct (dedup_first_scan W isa0 n Hvals iindex0 pool0 Hn2 Hl1 Hl2 Hl3)
    as (d1 & Hf & Hinv1).
  rewrite Hf in Hd. cbn [bind] in Hd.
  pose proof (dedup_first_content iindex0 pool0 d1 Hn2 Hl1 Hl2 Hl3 Hf) as Hcon1.
  destruct (dedup_core_scan std_sort Hsort pool W isa0 n Hn Hvals 1 d1 Hinv1 ltac:(lia))
    as (d2 & Hc & Hinv2).
  rewrite Hc in Hd. cbn [bind] in Hd.
  apply (dedup_loop_content m 2 d2 d); auto; try lia.
  apply (dedup_core_content 1 d1 d2 Hinv1 ltac:(lia) Hcon1 Hc).
Qed.

End ScanContent.

(** ** The steps of [build] *)

(** [build] returns for every dictionary with fewer than 2^31 suffix
    records, and what it returns is made of the results of its steps. *)
Lemma build_anatomy
    (std_sort : forall A : Type, (A -> A -> bool) -> list A -> list A)
    (junk : uninitialised) (dat_size : suffix_trie_type -> Z)
    (this : ComSubstrSearch) (dict : list ascii) (db_fname : string) :
  conforming_sort std_sort ->
  len (suffix_records std_sort junk this dict) < 2 ^ 31 ->
  (db_fname <> EmptyString ->
   1 <= len (suffix_records std_sort junk this dict)
   /\ len dict < 2 ^ 32
   /\ stores_in_pool (getlines [] dict) 0 (len dict) = true) ->
  exists b pool offset dwords0 d,
    build std_sort junk dat_size this dict db_fname = Ok b
    /\ anatomy std_sort junk dat_size this dict db_fname b pool offset dwords0 d
    /\ suffix_records std_sort junk this dict
       = sorted_suffixes std_sort this pool dwords0
    /\ (len (sorted_suffixes std_sort this pool dwords0) < 2 ->
        d = scan_start junk (sorted_suffixes std_sort this pool dwords0))
    /\ (2 <= len (sorted_suffixes std_sort this pool dwords0) ->
        scan_inv (len (sorted_words std_sort dwords0))
          (sorted_suffixes std_sort this pool dwords0)
          (len (sorted_suffixes std_sort this pool dwords0))
          (len (sorted_suffixes std_sort this pool dwords0)) d
        /\ scan_content pool (sorted_suffixes std_sort this pool dwords0) d).
Proof.
  intros Hsort Hn Hfile. unfold suffix_records in *. unfold build.
  destruct (read_lines (getlines [] dict) (fresh_array (junk_char junk) (len dict)) 0 [])
    as [[pool offset] dwords0] eqn:Hlines.
  fold (sorted_words std_sort dwords0) in *.
  fold (sorted_suffixes std_sort this pool dwords0) in *.
  set (isa0 := sorted_suffixes std_sort this pool dwords0) in *.
  fold (scan_start junk isa0).
  assert (Hn0 : 0 <= len isa0) by apply len_nonneg.
  assert (Hscan : exists d,
             dedup_loop std_sort pool (Z.to_nat (len isa0 - 1)) 1 (scan_start junk isa0)
             = Ok d
             /\ (len isa0 < 2 -> d = scan_start junk isa0)
             /\ (2 <= len isa0 ->
                 scan_inv (len (sorted_words std_sort dwords0)) isa0 (len isa0)
                   (len isa0) d
                 /\ scan_content pool isa0 d)).
  { destruct (Z.lt_ge_cases (len isa0) 2) as [Hsmall|Hbig].
    - exists (scan_start junk isa0).
      replace (Z.to_nat (len isa0 - 1)) with 0%nat by lia.
      split; [reflexivity|]. split; [reflexivity | lia].
    - destruct (dedup_scan_content std_sort Hsort pool
                  (len (sorted_words std_sort dwords0)) isa0 (len isa0) ltac:(lia))
        with (iindex0 := fresh_array (junk_list junk) (len isa0))
             (pool0 := fresh_array (junk_id junk) (len isa0))
        as (d & Hd & Hinv & Hcon); auto using fresh_array_len.
      { intros k r Hr. apply read_at_Ok in Hr as [_ Hr].
        destruct (Hsort trie_record_type (suffix_cmp pool)
                    (all_suffixes this 0 (sorted_words std_sort dwords0))
                    (suffix_cmp_swo pool)) as [Hperm _].
        apply (Permutation_in _ Hperm) in Hr.
        apply all_suffixes_values in Hr. lia. }
      exists d. split; [exact Hd|]. split; [lia | auto]. }
  destruct Hscan as (d & Hd & Hsmall & Hbig).
  rewrite Hd. cbn [bind].
  assert (Hw : (if String.eqb db_fname EmptyString then Ok None
                else
                  pool_block <- stored pool (wrap32 offset) ;;
                  iindex_block <- stored (b_suffix_iindex d) (wrap32 (b_i d + 1)) ;;
                  Ok (Some
                        {| db_dat :=
                             Some (dat_build pool
                                     (firstn (Z.to_nat (b_i d)) (b_input_suffix_array d)),
                                   dat_size
                                     (dat_build pool
                                        (firstn (Z.to_nat (b_i d))
                                           (b_input_suffix_array d))));
                           db_blocks :=
                             block "DWDP" pool_block
                             ++ block "DWAR"
                                  (flat_map bytes_of_dword (sorted_words std_sort dwords0))
                             ++ block "IDAR" (flat_map le32 (b_dwordid_pool d))
                             ++ block "IIND" (flat_map bytes_of_list iindex_block) |}))
               = Ok (if String.eqb db_fname EmptyString then None
                     else Some
                            {| db_dat :=
                                 Some (dat_build pool
                                         (firstn (Z.to_nat (b_i d))
                                            (b_input_suffix_array d)),
                                       dat_size
                                         (dat_build pool
                                            (firstn (Z.to_nat (b_i d))
                                               (b_input_suffix_array d))));
                               db_blocks :=
                                 block "DWDP" (firstn (Z.to_nat (wrap32 offset)) pool)
                                 ++ block "DWAR"
                                      (flat_map bytes_of_dword
                                         (sorted_words std_sort dwords0))
                                 ++ block "IDAR" (flat_map le32 (b_dwordid_pool d))
                                 ++ block "IIND"
                                      (flat_map bytes_of_list
                                         (firstn (Z.to_nat (wrap32 (b_i d + 1)))
                                            (b_suffix_iindex d))) |})).
  { destruct (String.eqb_spec db_fname EmptyString) as [He|Hne]; [reflexivity|].
    destruct (Hfile Hne) as (Hn1 & Hdict & Hstores).
    pose proof (len_nonneg dict) as Hd0.
    pose proof (getlines_span dict []) as Hspan.
    unfold len in Hspan at 1. cbn [List.length] in Hspan.
    pose proof (read_lines_offset (getlines [] dict) _ _ _ _ _ _ (len dict) Hlines
                  ltac:(lia) Hstores) as Hoff.
    apply read_lines_layout in Hlines;
      [|lia|rewrite fresh_array_len by lia; lia|rewrite fresh_array_len by lia; lia].
    destruct Hlines as (Hlp & _). rewrite fresh_array_len in Hlp by lia.
    unfold stored.
    rewrite (wrap32_small offset) by lia.
    replace (offset <=? len pool) with true by (symmetry; lia). cbn [bind].
    assert (Hi : 0 <= b_i d /\ b_i d + 1 <= len (b_suffix_iindex d)
                 /\ len (b_suffix_iindex d) < 2 ^ 31).
    { destruct (Z.lt_ge_cases (len isa0) 2) as [Hs|Hg].
      - rewrite (Hsmall Hs). unfold scan_start. cbn [b_i b_suffix_iindex].
        rewrite fresh_array_len by lia. lia.
      - destruct (Hbig Hg) as [[Hi Hj Hwao Hli _ _ _ _ _ _] _]. lia. }
    rewrite (wrap32_small (b_i d + 1)) by lia.
    replace (b_i d + 1 <=? len (b_suffix_iindex d)) with true by (symmetry; lia).
    reflexivity. }
  rewrite Hw. cbn [bind].
  eexists _, pool, offset, dwords0, d.
  split; [reflexivity|].
  split; [|split; [reflexivity | split; [exact Hsmall | exact Hbig]]].
  split; cbn [trie_records engine written trie m_char_table m_dwords_pool m_dwords_array
              m_dwords_array_size m_dwordid_pool m_dwordid_pool_size m_suffix_iindex
              m_suffix_iindex_size]; try reflexivity; [exact Hlines | exact Hd].
Qed.

(** ** The index [build] makes is coherent *)





(** The words [build] leaves in the engine stand for the keys of the
    dictionary. *)
Lemma build_words_hold_keys
    (std_sort : forall A : Type, (A -> A -> bool) -> list A -> list A)
    (junk : uninitialised) (dict : list ascii) (pool : list ascii) (offset : Z)
    (dwords0 : list dword_type) :
  len dict < 2 ^ 32 ->
  read_lines (getlines [] dict) (fresh_array (junk_char junk) (len dict)) 0 []
  = (pool, offset, dwords0) ->
  len pool = len dict
  /\ Forall2 (fun dw rec => holds_key pool dw (fst rec)) dwords0 (records_of dict).
Proof.
  intros Hlen Hlines.
  pose proof (len_nonneg dict) as Hd0.
  apply read_lines_layout in Hlines.
  - destruct Hlines as (Hl & _ & new & Hnew & F). cbn [app] in Hnew. subst new.
    rewrite fresh_array_len in Hl by lia. split; [exact Hl | exact F].
  - lia.
  - rewrite fresh_array_len by lia.
    pose proof (getlines_span dict []) as H. unfold len in H at 1. cbn [List.length] in H.
    lia.
  - rewrite fresh_array_len by lia. exact Hlen.
Qed.


(** ** From the dictionary to the results *)



(** X8.  On the inputs where [build] stays inside what C++ defines and
    finds a suffix record, the words of the engine [build] leaves are
    the records of the dictionary, the lines that hold a tab:
    [get_dwords_num] is their number, the words are in order of key
    length, and each word stands for the key of one record, which the
    pool holds at the offset of the word, a NUL after it. *)
Theorem build_words_are_the_dictionary_keys
    (std_sort : forall A : Type, (A -> A -> bool) -> list A -> list A)
    (junk : uninitialised) (dat_size : suffix_trie_type -> Z)
    (this : ComSubstrSearch) (dict : list ascii) (db_fname : string) :
  conforming_sort std_sort ->
  defined_build this dict = true ->
  1 <= len (suffix_records std_sort junk this dict) < 2 ^ 31 ->
  exists b ws,
    build std_sort junk dat_size this dict db_fname = Ok b
    /\ get_dwords_num (engine b) = len (records_of dict)
    /\ sorted_by dword_lt (m_dwords_array (engine b))
    /\ Permutation (m_dwords_array (engine b)) ws
    /\ Forall2 (fun dw rec => holds_key (m_dwords_pool (engine b)) dw (fst rec))
         ws (records_of dict).
Proof.
  intros Hsort Hdef [Hn1 Hn].
  destruct (defined_build_spec this dict Hdef) as (_ & _ & Hdict & Hstores).
  destruct (build_anatomy std_sort junk dat_size this dict db_fname Hsort Hn
              ltac:(intros Hne; split; [exact Hn1 | split; [lia | exact Hstores]]))
    as (b & pool & offset & dwords0 & d & Hb & Han & _).
  destruct Han as [Hlines _ _ _ _ Hpool Hwords Hsize _ _ _ _ _].
  destruct (build_words_hold_keys std_sort junk dict pool offset dwords0 ltac:(lia) Hlines)
    as [Hlp Hkeys].
  destruct (Hsort dword_type dword_lt dwords0 dword_lt_swo) as [Hperm Hsorted].
  exists b, dwords0. split; [exact Hb|].
  rewrite Hwords, Hpool. unfold get_dwords_num. rewrite Hsize.
  split; [|split; [exact Hsorted | split; [exact Hperm | exact Hkeys]]].
  assert (Hl : len (sorted_words std_sort dwords0) = len (records_of dict)).
  { unfold len, sorted_words.
    rewrite (Permutation_length Hperm), (Forall2_length Hkeys). reflexivity. }
  rewrite Hl. apply wrap32_small.
  assert (Hcount : forall lines, len (parsed lines) <= span lines).
  { induction lines as [|line lines IH]; cbn [parsed flat_map span].
    - unfold len. cbn. lia.
    - fold (parsed lines). rewrite len_app. pose proof (len_nonneg line).
      unfold record_of. destruct (find_tab line); unfold len in *; cbn [List.length]; lia. }
  pose proof (Hcount (getlines [] dict)) as Hc.
  pose proof (getlines_span dict []) as Hs. unfold len in Hs at 1. cbn [List.length] in Hs.
  pose proof (len_nonneg (records_of dict)). unfold records_of in *. lia.
Qed.

Lemma build_words_are_the_dictionary_keys_witness :
  exists b ws,
    build insertion_sort zero_junk (fun _ => 1) (ComSubstrSearch_new (1 # 2) 2)
      youth_file "youth.db" = Ok b
    /\ get_dwords_num (engine b) = len (records_of youth_file)
    /\ sorted_by dword_lt (m_dwords_array (engine b))
    /\ Permutation (m_dwords_array (engine b)) ws
    /\ Forall2 (fun dw rec => holds_key (m_dwords_pool (engine b)) dw (fst rec))
         ws (records_of youth_file).
Proof.
  apply (build_words_are_the_dictionary_keys insertion_sort zero_junk (fun _ => 1)
           (ComSubstrSearch_new (1 # 2) 2) youth_file "youth.db");
    try (vm_compute; reflexivity).
  - exact insertion_sort_conforming.
  - vm_compute. split; [discriminate | reflexivity].
Defined.

(** X9.  On the inputs where [build] stays inside what C++ defines and
    has two suffix records or more to scan, the inverted lists it makes
    tile the id pool: the first list starts at 0, each list starts where
    the one before it ends, none is empty, and the last ends at
    [m_dwordid_pool_size]; every id of the pool is a word of the array;
    and every list but the last ascends by id. *)
Theorem build_lists_tile_the_pool
    (std_sort : forall A : Type, (A -> A -> bool) -> list A -> list A)
    (junk : uninitialised) (dat_size : suffix_trie_type -> Z)
    (this : ComSubstrSearch) (dict : list ascii) (db_fname : string) :
  conforming_sort std_sort ->
  defined_build this dict = true ->
  2 <= len (suffix_records std_sort junk this dict) < 2 ^ 31 ->
  exists b last,
    build std_sort junk dat_size this dict db_fname = Ok b
    /\ 1 <= m_suffix_iindex_size (engine b)
    /\ (exists l0, read_at (m_suffix_iindex (engine b)) 0 = Ok l0 /\ list_offset l0 = 0)
    /\ (forall s l,
          0 <= s < m_suffix_iindex_size (engine b) ->
          read_at (m_suffix_iindex (engine b)) s = Ok l ->
          0 <= list_offset l /\ 1 <= list_size l)
    /\ (forall s l l',
          0 <= s -> s + 1 < m_suffix_iindex_size (engine b) ->
          read_at (m_suffix_iindex (engine b)) s = Ok l ->
          read_at (m_suffix_iindex (engine b)) (s + 1) = Ok l' ->
          list_offset l' = list_offset l + list_size l
          /\ ascending_ids (m_dwordid_pool (engine b)) (list_offset l) (list_size l))
    /\ read_at (m_suffix_iindex (engine b)) (m_suffix_iindex_size (engine b) - 1) = Ok last
    /\ list_offset last + list_size last = m_dwordid_pool_size (engine b)
    /\ (forall p id,
          0 <= p < m_dwordid_pool_size (engine b) ->
          read_at (m_dwordid_pool (engine b)) p = Ok id ->
          0 <= id < len (m_dwords_array (engine b))).
Proof.
  intros Hsort Hdef [Hn2 Hn].
  destruct (defined_build_spec this dict Hdef) as (_ & _ & Hdict & Hstores).
  destruct (build_anatomy std_sort junk dat_size this dict db_fname Hsort Hn
              ltac:(intros Hne; split; [lia | split; [lia | exact Hstores]]))
    as (b & pool & offset & dwords0 & d & Hb & Han & Hrecs & _ & Hbig).
  rewrite Hrecs in *.
  destruct Han as [_ _ _ _ _ _ Hwords _ Hids Hidsize Hlists Hsize _].
  destruct (Hbig Hn2) as [[Hi Hj Hwao Hl1 Hl2 Hl3 Hv Hrest Hvalid
                             (li & Hli & Ho & Hz & Hend & Hdone)]
                          [Hfirst Hnext _ _]].
  exists b, li. split; [exact Hb|].
  rewrite Hlists, Hids, Hsize, Hidsize, Hwords.
  rewrite !wrap32_small by lia.
  split; [lia|]. split; [exact Hfirst|].
  split.
  { intros s l Hs Hl. destruct (Z.eq_dec s (b_i d)) as [->|Hne].
    - rewrite Hli in Hl. injection Hl as <-. lia.
    - destruct (Hdone s l ltac:(lia) Hl) as (H1 & H2 & _). lia. }
  split.
  { intros s l l' Hs0 Hs1 Hl Hl'. split.
    - apply (Hnext s l l'); auto. lia.
    - destruct (Hdone s l ltac:(lia) Hl) as (_ & _ & _ & Ha). exact Ha. }
  split; [replace (b_i d + 1 - 1) with (b_i d) by lia; exact Hli|].
  split; [lia|].
  intros p id Hp Hid. apply (Hvalid p id); auto.
Qed.

Lemma build_lists_tile_the_pool_witness :
  exists b last,
    build insertion_sort zero_junk (fun _ => 1) (ComSubstrSearch_new (1 # 2) 2)
      youth_file "" = Ok b
    /\ 1 <= m_suffix_iindex_size (engine b)
    /\ (exists l0, read_at (m_suffix_iindex (engine b)) 0 = Ok l0 /\ list_offset l0 = 0)
    /\ (forall s l,
          0 <= s < m_suffix_iindex_size (engine b) ->
          read_at (m_suffix_iindex (engine b)) s = Ok l ->
          0 <= list_offset l /\ 1 <= list_size l)
    /\ (forall s l l',
          0 <= s -> s + 1 < m_suffix_iindex_size (engine b) ->
          read_at (m_suffix_iindex (engine b)) s = Ok l ->
          read_at (m_suffix_iindex (engine b)) (s + 1) = Ok l' ->
          list_offset l' = list_offset l + list_size l
          /\ ascending_ids (m_dwordid_pool (engine b)) (list_offset l) (list_size l))
    /\ read_at (m_suffix_iindex (engine b)) (m_suffix_iindex_size (engine b) - 1) = Ok last
    /\ list_offset last + list_size last = m_dwordid_pool_size (engine b)
    /\ (forall p id,
          0 <= p < m_dwordid_pool_size (engine b) ->
          read_at (m_dwordid_pool (engine b)) p = Ok id ->
          0 <= id < len (m_dwords_array (engine b))).
Proof.
  apply (build_lists_tile_the_pool insertion_sort zero_junk (fun _ => 1)
           (ComSubstrSearch_new (1 # 2) 2) youth_file "").
  - exact insertion_sort_conforming.
  - vm_compute. reflexivity.
  - vm_compute. split; [discriminate | reflexivity].
Defined.

(** ** Searching without an index *)

Section FromIndex.

Variable e : ComSubstrSearch.

Lemma retrieve_dword_from_index query match_len suffixid suffix_len st k st' :
  retrieve_dword e query match_len suffixid suffix_len st = Ok (k, st') ->
  adds (from_index e) st st'.
Proof.
  intros H. apply retrieve_dword_adds in H.
  eapply adds_weaken; [|exact H].
  intros r (dw & Hl & ->). exists suffixid, dw, match_len, suffix_len. auto.
Qed.

Lemma visit_terminal_from_index query match_len base cur_node st k st' :
  visit_terminal e query match_len base cur_node st = Ok (k, st') ->
  adds (from_index e) st st'.
Proof.
  unfold visit_terminal. cbv zeta. cbn [tail_pos seekg].
  destruct (_ <=? _); [|intros H; injection H as _ <-; exact (adds_refl _ st)].
  unfold read_suffixid. cbn [tail_pos seekg].
  intros H. apply retrieve_dword_from_index in H. exact H.
Qed.

Lemma bf_loop_from_index query match_len except :
  forall fuel node_queue result_num st k st',
    bf_loop e query match_len except fuel node_queue result_num st = Ok (k, st') ->
    adds (from_index e) st st'.
Proof.
  induction fuel as [|fuel IH]; intros node_queue result_num st k st' H;
    destruct node_queue as [|cur_node node_queue]; cbn [bf_loop] in H;
    try (injection H as _ <-; apply adds_refl).
  - destruct (_ <? _); [discriminate | injection H as _ <-; apply adds_refl].
  - destruct (len (results st) <? limit query);
      [|injection H as _ <-; apply adds_refl].
    destruct (get_base (trie e) (cur cur_node) <? 0).
    + apply bind_Ok in H as ([n st1] & Hv & H).
      apply visit_terminal_from_index in Hv. apply IH in H.
      eapply adds_trans; eauto.
    + destruct (suffix_len cur_node <=? max_dword_len query); apply IH in H; exact H.
Qed.

Lemma df_loop_from_index query match_len except :
  forall fuel node_stack result_num st k st',
    df_loop e query match_len except fuel node_stack result_num st = Ok (k, st') ->
    adds (from_index e) st st'.
Proof.
  induction fuel as [|fuel IH]; intros node_stack result_num st k st' H;
    destruct node_stack as [|cur_node node_stack]; cbn [df_loop] in H;
    try (injection H as _ <-; apply adds_refl).
  - destruct (_ <? _); [discriminate | injection H as _ <-; apply adds_refl].
  - destruct (len (results st) <? limit query);
      [|injection H as _ <-; apply adds_refl].
    destruct (get_base (trie e) (cur cur_node) <? 0).
    + apply bind_Ok in H as ([n st1] & Hv & H).
      apply visit_terminal_from_index in Hv. apply IH in H.
      eapply adds_trans; eauto.
    + destruct (suffix_len cur_node <=? max_dword_len query); apply IH in H; exact H.
Qed.

Lemma walk_from_index query :
  forall fuel cur match_len stack result_num st we,
    walk e query fuel cur match_len stack result_num st = Ok we ->
    adds (from_index e) st (we_memory we).
Proof.
  induction fuel as [|fuel IH]; intros cur0 match_len stack result_num st we H;
    cbn [walk] in H.
  - destruct (_ && _); [discriminate|]. injection H as <-. apply adds_refl.
  - destruct (_ && _); [|injection H as <-; apply adds_refl].
    destruct (index_eqb _ _); [injection H as <-; apply adds_refl|].
    destruct (get_base _ _ <? 0).
    + apply bind_Ok in H as ([n st1] & Hr & H). injection H as <-.
      cbn [we_memory].
      destruct (_ >=? _); [|injection Hr as _ <-; exact (adds_refl _ st)].
      unfold read_suffixid in Hr. cbn [tail_pos seekg] in Hr.
      apply retrieve_dword_from_index in Hr. exact Hr.
    + apply IH in H. exact H.
Qed.

Lemma backtrack_from_index query :
  forall stack match_len except result_num st k st',
    backtrack e query stack match_len except result_num st = Ok (k, st') ->
    adds (from_index e) st st'.
Proof.
  induction stack as [|cur0 rest IH]; intros match_len except result_num st k st' H;
    cbn [backtrack] in H.
  - injection H as _ <-. apply adds_refl.
  - apply bind_Ok in H as ([n st1] & Ht & H). apply IH in H.
    eapply adds_trans; [|exact H].
    unfold df_traversal, bf_traversal in Ht.
    destruct (depth_first_search query); destruct (_ || _);
      try (injection Ht as _ <-; apply adds_refl).
    + eapply df_loop_from_index; eauto.
    + eapply bf_loop_from_index; eauto.
Qed.

Lemma compre_search_from_index query st k st' :
  compre_search e query st = Ok (k, st') -> adds (from_index e) st st'.
Proof.
  unfold compre_search. intros H.
  destruct (_ || _); [injection H as _ <-; apply adds_refl|].
  destruct (_ <? 0); [injection H as _ <-; apply adds_refl|].
  apply bind_Ok in H as (we & Hw & H).
  apply walk_from_index in Hw. apply backtrack_from_index in H.
  eapply adds_trans; eauto.
Qed.

Lemma search_loop_from_index query :
  forall n suffixq i result_num st k st',
    search_loop e query suffixq n i result_num st = Ok (k, st') ->
    adds (from_index e) st st'.
Proof.
  induction n as [|n IH]; intros suffixq i result_num st k st' H; cbn [search_loop] in H.
  - injection H as _ <-. apply adds_refl.
  - apply bind_Ok in H as ([k1 st1] & Hc & H).
    apply compre_search_from_index in Hc. apply IH in H.
    eapply adds_trans; eauto.
Qed.

(** An engine whose index holds no list finds nothing. *)
Lemma no_index_no_result (query : Query) (v : list Result) (tpos : Z) :
  m_suffix_iindex_size e <= 0 ->
  existsb (fun c => Ascii.eqb c NUL) (m_char_table e) = true ->
  len (m_tail (trie e)) < 2 ^ 32 ->
  0 <= limit query ->
  no_result e query v tpos.
Proof.
  intros Hsize Htable Htail Hlim. unfold no_result.
  destruct (answered query) eqn:Ha.
  - assert (Hwf : wf_engine e = true).
    { unfold wf_engine. rewrite Htable. cbn [andb].
      apply andb_true_iff. split; [|apply Z.ltb_lt; exact Htail].
      rewrite andb_true_r. apply forallb_forall. intros s Hs. unfold suffixid_ok.
      unfold stored_suffixids in Hs. apply in_map_iff in Hs as (off & <- & _).
      pose proof (tail_read_value_nonneg (trie e)
                    (off + (tail_strlen (trie e) off + 1))).
      destruct (_ <? _) eqn:E; [lia | reflexivity]. }
    destruct (search_answered e Hwf query v tpos Hlim Ha)
      as (n & v' & tpos' & Hs & _ & Hcount & _).
    assert (Hnone : v' = []).
    { pose proof Hs as Hs'. unfold search in Hs'. apply answered_spec in Ha as [Ha1 Ha2].
      replace (len (word query) <? min_common_len query) with false in Hs'
        by (symmetry; lia).
      replace (limit query =? 0) with false in Hs' by (symmetry; lia).
      cbn [orb] in Hs'.
      assert (Hadds : adds (from_index e) {| results := []; tail_pos := tpos |}
                        {| results := v'; tail_pos := tpos' |}).
      { destruct (com_prefix_only query).
        - apply bind_Ok in Hs' as ([k st'] & Hc & Hs'). injection Hs' as _ <- <-.
          apply compre_search_from_index in Hc. destruct st'. exact Hc.
        - apply bind_Ok in Hs' as ([k st'] & Hc & Hs'). injection Hs' as _ <- <-.
          apply search_loop_from_index in Hc. destruct st'. exact Hc. }
      destruct Hadds as (new & Hnew & F). cbn [results app] in Hnew. subst new.
      destruct v' as [|r v']; [reflexivity|]. exfalso.
      inversion F as [|? ? (s & dw & ml & sl & (Hlt & l & p & Hl & _) & _) _]; subst.
      apply read_at_Ok in Hl. lia. }
    subst v'. exists tpos'. rewrite Hs. f_equal. f_equal. f_equal.
    unfold search in Hs. apply answered_spec in Ha as [Ha1 Ha2].
    replace (len (word query) <? min_common_len query) with false in Hs
      by (symmetry; lia).
    replace (limit query =? 0) with false in Hs by (symmetry; lia).
    cbn [orb] in Hs.
    destruct (com_prefix_only query).
    + apply bind_Ok in Hs as ([k st'] & _ & Hs). injection Hs as <- _ _. reflexivity.
    + rewrite Hcount by reflexivity. reflexivity.
  - exists tpos. unfold search. unfold answered in Ha. apply negb_false_iff in Ha.
    rewrite Ha. reflexivity.
Qed.

End FromIndex.

(** X10.  After [clear] a search finds nothing and returns 0, whatever
    the engine held and whatever the trie of the base class still holds:
    it reads none of the arrays [clear] freed.  (The char table holds
    the NUL byte, as [set_char_table] sees to, and the tail of the trie
    is below [2 ^ 32] bytes.) *)
Theorem search_after_clear (this : ComSubstrSearch) (query : Query)
    (v : list Result) (tpos : Z) :
  existsb (fun c => Ascii.eqb c NUL) (m_char_table this) = true ->
  len (m_tail (trie this)) < 2 ^ 32 ->
  0 <= limit query ->
  no_result (clear this) query v tpos.
Proof.
  intros Htable Htail Hlim.
  apply no_index_no_result; auto.
  unfold clear. cbn [m_suffix_iindex_size]. lia.
Qed.

Lemma search_after_clear_witness :
  no_result (clear youth_engine) youth_query [stale_result] 0.
Proof.
  apply (search_after_clear youth_engine youth_query [stale_result] 0);
    vm_compute; congruence.
Defined.




(** ** Reading a database *)

Lemma len_le32 (v : Z) : len (le32 v) = 4.
Proof. reflexivity. Qed.

Lemma le32_decode_le32 (v : Z) (rest : list ascii) :
  le32_decode (le32 v ++ rest) = wrap32 v.
Proof.
  unfold le32_decode.
  assert (H : le32 v = le32 (wrap32 v)).
  { unfold le32. rewrite wrap32_idem. reflexivity. }
  rewrite H. apply le32_decode_value. apply wrap32_range.
Qed.

Lemma le32_decode_exact (v : Z) : le32_decode (le32 v) = wrap32 v.
Proof. rewrite <- (app_nil_r (le32 v)). apply le32_decode_le32. Qed.

Lemma stream_read_app (ifs : ifstream) (a rest : list ascii) :
  is_fail ifs = false -> is_bytes ifs = a ++ rest ->
  stream_read ifs (len a)
  = (a, {| is_bytes := rest; is_pos := is_pos ifs + len a; is_fail := false |}).
Proof.
  intros Hf Hb. unfold stream_read. rewrite Hf, Hb.
  assert (Hn : Z.to_nat (len a) = List.length a) by (unfold len; lia).
  assert (Hfirst : firstn (List.length a) (a ++ rest) = a).
  { rewrite firstn_app, Nat.sub_diag, firstn_all. cbn [firstn]. apply app_nil_r. }
  assert (Hskip : skipn (List.length a) (a ++ rest) = rest).
  { rewrite skipn_app, Nat.sub_diag, skipn_all. reflexivity. }
  rewrite Hn, Hfirst, Hskip, Z.ltb_irrefl. reflexivity.
Qed.

Lemma overlay_same_length (got old : list ascii) :
  List.length got = List.length old -> overlay got old = got.
Proof.
  intros H. unfold overlay. rewrite <- H, firstn_all, H, skipn_all. apply app_nil_r.
Qed.

Lemma tag_differs_same (t : block_tag) : tag_differs (tag_bytes t) t = false.
Proof. destruct t; reflexivity. Qed.

Lemma len_tag_bytes (t : block_tag) : len (tag_bytes t) = 4.
Proof. destruct t; reflexivity. Qed.

(** A whole block under the read position. *)
Lemma read_block_whole (junk : Z -> ascii) (t : block_tag) (width : Z)
    (ifs : ifstream) (chunk : list ascii) (block_size : Z)
    (payload rest : list ascii) :
  is_fail ifs = false ->
  is_bytes ifs = block_bytes t payload ++ rest ->
  List.length chunk = 4%nat ->
  len payload < 2 ^ 32 ->
  read_block junk t width ifs chunk block_size
  = ({| is_bytes := rest; is_pos := is_pos ifs + 8 + len payload; is_fail := false |},
     tag_bytes t, len payload,
     Some (overlay payload
             (fresh_array junk (Z.quot (len payload) width * width)))).
Proof.
  intros Hf Hb Hc Hp. unfold read_block. unfold block_bytes in Hb.
  rewrite <- !app_assoc in Hb.
  pose proof (len_nonneg payload) as Hp0.
  replace 4 with (len (tag_bytes t)) at 1 by apply len_tag_bytes.
  rewrite (stream_read_app ifs _ _ Hf Hb).
  rewrite overlay_same_length by (rewrite Hc; destruct t; reflexivity).
  rewrite tag_differs_same.
  replace 4 with (len (le32 (len payload))) at 1 by apply len_le32.
  rewrite (stream_read_app _ (le32 (len payload)) (payload ++ rest)) by reflexivity.
  rewrite overlay_same_length by reflexivity.
  rewrite le32_decode_exact, wrap32_small by lia.
  rewrite (stream_read_app _ payload rest) by reflexivity.
  cbn [is_pos]. rewrite len_tag_bytes, len_le32.
  f_equal. f_equal. f_equal. f_equal. lia.
Qed.

(** A block whose payload the file does not hold in full. *)
Lemma read_block_short (junk : Z -> ascii) (t : block_tag) (width : Z)
    (ifs : ifstream) (chunk : list ascii) (block_size : Z)
    (n : Z) (p : list ascii) :
  is_fail ifs = false ->
  is_bytes ifs = tag_bytes t ++ le32 n ++ p ->
  List.length chunk = 4%nat ->
  0 <= n < 2 ^ 32 -> len p < n ->
  read_block junk t width ifs chunk block_size
  = ({| is_bytes := skipn (Z.to_nat n) p; is_pos := is_pos ifs + 8 + len p;
        is_fail := true |},
     tag_bytes t, n,
     Some (overlay p (fresh_array junk (Z.quot n width * width)))).
Proof.
  intros Hf Hb Hc Hn Hp. unfold read_block.
  replace 4 with (len (tag_bytes t)) at 1 by apply len_tag_bytes.
  rewrite (stream_read_app ifs _ _ Hf Hb).
  rewrite overlay_same_length by (rewrite Hc; destruct t; reflexivity).
  rewrite tag_differs_same.
  replace 4 with (len (le32 n)) at 1 by apply len_le32.
  rewrite (stream_read_app _ (le32 n) p) by reflexivity.
  rewrite overlay_same_length by reflexivity.
  rewrite le32_decode_exact, wrap32_small by lia.
  unfold stream_read. cbn [is_fail is_bytes is_pos].
  rewrite firstn_all2 by (unfold len in Hp; lia).
  replace (len p <? n) with true by (symmetry; lia).
  rewrite len_tag_bytes, len_le32.
  f_equal. f_equal. f_equal. f_equal. lia.
Qed.

(** X12.  [read] takes a database that ends inside the payload of its
    last block for a good one: the four tags are in place, so it returns
    [tellg()] of the failed stream, which is -1 as a [size_t] and not the
    0 that says failure, and the engine claims all the lists the block
    announced. *)
Theorem read_accepts_truncated_database (junk : Z -> ascii) (chunk0 : list ascii)
    (this : ComSubstrSearch) (tr : suffix_trie_type) (dat_read : Z)
    (p1 p2 p3 : list ascii) (n : Z) (p4 : list ascii) :
  0 < dat_read -> List.length chunk0 = 4%nat ->
  len p1 < 2 ^ 32 -> len p2 < 2 ^ 32 -> len p3 < 2 ^ 32 ->
  0 <= n < 2 ^ 32 -> len p4 < n ->
  used_size (read junk chunk0 this (Some (cut_short tr dat_read p1 p2 p3 n p4)))
  = 2 ^ 64 - 1
  /\ m_suffix_iindex_size
       (after (read junk chunk0 this (Some (cut_short tr dat_read p1 p2 p3 n p4))))
     = Z.quot n 8.
Proof.
  intros Hd Hc H1 H2 H3 Hn H4. unfold read, cut_short. cbn [db_dat db_blocks].
  replace (dat_read >? 0) with true by (symmetry; lia).
  erewrite (read_block_whole junk DWDP 1 _ chunk0 0 p1);
    [|reflexivity|reflexivity|exact Hc|exact H1].
  erewrite (read_block_whole junk DWAR 8 _ _ _ p2);
    [|reflexivity|reflexivity|reflexivity|exact H2].
  erewrite (read_block_whole junk IDAR 4 _ _ _ p3);
    [|reflexivity|reflexivity|reflexivity|exact H3].
  erewrite (read_block_short junk IIND 8 _ _ _ n p4);
    [|reflexivity|reflexivity|reflexivity|exact Hn|exact H4].
  cbn [used_size after m_suffix_iindex_size]. unfold tellg. cbn [is_fail].
  split; reflexivity.
Qed.

Lemma read_accepts_truncated_database_witness :
  used_size (read no_junk four_nul (ComSubstrSearch_new (1 # 2) 2)
               (Some (cut_short empty_trie 1 [] [] [] 16 four_nul)))
  = 2 ^ 64 - 1
  /\ m_suffix_iindex_size
       (after (read no_junk four_nul (ComSubstrSearch_new (1 # 2) 2)
                 (Some (cut_short empty_trie 1 [] [] [] 16 four_nul))))
     = Z.quot 16 8.
Proof.
  apply (read_accepts_truncated_database no_junk four_nul (ComSubstrSearch_new (1 # 2) 2)
           empty_trie 1 [] [] [] 16 four_nul);
    vm_compute; intuition congruence.
Defined.

(** ** Writing a database and reading it back *)

Lemma chunks_flat_map {A : Type} (f : A -> list ascii) (w : nat) :
  (forall x, List.length (f x) = w) ->
  forall l, chunks w (List.length l) (flat_map f l) = map f l.
Proof.
  intros Hw. induction l as [|x l IH]; cbn [List.length chunks flat_map map];
    [reflexivity|].
  rewrite firstn_app, skipn_app, Hw, Nat.sub_diag, firstn_all2, skipn_all2 by (rewrite Hw; lia).
  cbn [firstn skipn app]. rewrite app_nil_r, IH. reflexivity.
Qed.

Lemma len_flat_map {A : Type} (f : A -> list ascii) (w : Z) :
  (forall x, len (f x) = w) ->
  forall l, len (flat_map f l) = w * len l.
Proof.
  intros Hw. induction l as [|x l IH]; cbn [flat_map].
  - unfold len. cbn [List.length]. lia.
  - rewrite len_app, Hw, IH, len_cons. lia.
Qed.

Lemma dword_of_bytes_exact (d : dword_type) :
  dword32 d -> dword_of_bytes (bytes_of_dword d) = d.
Proof.
  intros [Ho Hs]. destruct d as [o s]. cbn [dword_offset dword_size] in *.
  unfold dword_of_bytes, bytes_of_dword. cbn [dword_offset dword_size].
  rewrite le32_decode_le32.
  change (skipn 4 (le32 o ++ le32 s)) with (le32 s).
  rewrite le32_decode_exact, !wrap32_small by lia. reflexivity.
Qed.

Lemma list_of_bytes_exact (l : dword_list_type) :
  list32 l -> list_of_bytes (bytes_of_list l) = l.
Proof.
  intros [Ho Hs]. destruct l as [o s]. cbn [list_offset list_size] in *.
  unfold list_of_bytes, bytes_of_list. cbn [list_offset list_size].
  rewrite le32_decode_le32.
  change (skipn 4 (le32 o ++ le32 s)) with (le32 s).
  rewrite le32_decode_exact, !wrap32_small by lia. reflexivity.
Qed.

Lemma map_exact {A B : Type} (enc : A -> B) (dec : B -> A) (P : A -> Prop) (l : list A) :
  (forall x, P x -> dec (enc x) = x) -> Forall P l -> map dec (map enc l) = l.
Proof.
  intros H F. induction F as [|x l Hx _ IH]; cbn [map]; [reflexivity|].
  rewrite (H x Hx), IH. reflexivity.
Qed.

Lemma overlay_whole (junk : Z -> ascii) (payload : list ascii) (w k : Z) :
  0 < w -> 0 <= k -> len payload = w * k ->
  overlay payload (fresh_array junk (Z.quot (len payload) w * w)) = payload.
Proof.
  intros Hw Hk Hl. apply overlay_same_length.
  assert (Hq : Z.quot (len payload) w = k)
    by (rewrite Hl, Z.mul_comm; apply Z.quot_mul; lia).
  rewrite Hq.
  pose proof (fresh_array_len junk (k * w) ltac:(nia)) as H.
  unfold len in *. lia.
Qed.

(** [read] on the database the writer makes of a trie and four arrays
    of 32-bit words: it returns the size of the file and loads the
    arrays. *)
Lemma read_database (junk : Z -> ascii) (chunk0 : list ascii) (this : ComSubstrSearch)
    (tr : suffix_trie_type) (dat_read : Z) (pool : list ascii)
    (words : list dword_type) (ids : list Z) (lists : list dword_list_type) :
  0 < dat_read -> List.length chunk0 = 4%nat ->
  len pool < 2 ^ 32 -> 8 * len words < 2 ^ 32 -> 4 * len ids < 2 ^ 32 ->
  8 * len lists < 2 ^ 32 ->
  Forall dword32 words -> Forall (fun id => 0 <= id < 2 ^ 32) ids ->
  Forall list32 lists ->
  read junk chunk0 this (Some (database tr dat_read pool words ids lists))
  = {| used_size := dat_read + len (db_blocks (database tr dat_read pool words ids lists));
       after := loaded_with this tr pool words ids lists;
       stopped_at := None |}.
Proof.
  intros Hd Hc Hp Hw Hi Hl Fw Fi Fl.
  pose proof (len_nonneg words) as Hw0. pose proof (len_nonneg ids) as Hi0.
  pose proof (len_nonneg lists) as Hl0.
  assert (Lw : len (flat_map bytes_of_dword words) = 8 * len words)
    by (apply len_flat_map; reflexivity).
  assert (Li : len (flat_map le32 ids) = 4 * len ids)
    by (apply len_flat_map; reflexivity).
  assert (Ll : len (flat_map bytes_of_list lists) = 8 * len lists)
    by (apply len_flat_map; reflexivity).
  unfold read, database. cbn [db_dat db_blocks].
  replace (dat_read >? 0) with true by (symmetry; lia).
  change (block "DWDP" pool) with (block_bytes DWDP pool).
  change (block "DWAR" (flat_map bytes_of_dword words))
    with (block_bytes DWAR (flat_map bytes_of_dword words)).
  change (block "IDAR" (flat_map le32 ids)) with (block_bytes IDAR (flat_map le32 ids)).
  change (block "IIND" (flat_map bytes_of_list lists))
    with (block_bytes IIND (flat_map bytes_of_list lists)).
  erewrite (read_block_whole junk DWDP 1 _ chunk0 0 pool);
    [|reflexivity|reflexivity|exact Hc|exact Hp].
  erewrite (read_block_whole junk DWAR 8 _ _ _ (flat_map bytes_of_dword words));
    [|reflexivity|reflexivity|reflexivity|lia].
  erewrite (read_block_whole junk IDAR 4 _ _ _ (flat_map le32 ids));
    [|reflexivity|reflexivity|reflexivity|lia].
  erewrite (read_block_whole junk IIND 8 _ _ _ (flat_map bytes_of_list lists));
    [|reflexivity|rewrite app_nil_r; reflexivity|reflexivity|lia].
  rewrite (overlay_whole junk pool 1 (len pool)) by (pose proof (len_nonneg pool); lia).
  rewrite (overlay_whole junk _ 8 (len words) ltac:(lia) Hw0 Lw).
  rewrite (overlay_whole junk _ 4 (len ids) ltac:(lia) Hi0 Li).
  rewrite (overlay_whole junk _ 8 (len lists) ltac:(lia) Hl0 Ll).
  rewrite Lw, Li, Ll.
  replace (Z.quot (8 * len words) 8) with (len words)
    by (rewrite Z.mul_comm, Z.quot_mul; lia).
  replace (Z.quot (4 * len ids) 4) with (len ids)
    by (rewrite Z.mul_comm, Z.quot_mul; lia).
  replace (Z.quot (8 * len lists) 8) with (len lists)
    by (rewrite Z.mul_comm, Z.quot_mul; lia).
  replace (Z.to_nat (len words)) with (List.length words) by (unfold len; lia).
  replace (Z.to_nat (len ids)) with (List.length ids) by (unfold len; lia).
  replace (Z.to_nat (len lists)) with (List.length lists) by (unfold len; lia).
  rewrite (chunks_flat_map bytes_of_dword 8) by reflexivity.
  rewrite (chunks_flat_map le32 4) by reflexivity.
  rewrite (chunks_flat_map bytes_of_list 8) by reflexivity.
  rewrite (map_exact bytes_of_dword dword_of_bytes dword32 words dword_of_bytes_exact Fw).
  rewrite (map_exact le32 le32_decode (fun id => 0 <= id < 2 ^ 32) ids) by
    (auto; intros x Hx; rewrite le32_decode_exact; apply wrap32_small; exact Hx).
  rewrite (map_exact bytes_of_list list_of_bytes list32 lists list_of_bytes_exact Fl).
  unfold tellg, loaded_with, clear. cbn [is_fail is_pos trie m_suffix_ratio m_min_suffix
    m_char_table with_trie].
  f_equal.
  unfold block_bytes. rewrite !len_app, !len_tag_bytes, !len_le32, Lw, Li, Ll.
  unfold len. lia.
Qed.

(** ** The database of [build], read back *)

Lemma len_firstn_within {A : Type} (a : list A) (n : Z) :
  0 <= n <= len a -> len (firstn (Z.to_nat n) a) = n.
Proof.
  intros H. unfold len in *. rewrite length_firstn. lia.
Qed.

Lemma read_at_firstn {A : Type} (a : list A) (n k : Z) :
  k < n -> read_at (firstn (Z.to_nat n) a) k = read_at a k.
Proof.
  intros Hn. unfold read_at. destruct (k <? 0) eqn:Hk; [reflexivity|].
  apply Z.ltb_ge in Hk. rewrite nth_error_firstn.
  replace (Z.to_nat k <? Z.to_nat n)%nat with true by (symmetry; apply Nat.ltb_lt; lia).
  reflexivity.
Qed.

Lemma Forall_read_at {A : Type} (P : A -> Prop) (a : list A) :
  (forall k x, read_at a k = Ok x -> P x) -> Forall P a.
Proof.
  intros H. apply Forall_forall. intros x Hx.
  apply In_nth_error in Hx as (k & Hk).
  apply (H (Z.of_nat k)). unfold read_at.
  destruct (Z.ltb_spec (Z.of_nat k) 0) as [Hneg|_]; [lia|].
  rewrite Nat2Z.id, Hk. reflexivity.
Qed.

Lemma dword32_wrap (o s : Z) :
  dword32 {| dword_offset := wrap32 o; dword_size := wrap32 s |}.
Proof.
  split; cbn [dword_offset dword_size]; apply wrap32_range.
Qed.

Lemma read_lines_dword32 (lines : list (list ascii)) :
  forall pool offset dws pool' offset' dws',
    read_lines lines pool offset dws = (pool', offset', dws') ->
    Forall dword32 dws -> Forall dword32 dws'.
Proof.
  induction lines as [|line lines IH]; intros pool offset dws pool' offset' dws' H F;
    cbn [read_lines] in H.
  - injection H as <- <- <-. exact F.
  - destruct (find_tab line) as [key_len|].
    + apply IH in H; [exact H|].
      apply Forall_app. split; [exact F|]. constructor; [apply dword32_wrap | constructor].
    + apply IH in H; [exact H | exact F].
Qed.

Lemma parsed_span (lines : list (list ascii)) : len (parsed lines) <= span lines.
Proof.
  induction lines as [|line lines IH]; cbn [parsed flat_map span].
  - unfold len. cbn [List.length]. lia.
  - fold (parsed lines). rewrite len_app.
    pose proof (len_nonneg line).
    assert (len (record_of line) <= 1).
    { unfold record_of. destruct (find_tab line); unfold len; cbn [List.length]; lia. }
    lia.
Qed.

Lemma Forall2_len {A B : Type} (R : A -> B -> Prop) (l : list A) (l' : list B) :
  Forall2 R l l' -> len l = len l'.
Proof.
  intros F. unfold len. rewrite (Forall2_length F). reflexivity.
Qed.

(** What [build] writes and what it keeps, for a dictionary of less than
    [2 ^ 28] bytes with a suffix record: the same arrays, whose entries
    are 32-bit words. *)
Lemma build_database
    (std_sort : forall A : Type, (A -> A -> bool) -> list A -> list A)
    (junk : uninitialised) (dat_size : suffix_trie_type -> Z)
    (this : ComSubstrSearch) (dict : list ascii) (db_fname : string) :
  conforming_sort std_sort ->
  defined_build this dict = true ->
  len dict < 2 ^ 28 ->
  1 <= len (suffix_records std_sort junk this dict) < 2 ^ 29 ->
  words32 junk ->
  exists b b0 pool offset dwords0 d,
    build std_sort junk dat_size this dict db_fname = Ok b
    /\ build std_sort junk dat_size this dict "" = Ok b0
    /\ anatomy std_sort junk dat_size this dict db_fname b pool offset dwords0 d
    /\ anatomy std_sort junk dat_size this dict "" b0 pool offset dwords0 d
    /\ suffix_records std_sort junk this dict
       = sorted_suffixes std_sort this pool dwords0
    /\ trie_records b = trie_records b0
    /\ 0 <= offset <= len pool /\ len pool < 2 ^ 28
    /\ 0 <= b_i d /\ b_i d + 1 < 2 ^ 29
    /\ b_i d + 1 <= len (b_suffix_iindex d)
    /\ len (b_dwordid_pool d) = len (suffix_records std_sort junk this dict)
    /\ 8 * len (sorted_words std_sort dwords0) < 2 ^ 32
    /\ Forall dword32 (sorted_words std_sort dwords0)
    /\ Forall (fun id => 0 <= id < 2 ^ 32) (b_dwordid_pool d)
    /\ Forall list32 (firstn (Z.to_nat (b_i d + 1)) (b_suffix_iindex d)).
Proof.
  intros Hsort Hdef Hdict [Hn1 Hn] Hjunk.
  destruct (defined_build_spec this dict Hdef) as (_ & _ & _ & Hstores).
  destruct (build_anatomy std_sort junk dat_size this dict db_fname Hsort ltac:(lia)
              ltac:(intros Hne; split; [lia | split; [lia | exact Hstores]]))
    as (b & pool & offset & dwords0 & d & Hb & Han & Hrecs & Hsmall & Hbig).
  destruct (build_anatomy std_sort junk dat_size this dict "" Hsort ltac:(lia) no_file_name)
    as (b0 & pool' & offset' & dwords0' & d' & Hb0 & Han0 & _).
  pose proof (an_lines _ _ _ _ _ _ _ _ _ _ _ Han) as Hlines.
  pose proof (an_lines _ _ _ _ _ _ _ _ _ _ _ Han0) as Hlines0.
  rewrite Hlines in Hlines0. injection Hlines0 as <- <- <-.
  pose proof (an_scan _ _ _ _ _ _ _ _ _ _ _ Han) as Hscan.
  pose proof (an_scan _ _ _ _ _ _ _ _ _ _ _ Han0) as Hscan0.
  rewrite Hscan in Hscan0. injection Hscan0 as <-.
  assert (Hrecs' := Hrecs). rewrite Hrecs in Hn, Hn1 |- *. clear Hrecs.
  set (isa0 := sorted_suffixes std_sort this pool dwords0) in *.
  set (words := sorted_words std_sort dwords0) in *.
  pose proof (len_nonneg isa0) as Hn0.
  pose proof (len_nonneg dict) as Hd0.
  assert (Hperm : Permutation words dwords0)
    by apply (Hsort dword_type dword_lt dwords0 dword_lt_swo).
  destruct (build_words_hold_keys std_sort junk dict pool offset dwords0 ltac:(lia) Hlines)
    as [Hlpool F].
  assert (Hlw : len words <= len dict + 1).
  { unfold len at 1. rewrite (Permutation_length Hperm). fold (len dwords0).
    rewrite (Forall2_len _ _ _ F). unfold records_of.
    pose proof (parsed_span (getlines [] dict)) as Hp.
    pose proof (getlines_span dict []) as Hs. unfold len in Hs at 1. cbn [List.length] in Hs.
    lia. }
  assert (Hw32 : Forall dword32 words).
  { apply Forall_forall. intros dw Hdw. apply (Permutation_in _ Hperm) in Hdw.
    pose proof (read_lines_dword32 _ _ _ _ _ _ _ Hlines (Forall_nil _)) as F'.
    rewrite Forall_forall in F'. exact (F' dw Hdw). }
  pose proof (read_lines_offset (getlines [] dict) _ _ _ _ _ _ (len dict) Hlines
                ltac:(lia) Hstores) as Hoff.
  exists b, b0, pool, offset, dwords0, d.
  split; [exact Hb|]. split; [exact Hb0|]. split; [exact Han|]. split; [exact Han0|].
  split; [reflexivity|].
  split.
  { rewrite (an_records _ _ _ _ _ _ _ _ _ _ _ Han), (an_records _ _ _ _ _ _ _ _ _ _ _ Han0).
    reflexivity. }
  split; [lia|]. split; [lia|].
  fold words.
  destruct (Z.lt_ge_cases (len isa0) 2) as [Hs|Hg].
  - rewrite (Hsmall Hs). unfold scan_start.
    cbn [b_i b_suffix_iindex b_dwordid_pool].
    rewrite !fresh_array_len by lia. fold words.
    split; [lia|]. split; [lia|]. split; [lia|]. split; [reflexivity|]. split; [lia|].
    split; [exact Hw32|].
    assert (Hfresh : forall (A : Type) (P : A -> Prop) (f : Z -> A) n,
               (forall k, P (f k)) -> Forall P (fresh_array f n)).
    { intros A P f n HP. unfold fresh_array. apply Forall_forall. intros x Hx.
      apply in_map_iff in Hx as (k & <- & _). apply HP. }
    split.
    + apply Hfresh. intros k. apply (Hjunk k).
    + assert (Hall : Forall list32 (fresh_array (junk_list junk) (len isa0)))
        by (apply Hfresh; intros k; split; apply (Hjunk k)).
      rewrite <- (firstn_skipn (Z.to_nat (0 + 1)) (fresh_array (junk_list junk) (len isa0)))
        in Hall.
      apply Forall_app in Hall. exact (proj1 Hall).
  - destruct (Hbig Hg) as [[Hi Hj Hwao Hli Hlp Hlisa Hvals Hrest Hvalid Hcur] _].
    destruct Hcur as (li & Hli_at & Hlo & Hls & Hsum & Hbelow).
    split; [lia|]. split; [lia|]. split; [lia|]. split; [exact Hlp|]. split; [lia|].
    split; [exact Hw32|]. split.
    + apply Forall_read_at. intros p id Hr.
      pose proof Hr as Hr'. apply read_at_Ok in Hr' as [Hp0 _].
      pose proof (Hvalid p id ltac:(lia) Hr). lia.
    + apply Forall_read_at. intros k l Hr.
      pose proof Hr as Hr'. apply read_at_Ok in Hr' as [Hk0 _].
      rewrite len_firstn_within in Hk0 by lia.
      rewrite read_at_firstn in Hr by lia.
      destruct (Z.eq_dec k (b_i d)) as [He|Hne].
      * rewrite He, Hli_at in Hr. injection Hr as <-. split; lia.
      * destruct (Hbelow k l ltac:(lia) Hr) as (H1 & H2 & H3 & _).
        split; lia.
Qed.

(** [read] on the database [build] wrote. *)
Lemma read_built_database
    (std_sort : forall A : Type, (A -> A -> bool) -> list A -> list A)
    (junk : uninitialised) (dat_size : suffix_trie_type -> Z)
    (this : ComSubstrSearch) (dict : list ascii) (db_fname : string)
    (junk' : Z -> ascii) (chunk0 : list ascii) (that : ComSubstrSearch) :
  conforming_sort std_sort ->
  db_fname <> EmptyString ->
  defined_build this dict = true ->
  len dict < 2 ^ 28 ->
  1 <= len (suffix_records std_sort junk this dict) < 2 ^ 29 ->
  words32 junk ->
  (forall t, 0 < dat_size t) ->
  List.length chunk0 = 4%nat ->
  exists b b0 pool offset dwords0 d db,
    build std_sort junk dat_size this dict db_fname = Ok b
    /\ build std_sort junk dat_size this dict "" = Ok b0
    /\ anatomy std_sort junk dat_size this dict db_fname b pool offset dwords0 d
    /\ anatomy std_sort junk dat_size this dict "" b0 pool offset dwords0 d
    /\ suffix_records std_sort junk this dict
       = sorted_suffixes std_sort this pool dwords0
    /\ 0 <= offset <= len pool
    /\ 0 <= b_i d /\ b_i d + 1 < 2 ^ 29
    /\ b_i d + 1 <= len (b_suffix_iindex d)
    /\ len (b_dwordid_pool d) = len (suffix_records std_sort junk this dict)
    /\ 8 * len (sorted_words std_sort dwords0) < 2 ^ 32
    /\ written b = Some db
    /\ read junk' chunk0 that (Some db)
       = {| used_size := file_size db;
            after := loaded_with that (trie (engine b0))
                       (firstn (Z.to_nat offset) pool)
                       (sorted_words std_sort dwords0) (b_dwordid_pool d)
                       (firstn (Z.to_nat (b_i d + 1)) (b_suffix_iindex d));
            stopped_at := None |}.
Proof.
  intros Hsort Hname Hdef Hdict Hn Hjunk Hdat Hchunk.
  destruct (build_database std_sort junk dat_size this dict db_fname Hsort Hdef Hdict Hn
              Hjunk)
    as (b & b0 & pool & offset & dwords0 & d & Hb & Hb0 & Han & Han0 & Hsuf & Hrecs & Hoff
        & Hpool & Hi0 & Hi1 & Hfit & Hlp & Hlw & Fw & Fi & Fl).
  pose proof (len_nonneg (suffix_records std_sort junk this dict)) as Hn0.
  pose proof (an_written _ _ _ _ _ _ _ _ _ _ _ Han) as Hw.
  pose proof (an_trie _ _ _ _ _ _ _ _ _ _ _ Han0) as Ht. cbn [String.eqb] in Ht.
  destruct (String.eqb_spec db_fname EmptyString) as [He|_]; [contradiction|].
  rewrite Hrecs, <- Ht, (wrap32_small (b_i d + 1)), (wrap32_small offset) in Hw by lia.
  exists b, b0, pool, offset, dwords0, d.
  eexists.
  split; [exact Hb|]. split; [exact Hb0|]. split; [exact Han|]. split; [exact Han0|].
  split; [exact Hsuf|]. split; [exact Hoff|]. split; [exact Hi0|]. split; [exact Hi1|].
  split; [exact Hfit|]. split; [exact Hlp|].
  split; [exact Hlw|]. split; [exact Hw|].
  assert (Hr := read_database junk' chunk0 that (trie (engine b0))
                  (dat_size (trie (engine b0)))
                  (firstn (Z.to_nat offset) pool)
                  (sorted_words std_sort dwords0) (b_dwordid_pool d)
                  (firstn (Z.to_nat (b_i d + 1)) (b_suffix_iindex d))
                  (Hdat _) Hchunk).
  rewrite !len_firstn_within in Hr by lia.
  specialize (Hr ltac:(lia) Hlw ltac:(lia) ltac:(lia) Fw Fi Fl).
  unfold database in Hr. cbn [db_blocks] in Hr.
  unfold file_size. cbn [db_dat db_blocks]. exact Hr.
Qed.

(** X13.  A database that [build] wrote loads back.  For an input on
    which [build] stays inside what C++ defines, a dictionary of less
    than [2 ^ 28] bytes with at least one and less than [2 ^ 29] suffix
    records, [read] on the file returns its size and stops at no block,
    and the engine it fills holds the words, the id pool and the sizes
    [build] left in its own engine, the inverted lists below the list
    count, and the bytes of the word pool below the offset [build]
    reached. *)
Theorem build_then_read
    (std_sort : forall A : Type, (A -> A -> bool) -> list A -> list A)
    (junk : uninitialised) (dat_size : suffix_trie_type -> Z)
    (this : ComSubstrSearch) (dict : list ascii) (db_fname : string)
    (junk' : Z -> ascii) (chunk0 : list ascii) (that : ComSubstrSearch) :
  conforming_sort std_sort ->
  db_fname <> EmptyString ->
  defined_build this dict = true ->
  len dict < 2 ^ 28 ->
  1 <= len (suffix_records std_sort junk this dict) < 2 ^ 29 ->
  words32 junk ->
  (forall t, 0 < dat_size t) ->
  List.length chunk0 = 4%nat ->
  exists b db,
    build std_sort junk dat_size this dict db_fname = Ok b
    /\ written b = Some db
    /\ used_size (read junk' chunk0 that (Some db)) = file_size db
    /\ stopped_at (read junk' chunk0 that (Some db)) = None
    /\ m_dwords_array (after (read junk' chunk0 that (Some db)))
       = m_dwords_array (engine b)
    /\ m_dwords_array_size (after (read junk' chunk0 that (Some db)))
       = m_dwords_array_size (engine b)
    /\ m_dwordid_pool (after (read junk' chunk0 that (Some db)))
       = m_dwordid_pool (engine b)
    /\ m_dwordid_pool_size (after (read junk' chunk0 that (Some db)))
       = m_dwordid_pool_size (engine b)
    /\ m_suffix_iindex_size (after (read junk' chunk0 that (Some db)))
       = m_suffix_iindex_size (engine b)
    /\ m_suffix_iindex (after (read junk' chunk0 that (Some db)))
       = firstn (Z.to_nat (m_suffix_iindex_size (engine b))) (m_suffix_iindex (engine b))
    /\ m_dwords_pool_size (after (read junk' chunk0 that (Some db)))
       <= len (m_dwords_pool (engine b))
    /\ m_dwords_pool (after (read junk' chunk0 that (Some db)))
       = firstn (Z.to_nat (m_dwords_pool_size (after (read junk' chunk0 that (Some db)))))
           (m_dwords_pool (engine b)).
Proof.
  intros Hsort Hname Hdef Hdict Hn Hjunk Hdat Hchunk.
  destruct (read_built_database std_sort junk dat_size this dict db_fname junk' chunk0 that
              Hsort Hname Hdef Hdict Hn Hjunk Hdat Hchunk)
    as (b & b0 & pool & offset & dwords0 & d & db & Hb & _ & Han & _ & Hsuf & Hoff & Hi0 & Hi1
        & Hfit & Hlp & Hlw & Hw & Hread).
  destruct Han as [_ _ _ _ _ Hpool Hwords Hwsize Hids Hisize Hlists Hlsize _].
  pose proof (len_nonneg (sorted_words std_sort dwords0)) as Hw0.
  exists b, db. rewrite Hread.
  cbn [used_size stopped_at after loaded_with m_dwords_array m_dwords_array_size
       m_dwordid_pool m_dwordid_pool_size m_suffix_iindex m_suffix_iindex_size
       m_dwords_pool m_dwords_pool_size].
  rewrite Hpool, Hwords, Hwsize, Hids, Hisize, Hlists, Hlsize.
  rewrite !len_firstn_within by lia.
  rewrite (wrap32_small (b_i d + 1)) by lia.
  split; [exact Hb|]. split; [exact Hw|]. split; [reflexivity|]. split; [reflexivity|].
  split; [reflexivity|]. split; [rewrite wrap32_small; [reflexivity | lia]|].
  split; [reflexivity|].
  split; [rewrite Hlp, <- Hsuf, wrap32_small; [reflexivity | lia]|].
  split; [reflexivity|]. split; [reflexivity|]. split; [lia | reflexivity].
Qed.

Lemma words32_zero_junk : words32 zero_junk.
Proof.
  intros k. cbn. lia.
Qed.

Lemma build_then_read_witness :
  exists b db,
    build insertion_sort zero_junk (fun _ => 1) (ComSubstrSearch_new (1 # 2) 2)
      youth_file "youth.db" = Ok b
    /\ written b = Some db
    /\ used_size (read no_junk four_nul (ComSubstrSearch_new (1 # 2) 2) (Some db))
       = file_size db
    /\ stopped_at (read no_junk four_nul (ComSubstrSearch_new (1 # 2) 2) (Some db)) = None
    /\ m_dwords_array (after (read no_junk four_nul (ComSubstrSearch_new (1 # 2) 2) (Some db)))
       = m_dwords_array (engine b)
    /\ m_dwords_array_size
         (after (read no_junk four_nul (ComSubstrSearch_new (1 # 2) 2) (Some db)))
       = m_dwords_array_size (engine b)
    /\ m_dwordid_pool (after (read no_junk four_nul (ComSubstrSearch_new (1 # 2) 2) (Some db)))
       = m_dwordid_pool (engine b)
    /\ m_dwordid_pool_size
         (after (read no_junk four_nul (ComSubstrSearch_new (1 # 2) 2) (Some db)))
       = m_dwordid_pool_size (engine b)
    /\ m_suffix_iindex_size
         (after (read no_junk four_nul (ComSubstrSearch_new (1 # 2) 2) (Some db)))
       = m_suffix_iindex_size (engine b)
    /\ m_suffix_iindex
         (after (read no_junk four_nul (ComSubstrSearch_new (1 # 2) 2) (Some db)))
       = firstn (Z.to_nat (m_suffix_iindex_size (engine b))) (m_suffix_iindex (engine b))
    /\ m_dwords_pool_size
         (after (read no_junk four_nul (ComSubstrSearch_new (1 # 2) 2) (Some db)))
       <= len (m_dwords_pool (engine b))
    /\ m_dwords_pool
         (after (read no_junk four_nul (ComSubstrSearch_new (1 # 2) 2) (Some db)))
       = firstn (Z.to_nat (m_dwords_pool_size
                             (after (read no_junk four_nul (ComSubstrSearch_new (1 # 2) 2)
                                       (Some db)))))
           (m_dwords_pool (engine b)).
Proof.
  apply (build_then_read insertion_sort zero_junk (fun _ => 1)
           (ComSubstrSearch_new (1 # 2) 2) youth_file "youth.db" no_junk four_nul
           (ComSubstrSearch_new (1 # 2) 2));
    try (vm_compute; reflexivity).
  - exact insertion_sort_conforming.
  - discriminate.
  - vm_compute. split; [discriminate | reflexivity].
  - exact words32_zero_junk.
Defined.

(** X14.  A search on the engine that loaded the database gives what the
    same search gives on the engine [build] filled in memory from the
    same dictionary: for an input on which [build] stays inside what C++
    defines, a dictionary of less than [2 ^ 28] bytes with at least one
    and less than [2 ^ 29] suffix records, and two engines with the same
    char table. *)
Theorem search_after_reload
    (std_sort : forall A : Type, (A -> A -> bool) -> list A -> list A)
    (junk : uninitialised) (dat_size : suffix_trie_type -> Z)
    (this : ComSubstrSearch) (dict : list ascii) (db_fname : string)
    (junk' : Z -> ascii) (chunk0 : list ascii) (that : ComSubstrSearch) :
  conforming_sort std_sort ->
  db_fname <> EmptyString ->
  defined_build this dict = true ->
  len dict < 2 ^ 28 ->
  1 <= len (suffix_records std_sort junk this dict) < 2 ^ 29 ->
  words32 junk ->
  (forall t, 0 < dat_size t) ->
  List.length chunk0 = 4%nat ->
  m_char_table that = m_char_table this ->
  exists b db b0,
    build std_sort junk dat_size this dict db_fname = Ok b
    /\ written b = Some db
    /\ build std_sort junk dat_size this dict "" = Ok b0
    /\ forall query results_ptr tpos,
         search (after (read junk' chunk0 that (Some db))) query results_ptr tpos
         = search (engine b0) query results_ptr tpos.
Proof.
  intros Hsort Hname Hdef Hdict Hn Hjunk Hdat Hchunk Htable.
  destruct (read_built_database std_sort junk dat_size this dict db_fname junk' chunk0 that
              Hsort Hname Hdef Hdict Hn Hjunk Hdat Hchunk)
    as (b & b0 & pool & offset & dwords0 & d & db & Hb & Hb0 & _ & Han0 & Hsuf & Hoff & Hi0
        & Hi1 & Hfit & Hlp & Hlw & Hw & Hread).
  destruct Han0 as [_ _ _ _ Htab _ Hwords _ Hids _ Hlists Hlsize _].
  exists b, db, b0.
  split; [exact Hb|]. split; [exact Hw|]. split; [exact Hb0|].
  intros query results_ptr tpos. symmetry. apply search_same.
  rewrite Hread. unfold same_index.
  cbn [after loaded_with trie m_char_table m_dwords_array m_dwordid_pool
       m_suffix_iindex m_suffix_iindex_size].
  rewrite Htab, Hwords, Hids, Hlists, Hlsize, len_firstn_within, wrap32_small by lia.
  split; [reflexivity|]. split; [symmetry; exact Htable|]. split; [reflexivity|].
  split; [reflexivity|]. split; [reflexivity|].
  intros s Hs. symmetry. apply read_at_firstn. exact Hs.
Qed.

Lemma search_after_reload_witness :
  exists b db b0,
    build insertion_sort zero_junk (fun _ => 1) (ComSubstrSearch_new (1 # 2) 2)
      youth_file "youth.db" = Ok b
    /\ written b = Some db
    /\ build insertion_sort zero_junk (fun _ => 1) (ComSubstrSearch_new (1 # 2) 2)
         youth_file "" = Ok b0
    /\ forall query results_ptr tpos,
         search (after (read no_junk four_nul (ComSubstrSearch_new (1 # 2) 2) (Some db)))
           query results_ptr tpos
         = search (engine b0) query results_ptr tpos.
Proof.
  apply (search_after_reload insertion_sort zero_junk (fun _ => 1)
           (ComSubstrSearch_new (1 # 2) 2) youth_file "youth.db" no_junk four_nul
           (ComSubstrSearch_new (1 # 2) 2));
    try (vm_compute; reflexivity).
  - exact insertion_sort_conforming.
  - discriminate.
  - vm_compute. split; [discriminate | reflexivity].
  - exact words32_zero_junk.
Defined.

(** ** The values in the word pool *)

Lemma read_lines_values (lines : list (list ascii)) :
  forall pool offset dws pool' offset' dws' size,
    read_lines lines pool offset dws = (pool', offset', dws') ->
    0 <= offset -> offset + span lines <= len pool + 1 -> len pool < 2 ^ 32 ->
    stores_in_pool lines offset size = true ->
    blank_or_record lines ->
    exists new,
      dws' = dws ++ new
      /\ Forall2 (fun dw rec => offset <= dword_offset dw /\ 0 <= dword_size dw
                                /\ dword_offset dw + dword_size dw + 1 + len (snd rec) + 1
                                   < size
                                /\ holds_value pool pool' dw (snd rec))
           new (parsed lines).
Proof.
  induction lines as [|line lines IH];
    intros pool offset dws pool' offset' dws' size H Ho Hspan Hp Hst Hall;
    cbn [read_lines stores_in_pool] in H, Hst.
  - injection H as <- <- <-. exists []. rewrite app_nil_r. split; [reflexivity | constructor].
  - cbn [span] in Hspan. cbn [parsed flat_map]. unfold record_of at 1.
    apply Forall_cons_iff in Hall as [Htabbed Hall].
    pose proof (len_nonneg line) as Hl0.
    assert (Hspan0 : 0 <= span lines).
    { clear. induction lines as [|x l IH]; cbn [span]; [lia|].
      pose proof (len_nonneg x). lia. }
    destruct (find_tab line) as [key_len|] eqn:Htab.
    2:{ rewrite (Htabbed eq_refl) in *. cbn [store_bytes] in H.
        change (len (@nil ascii)) with 0 in Hspan.
        apply (IH _ _ _ _ _ _ size) in H; [exact H|lia|lia|lia|exact Hst|exact Hall]. }
    apply andb_true_iff in Hst as [Hst1 Hst2].
    set (pool1 := store_bytes pool offset line) in *.
    assert (Hfit : (Z.to_nat offset + List.length line <= List.length pool)%nat)
      by (unfold len in *; lia).
    assert (Hl1 : List.length pool1 = List.length pool) by apply length_store_bytes.
    assert (Hn1 : forall k, nth_error pool1 k
                            = if (Nat.leb (Z.to_nat offset) k
                                  && Nat.ltb k (Z.to_nat offset + List.length line))%bool
                              then nth_error line (k - Z.to_nat offset)
                              else nth_error pool k).
    { intros k. apply nth_error_store_bytes; auto. }
    pose proof (find_tab_bounds line key_len Htab) as Hk.
    set (pool2 := poke pool1 (offset + key_len) NUL) in *.
    set (pool3 := poke pool2 (offset + len line + 1) NUL) in *.
    assert (Hl3 : List.length pool3 = List.length pool).
    { subst pool3 pool2. rewrite !length_poke. exact Hl1. }
    assert (Hn3 : forall k, k <> Z.to_nat (offset + key_len) ->
                            k <> Z.to_nat (offset + len line + 1) ->
                            nth_error pool3 k = nth_error pool1 k).
    { intros k Hk1 Hk2. subst pool3 pool2. rewrite !nth_error_poke by lia.
      destruct (Nat.eqb_spec k (Z.to_nat (offset + len line + 1))); [contradiction|].
      destruct (Nat.eqb_spec k (Z.to_nat (offset + key_len))); [contradiction|].
      reflexivity. }
    pose proof H as Hlay.
    apply read_lines_layout in Hlay; try lia; [|unfold len in *; lia|unfold len in *; lia].
    destruct Hlay as (_ & Hsame & _).
    apply (IH _ _ _ _ _ _ size) in H;
      [|lia|unfold len in *; lia|unfold len in *; lia|exact Hst2|exact Hall].
    destruct H as (new & -> & Hnew).
    exists ({| dword_offset := wrap32 offset; dword_size := wrap32 key_len |} :: new).
    rewrite <- app_assoc. split; [reflexivity|].
    constructor.
    + cbn [snd dword_offset dword_size].
      rewrite !wrap32_small by (unfold len in *; lia).
      split; [lia|]. split; [lia|].
      split; [rewrite len_skipn by lia; lia|].
      unfold holds_value. cbn [dword_offset dword_size].
      rewrite length_skipn.
      split.
      * intros t Ht. rewrite Hsame by (unfold len in *; lia).
        rewrite Hn3 by (unfold len in *; lia). rewrite Hn1.
        destruct (Nat.leb_spec (Z.to_nat offset) (Z.to_nat (offset + key_len + 1) + t));
          [|lia].
        destruct (Nat.ltb_spec (Z.to_nat (offset + key_len + 1) + t)
                    (Z.to_nat offset + List.length line)); [|unfold len in *; lia].
        cbn [andb]. rewrite nth_error_skipn. f_equal. lia.
      * rewrite Hsame by (unfold len in *; lia).
        rewrite Hn3 by (unfold len in *; lia). rewrite Hn1.
        destruct (Nat.ltb_spec
                    (Z.to_nat (offset + key_len + 1)
                     + (List.length line - Z.to_nat (key_len + 1)))
                    (Z.to_nat offset + List.length line)); [unfold len in *; lia|].
        rewrite Bool.andb_false_r. reflexivity.
    + revert Hnew. apply Forall2_impl.
      intros dw rec (Hlo & Hsz & Hin & Hval & Hend).
      split; [lia|]. split; [exact Hsz|]. split; [exact Hin|]. split; [exact Hval|].
      rewrite Hend.
      set (e := (Z.to_nat (dword_offset dw + dword_size dw + 1)
                 + List.length (snd rec))%nat) in *.
      rewrite Hn3 by (unfold len in *; lia). rewrite Hn1.
      destruct (Nat.ltb_spec e (Z.to_nat offset + List.length line));
        [unfold len in *; lia|].
      rewrite Bool.andb_false_r. reflexivity.
Qed.

(** X15.  [build] never stores the NUL that is to end a value: it
    stores at [offset + len + 1], one byte further.  On the inputs where
    [build] stays inside what C++ defines and finds a suffix record, for
    a dictionary whose lines without a tab are blank, the pool of the engine holds the value of
    every record after the NUL of its key, and the byte after the value
    is the one the pool was allocated with, which no store of [build]
    reaches. *)
Theorem build_leaves_values_unterminated
    (std_sort : forall A : Type, (A -> A -> bool) -> list A -> list A)
    (junk : uninitialised) (dat_size : suffix_trie_type -> Z)
    (this : ComSubstrSearch) (dict : list ascii) :
  conforming_sort std_sort ->
  defined_build this dict = true ->
  1 <= len (suffix_records std_sort junk this dict) < 2 ^ 31 ->
  blank_or_record (getlines [] dict) ->
  exists b ws,
    build std_sort junk dat_size this dict "" = Ok b
    /\ Permutation (m_dwords_array (engine b)) ws
    /\ Forall2 (fun dw rec =>
                  holds_value (fresh_array (junk_char junk) (len dict))
                    (m_dwords_pool (engine b)) dw (snd rec)
                  /\ read_at (m_dwords_pool (engine b))
                       (dword_offset dw + dword_size dw + 1 + len (snd rec))
                     = Ok (junk_char junk
                             (dword_offset dw + dword_size dw + 1 + len (snd rec))))
         ws (records_of dict).
Proof.
  intros Hsort Hdef [_ Hn] Hall.
  destruct (defined_build_spec this dict Hdef) as (_ & _ & Hdict & Hstores).
  destruct (build_anatomy std_sort junk dat_size this dict "" Hsort Hn no_file_name)
    as (b & pool & offset & dwords0 & d & Hb & Han & _).
  destruct Han as [Hlines _ _ _ _ Hpool Hwords _ _ _ _ _ _].
  destruct (Hsort dword_type dword_lt dwords0 dword_lt_swo) as [Hperm _].
  pose proof (len_nonneg dict) as Hd0.
  exists b, dwords0. split; [exact Hb|].
  rewrite Hwords, Hpool. split; [exact Hperm|].
  pose proof (getlines_span dict []) as Hspan.
  unfold len in Hspan at 1. cbn [List.length] in Hspan.
  apply (read_lines_values _ _ _ _ _ _ _ (len dict)) in Hlines;
    [|lia|rewrite fresh_array_len by lia; lia|rewrite fresh_array_len by lia; lia
     |exact Hstores|exact Hall].
  destruct Hlines as (new & Hnew & F). cbn [app] in Hnew. subst new.
  revert F. apply Forall2_impl. intros dw rec (Hlo & Hsz & Hin & H).
  split; [exact H|].
  destruct H as [_ Hend].
  pose proof (len_nonneg (snd rec)) as Hv0.
  set (e := dword_offset dw + dword_size dw + 1 + len (snd rec)) in *.
  replace (Z.to_nat (dword_offset dw + dword_size dw + 1) + List.length (snd rec))%nat
    with (Z.to_nat e) in Hend by (unfold e, len; lia).
  unfold read_at. destruct (Z.ltb_spec e 0) as [Hneg|_]; [lia|].
  rewrite Hend. unfold fresh_array.
  rewrite nth_error_map, nth_error_seq.
  replace (Z.to_nat e <? Z.to_nat (len dict))%nat with true
    by (symmetry; apply Nat.ltb_lt; lia).
  cbn [option_map]. rewrite Nat.add_0_l, Z2Nat.id by lia. reflexivity.
Qed.

Lemma build_leaves_values_unterminated_witness :
  exists b ws,
    build insertion_sort zero_junk (fun _ => 1) (ComSubstrSearch_new (1 # 2) 2)
      youth_file "" = Ok b
    /\ Permutation (m_dwords_array (engine b)) ws
    /\ Forall2 (fun dw rec =>
                  holds_value (fresh_array (junk_char zero_junk) (len youth_file))
                    (m_dwords_pool (engine b)) dw (snd rec)
                  /\ read_at (m_dwords_pool (engine b))
                       (dword_offset dw + dword_size dw + 1 + len (snd rec))
                     = Ok (junk_char zero_junk
                             (dword_offset dw + dword_size dw + 1 + len (snd rec))))
         ws (records_of youth_file).
Proof.
  apply (build_leaves_values_unterminated insertion_sort zero_junk (fun _ => 1)
           (ComSubstrSearch_new (1 # 2) 2) youth_file);
    try (vm_compute; reflexivity).
  - exact insertion_sort_conforming.
  - vm_compute. split; [discriminate | reflexivity].
  - vm_compute. repeat constructor; intros H; try discriminate H; reflexivity.
Defined.
